(** * jsondiff: a shallow embedding of the JSON Patch generator (differ.go)

    The development embeds the [Differ] of [differ.go] as pure functions
    over an explicit [Differ] state, and proves properties of the patches
    it generates. *)

From Stdlib Require Import ZArith String Ascii List DecimalString DecimalNat Lia.
From stdpp Require Import gmap strings list fin_maps.

Set Warnings "-register-all".

(** ** JSON documents

    A decoded document is Go's [interface{}] holding [nil], [bool], a
    number, [string], [[]interface{}] or [map[string]interface{}].  JSON
    [null] decodes to the [nil] interface, which is [VNull].  The engine
    only ever compares numbers for equality, so a number is an integer
    here.  A Go map is an association list: the order of the list is the
    order in which [range] visits the map, which Go leaves unspecified;
    a Go map has no duplicate keys ([wf] below). *)

Inductive value : Type :=
| VNull
| VBool (b : bool)
| VNum (n : Z)
| VStr (s : string)
| VArr (xs : list value)
| VObj (kvs : list (string * value)).

(** [m[k]] with the comma-ok idiom. *)
Fixpoint obj_lookup (k : string) (kvs : list (string * value)) : option value :=
  match kvs with
  | [] => None
  | (k', v) :: r => if String.eqb k k' then Some v else obj_lookup k r
  end.

(** [m[k]]: the zero value [nil] when the key is absent. *)
Definition obj_get (k : string) (kvs : list (string * value)) : value :=
  default VNull (obj_lookup k kvs).

Inductive kind : Type := KPtr | KBool | KNumber | KString | KSlice | KMap.

(** Modelled from the spec: [typeSwitchKind] is not in differ.go; it gives
    the shape of a value (section 4.4 step 3, "incomparable shapes"). *)
Definition typeSwitchKind (v : value) : kind :=
  match v with
  | VNull => KPtr
  | VBool _ => KBool
  | VNum _ => KNumber
  | VStr _ => KString
  | VArr _ => KSlice
  | VObj _ => KMap
  end.

Definition kind_eqb (a b : kind) : bool :=
  match a, b with
  | KPtr, KPtr | KBool, KBool | KNumber, KNumber
  | KString, KString | KSlice, KSlice | KMap, KMap => true
  | _, _ => false
  end.

(** Modelled from the spec: [areComparable] is not in differ.go; two values
    are comparable when they have the same shape. *)
Definition areComparable (a b : value) : bool :=
  kind_eqb (typeSwitchKind a) (typeSwitchKind b).

(** Modelled from the spec: [deepEqual] is not in differ.go; section 4.2:
    null equals null; booleans, numbers and strings are equal by value;
    arrays are equal iff they have the same length and pairwise deeply
    equal elements in order; objects are equal iff they have the same key
    set and pairwise deeply equal values, key order being irrelevant. *)
Fixpoint deepEqual (a b : value) {struct a} : bool :=
  match a, b with
  | VNull, VNull => true
  | VBool x, VBool y => Bool.eqb x y
  | VNum x, VNum y => Z.eqb x y
  | VStr x, VStr y => String.eqb x y
  | VArr xs, VArr ys =>
      (fix go (xs ys : list value) {struct xs} : bool :=
         match xs, ys with
         | [], [] => true
         | x :: xs', y :: ys' => deepEqual x y && go xs' ys'
         | _, _ => false
         end) xs ys
  | VObj m1, VObj m2 =>
      Nat.eqb (List.length m1) (List.length m2) &&
      (fix go (m : list (string * value)) {struct m} : bool :=
         match m with
         | [] => true
         | (k, v1) :: r =>
             match obj_lookup k m2 with
             | Some v2 => deepEqual v1 v2 && go r
             | None => false
             end
         end) m1
  | _, _ => false
  end.

(** Modelled from the spec: [deepValueEqual] is not in differ.go; it is the
    deep equality of section 4.2, told the shape of its first argument. *)
Definition deepValueEqual (src tgt : value) (k : kind) : bool :=
  deepEqual src tgt.

Definition is_nil (v : value) : bool :=
  match v with VNull => true | _ => false end.

(** ** The path tracker *)

(** Modelled from the spec: the [pointer] type is not in differ.go.
    Sections 4.1 and 9: a growable buffer holding the JSON Pointer text,
    with a mark/rewind pair (record the length, truncate back).
    differ.go uses it as a Go value: every method returns the new
    pointer, and a result that is not assigned is lost. *)
Record pointer : Type := mkPointer { buf : string; sep : nat }.

Definition emptyPtr : string := "".

(** Modelled from the spec: the escaping of keys is not in differ.go.
    Section 4.1: [~] is written [~0] and [/] is written [~1]. *)
Fixpoint escapeKey (s : string) : string :=
  match s with
  | EmptyString => EmptyString
  | String c r =>
      if Ascii.eqb c "~" then String "~" (String "0" (escapeKey r))
      else if Ascii.eqb c "/" then String "~" (String "1" (escapeKey r))
      else String c (escapeKey r)
  end.

(** An array index in decimal. *)
Definition itoa (i : nat) : string := NilEmpty.string_of_uint (Nat.to_uint i).

(** Modelled from the spec: the methods of [pointer] are not in
    differ.go.  Section 4.1: [string] and [copy] give the text, [isRoot]
    tests emptiness, [appendKey] and [appendIndex] push a token;
    section 9: [snapshot] records the length and [rewind] truncates back
    to it. *)
Definition ptr_string (p : pointer) : string := buf p.
Definition ptr_copy (p : pointer) : string := buf p.
Definition isRoot (p : pointer) : bool := Nat.eqb (String.length (buf p)) 0.
Definition ptr_reset (p : pointer) : pointer := mkPointer "" 0.
Definition snapshot (p : pointer) : pointer := mkPointer (buf p) (String.length (buf p)).
Definition rewind (p : pointer) : pointer := mkPointer (substring 0 (sep p) (buf p)) (sep p).
Definition appendKey (p : pointer) (k : string) : pointer :=
  mkPointer (buf p +:+ "/" +:+ escapeKey k) (sep p).
Definition appendIndex (p : pointer) (i : nat) : pointer :=
  mkPointer (buf p +:+ "/" +:+ itoa i) (sep p).

(** ** The patch model *)

Inductive OpType : Type :=
| OperationAdd | OperationRemove | OperationReplace
| OperationMove | OperationCopy | OperationTest.

Definition OpType_eqb (a b : OpType) : bool :=
  match a, b with
  | OperationAdd, OperationAdd | OperationRemove, OperationRemove
  | OperationReplace, OperationReplace | OperationMove, OperationMove
  | OperationCopy, OperationCopy | OperationTest, OperationTest => true
  | _, _ => false
  end.

Record Operation : Type := mkOp {
  Type_ : OpType;
  From : string;
  Path : string;
  OldValue : value;
  Value : value
}.

Definition Patch : Type := list Operation.

(** Modelled from the spec: [Patch.append] is not in differ.go; section
    4.3, [append(op)], with the argument order of its call sites: type,
    from, path, old value, new value. *)
Definition Patch_append (p : Patch) (typ : OpType) (from path : string)
    (src tgt : value) : Patch :=
  p ++ [mkOp typ from path src tgt].

(** Modelled from the spec: [Patch.remove] is not in differ.go; section
    4.3, [remove_at(index)]. *)
Definition Patch_remove (p : Patch) (idx : nat) : Patch := delete idx p.

(** ** The differ *)

Record jsonNode : Type := mkNode { node_ptr : string; node_val : value }.

(** [marshal] and [unmarshal] are not called in differ.go: the cost
    functions that use them are parameters of the engine. *)
Record options : Type := mkOptions {
  factorize : bool;
  rationalize : bool;
  invertible : bool;
  equivalent : bool;
  ignores : gset string
}.

(** [hasher] keeps no state that the differ reads: its [digest] is a
    parameter of the engine.  A nil [hashmap] reads as the empty map. *)
Record Differ : Type := mkDiffer {
  patch : Patch;
  hashmap : gmap Z jsonNode;
  targetBytes : string;
  opts : options;
  ptr : pointer
}.

Definition with_patch (d : Differ) (p : Patch) : Differ :=
  mkDiffer p (hashmap d) (targetBytes d) (opts d) (ptr d).
Definition with_hashmap (d : Differ) (h : gmap Z jsonNode) : Differ :=
  mkDiffer (patch d) h (targetBytes d) (opts d) (ptr d).

(** The zero value of [Differ], with options applied. *)
Definition newDiffer (o : options) : Differ :=
  mkDiffer [] ∅ "" o (mkPointer "" 0).

(** [Differ.Patch]. *)
Definition Patch_of (d : Differ) : Patch := patch d.

(** [Differ.Reset]. *)
Definition Reset (d : Differ) : Differ :=
  mkDiffer [] ∅ (targetBytes d) (opts d) (ptr_reset (ptr d)).

Definition ignored (d : Differ) (p : string) : bool :=
  bool_decide (p ∈ ignores (opts d)).

(** [sortStrings]: Go compares strings bytewise. *)
Fixpoint shift (rl : list string) (key : string) : list string :=
  match rl with
  | [] => [key]
  | x :: r => if String.ltb key x then x :: shift r key else key :: x :: r
  end.

(** [insertionSort]: the sorted prefix [v[:j]] is kept reversed, so that
    [shift] walks it from its right end as the inner loop does. *)
Definition insertionSort (v : list string) : list string :=
  rev (foldl shift [] v).

(** [sort.Strings] of Go's library sorts in increasing order; a list has
    one sorted arrangement, which [insertionSort] computes. *)
Definition sort_Strings (v : list string) : list string := insertionSort v.

Definition sortStrings (v : list string) : list string :=
  if Nat.ltb (List.length v) 20 then insertionSort v else sort_Strings v.

Definition min (i j : nat) : nat := if Nat.ltb i j then i else j.

(** The depth of a document, which bounds the recursion of the passes. *)
Fixpoint height (v : value) : nat :=
  match v with
  | VArr xs => S (foldr (fun x acc => Nat.max (height x) acc) 0 xs)
  | VObj kvs => S (foldr (fun kv acc => Nat.max (height (snd kv)) acc) 0 kvs)
  | _ => 0
  end.

Module Engine.

Section WithHasher.

(** The content hasher and the cost functions are not in differ.go; the
    engine is parametric in them.  [digest] is [hasher.digest];
    [opLength] is [Operation.jsonLength] and [patchLength] is
    [Patch.jsonLength], both given [targetBytes]. *)
Variable digest : value -> Z.
Variable opLength : Operation -> string -> Z.
Variable patchLength : Patch -> string -> Z.

(** [Differ.replace]. *)
Definition replace (d : Differ) (ptr : string) (src tgt : value) : Differ :=
  let d :=
    if invertible (opts d)
    then with_patch d (Patch_append (patch d) OperationTest emptyPtr ptr VNull src)
    else d in
  with_patch d (Patch_append (patch d) OperationReplace emptyPtr ptr src tgt).

(** [Differ.remove]. *)
Definition remove (d : Differ) (ptr : string) (v : value) : Differ :=
  let d :=
    if invertible (opts d)
    then with_patch d (Patch_append (patch d) OperationTest emptyPtr ptr VNull v)
    else d in
  with_patch d (Patch_append (patch d) OperationRemove emptyPtr ptr v VNull).

(** [Differ.findUnchanged]. *)
Definition findUnchanged (d : Differ) (v : value) : string :=
  match hashmap d !! digest v with
  | Some node => node_ptr node
  | None => emptyPtr
  end.

(** [findRemoved]: the index of the first matching remove; [None] is the
    source's [-1]. *)
Fixpoint findRemoved_from (i : nat) (p : Patch) (v : value) : option nat :=
  match p with
  | [] => None
  | op :: r =>
      if OpType_eqb (Type_ op) OperationRemove && deepEqual (OldValue op) v
      then Some i
      else findRemoved_from (S i) r v
  end.

Definition findRemoved (d : Differ) (v : value) : option nat :=
  findRemoved_from 0 (patch d) v.

Definition zeroOp : Operation := mkOp OperationAdd "" "" VNull VNull.

(** [Differ.add].  When a remove is found, the function returns after the
    inner [if], whether or not the move was emitted. *)
Definition add (d : Differ) (ptr : string) (v : value) : Differ :=
  if negb (factorize (opts d)) then
    with_patch d (Patch_append (patch d) OperationAdd emptyPtr ptr VNull v)
  else
    match findRemoved d v with
    | Some idx =>
        let op := nth idx (patch d) zeroOp in
        if negb (String.prefix (Path op) ptr) then
          let d := with_patch d (Patch_remove (patch d) idx) in
          with_patch d (Patch_append (patch d) OperationMove (Path op) ptr v v)
        else d
    | None =>
        let uptr := findUnchanged d v in
        if negb (Nat.eqb (String.length uptr) 0) && negb (invertible (opts d)) then
          with_patch d (Patch_append (patch d) OperationCopy uptr ptr VNull v)
        else
          with_patch d (Patch_append (patch d) OperationAdd emptyPtr ptr VNull v)
    end.

(** [Differ.rationalizeLastOps]: [newLen] is the length of the replace
    operation alone. *)
Definition rationalizeLastOps (d : Differ) (ptr : pointer) (src tgt : value)
    (lastOpIdx : nat) : Differ :=
  let newOps : Patch := [] in
  let newOps :=
    if invertible (opts d)
    then Patch_append newOps OperationTest emptyPtr (ptr_copy ptr) VNull src
    else newOps in
  let replaceOp := mkOp OperationReplace "" (ptr_copy ptr) VNull tgt in
  let newOps := newOps ++ [replaceOp] in
  let curOps := drop lastOpIdx (patch d) in
  let newLen := opLength replaceOp (targetBytes d) in
  let curLen := patchLength curOps (targetBytes d) in
  if Z.ltb newLen curLen
  then with_patch d (take lastOpIdx (patch d) ++ newOps)
  else d.

(** [unorderedDeepEqualSlice]: [diff] is the map of digest counts. *)
Definition count_up (m : gmap Z Z) (v : value) : gmap Z Z :=
  let k := digest v in <[k := (default 0%Z (m !! k) + 1)%Z]> m.

Fixpoint count_down (m : gmap Z Z) (tgt : list value) : option (gmap Z Z) :=
  match tgt with
  | [] => Some m
  | v :: r =>
      let k := digest v in
      match m !! k with
      | None => None
      | Some c =>
          let m := <[k := (c - 1)%Z]> m in
          let m := if Z.eqb (default 0%Z (m !! k)) 0 then delete k m else m in
          count_down m r
      end
  end.

Definition unorderedDeepEqualSlice (d : Differ) (src tgt : list value) : bool :=
  if negb (Nat.eqb (List.length src) (List.length tgt)) then false
  else
    match count_down (foldl count_up ∅ src) tgt with
    | None => false
    | Some m => Nat.eqb (size m) 0
    end.

Section Recursion.

(** The recursive call [d.diff], at the remaining depth. *)
Variable rec_diff : Differ -> pointer -> value -> value -> Differ.

(** [Differ.compareObjects]. *)
Definition compareObjects_with (d : Differ) (ptr : pointer)
    (src tgt : list (string * value)) : Differ :=
  let cmpSet : gmap string Z := ∅ in
  let cmpSet :=
    foldl (fun m kv => <[kv.1 := Z.lor (default 0%Z (m !! kv.1)) (Z.shiftl 1 0)]> m)
          cmpSet src in
  let cmpSet :=
    foldl (fun m kv => <[kv.1 := Z.lor (default 0%Z (m !! kv.1)) (Z.shiftl 1 1)]> m)
          cmpSet tgt in
  let keys := sortStrings (map_to_list cmpSet).*1 in
  fst (foldl
    (fun (st : Differ * pointer) k =>
       let '(d, ptr) := st in
       let v := default 0%Z (cmpSet !! k) in
       let inOld := negb (Z.eqb (Z.land v (Z.shiftl 1 0)) 0) in
       let inNew := negb (Z.eqb (Z.land v (Z.shiftl 1 1)) 0) in
       let ptr := snapshot ptr in
       let ptr := appendKey ptr k in
       let d :=
         if inOld && inNew then rec_diff d ptr (obj_get k src) (obj_get k tgt)
         else if inOld && negb inNew then
           if ignored d (ptr_string ptr) then d
           else remove d (ptr_copy ptr) (obj_get k src)
         else if negb inOld && inNew then
           if ignored d (ptr_string ptr) then d
           else add d (ptr_copy ptr) (obj_get k tgt)
         else d in
       (d, rewind ptr))
    (d, ptr) keys).

(** [Differ.compareArrays]. *)
Definition compareArrays_with (d : Differ) (ptr : pointer)
    (src tgt : list value) : Differ :=
  let ptr := snapshot ptr in
  let size := min (List.length src) (List.length tgt) in
  let '(d, ptr) :=
    if Nat.ltb size (List.length src) then
      let psize := ptr_copy (appendIndex ptr size) in
      foldl
        (fun (st : Differ * pointer) i =>
           let '(d, ptr) := st in
           let ptr := appendIndex ptr i in
           let d :=
             if ignored d (ptr_string ptr) then d
             else remove d psize (nth i src VNull) in
           (d, rewind ptr))
        (d, ptr) (seq size (List.length src - size))
    else (d, ptr) in
  let '(d, ptr) :=
    if equivalent (opts d) && unorderedDeepEqualSlice d src tgt then (d, ptr)
    else
      foldl
        (fun (st : Differ * pointer) i =>
           let '(d, ptr) := st in
           let ptr := appendIndex ptr i in
           let d := rec_diff d ptr (nth i src VNull) (nth i tgt VNull) in
           (d, rewind ptr))
        (d, ptr) (seq 0 size) in
  fst (foldl
    (fun (st : Differ * pointer) i =>
       let '(d, ptr) := st in
       let ptr := appendIndex ptr i in
       if ignored d (ptr_string ptr) then
         (* the result of the final [ptr.rewind()] is not assigned *)
         (d, ptr)
       else
         let ptr := rewind ptr in
         (add d (ptr_copy (appendKey ptr "-")) (nth i tgt VNull), ptr))
    (d, ptr) (seq size (List.length tgt - size))).

End Recursion.

(** The last statement of [diff], "Rationalize any new operations": [d0]
    is the state when [diff] was entered, so that [size] is the length of
    its patch, and [d] the state after the two values were compared. *)
Definition finish (d0 d : Differ) (p : pointer) (src tgt : value) : Differ :=
  let size := List.length (patch d0) in
  if rationalize (opts d) && Nat.ltb size (List.length (patch d))
  then rationalizeLastOps d p src tgt size
  else d.

(** [Differ.diff]; [fuel] bounds the depth of the recursion, and
    [S (height src)] is enough ([Compare] below, and [diff_fuel]). *)
Fixpoint diff (fuel : nat) (d : Differ) (ptr : pointer) (src tgt : value) : Differ :=
  match fuel with
  | O => d
  | S n =>
      if is_nil src && is_nil tgt then d
      else if ignored d (ptr_copy ptr) then d
      else if negb (areComparable src tgt) then
        if isRoot ptr then
          with_patch d (Patch_append (patch d) OperationAdd emptyPtr (ptr_copy ptr) src tgt)
        else replace d (ptr_copy ptr) src tgt
      else if deepValueEqual src tgt (typeSwitchKind src) then d
      else
        match src, tgt with
        | VArr val, VArr t => finish d (compareArrays_with (diff n) d ptr val t) ptr src tgt
        | VObj val, VObj t => finish d (compareObjects_with (diff n) d ptr val t) ptr src tgt
        | _, _ =>
            if negb (deepValueEqual src tgt (typeSwitchKind src))
            then replace d (ptr_copy ptr) src tgt
            else finish d d ptr src tgt
        end
  end.

Definition compareArrays (fuel : nat) := compareArrays_with (diff fuel).
Definition compareObjects (fuel : nat) := compareObjects_with (diff fuel).

(** [Differ.prepare]. *)
Fixpoint prepare (fuel : nat) (d : Differ) (ptr : pointer) (src tgt : value) : Differ :=
  match fuel with
  | O => d
  | S n =>
      if is_nil src && is_nil tgt then d
      else if negb (areComparable src tgt) then d
      else if deepValueEqual src tgt (typeSwitchKind src) then
        let k := digest tgt in
        with_hashmap d (<[k := mkNode (ptr_copy ptr) tgt]> (hashmap d))
      else
        match src, tgt with
        | VArr oarr, VArr narr =>
            foldl (fun d i => prepare n d (appendIndex ptr i) (nth i oarr VNull) (nth i narr VNull))
                  d (seq 0 (min (List.length oarr) (List.length narr)))
        | VObj oobj, VObj nobj =>
            foldl (fun d kv =>
                     match obj_lookup kv.1 nobj with
                     | Some v2 => prepare n d (appendKey ptr kv.1) kv.2 v2
                     | None => d
                     end)
                  d oobj
        | _, _ => d
        end
  end.

(** [Differ.Compare].  The result of [d.ptr.reset()] is not assigned. *)
Definition Compare (d : Differ) (src tgt : value) : Differ :=
  let fuel := S (height src) in
  let d := if factorize (opts d) then prepare fuel d (ptr d) src tgt else d in
  diff fuel d (ptr d) src tgt.

End WithHasher.

End Engine.

Import Engine.

(** ** A concrete hasher and a concrete cost, for running the engine *)

Definition wrap64 (z : Z) : Z := z mod 2 ^ 64.

Definition hash_string (s : string) : Z :=
  foldl (fun h c => wrap64 (h * 1099511628211 + Z.of_nat (nat_of_ascii c)))
        14695981039346656037%Z (list_ascii_of_string s).

(** Modelled from the spec: the content hasher is not in differ.go.
    Section 4.2: deeply equal values have the same digest; the digest of an
    object combines its members with a commutative operation (a sum), the
    digest of an array depends on the order of its elements. *)
Fixpoint digest_model (v : value) : Z :=
  match v with
  | VNull => 1
  | VBool b => if b then 3 else 2
  | VNum n => wrap64 (n * 2654435761 + 5)
  | VStr s => wrap64 (hash_string s * 31 + 7)
  | VArr xs =>
      foldl (fun h x => wrap64 (h * 1099511628211 + digest_model x)) 11%Z xs
  | VObj kvs =>
      wrap64 (13 + foldr (fun kv acc =>
                (wrap64 (hash_string (fst kv) * 16777619 + digest_model (snd kv)) + acc)%Z)
              0%Z kvs)
  end.

Definition dquote : string := String (ascii_of_nat 34) EmptyString.

Fixpoint join (sep : string) (l : list string) : string :=
  match l with
  | [] => ""
  | [x] => x
  | x :: r => x +:+ sep +:+ join sep r
  end.

(** A compact JSON encoder, standing for the injected [marshal]. *)
Fixpoint marshal_model (v : value) : string :=
  match v with
  | VNull => "null"
  | VBool b => if b then "true" else "false"
  | VNum n => NilEmpty.string_of_int (Z.to_int n)
  | VStr s => dquote +:+ s +:+ dquote
  | VArr xs => "[" +:+ join "," (map marshal_model xs) +:+ "]"
  | VObj kvs =>
      "{" +:+ join "," (map (fun kv => dquote +:+ fst kv +:+ dquote +:+ ":" +:+
                                       marshal_model (snd kv)) kvs) +:+ "}"
  end.

Definition OpType_name (t : OpType) : string :=
  match t with
  | OperationAdd => "add" | OperationRemove => "remove"
  | OperationReplace => "replace" | OperationMove => "move"
  | OperationCopy => "copy" | OperationTest => "test"
  end.

Definition hasFrom (o : Operation) : bool :=
  match Type_ o with OperationMove | OperationCopy => true | _ => false end.

Definition hasValue (o : Operation) : bool :=
  match Type_ o with
  | OperationAdd | OperationReplace | OperationTest => true
  | _ => false
  end.

(** Modelled from the spec: [Operation.jsonLength] is not in differ.go.
    Section 4.3: the serialized size of the operation, path and value
    included; section 6 gives the members of the serialized form. *)
Definition opLength_model (o : Operation) (targetBytes : string) : Z :=
  Z.of_nat
    (String.length
       ("{" +:+ dquote +:+ "op" +:+ dquote +:+ ":" +:+ dquote +:+ OpType_name (Type_ o) +:+ dquote +:+
        (if hasFrom o
         then "," +:+ dquote +:+ "from" +:+ dquote +:+ ":" +:+ dquote +:+ From o +:+ dquote
         else "") +:+
        "," +:+ dquote +:+ "path" +:+ dquote +:+ ":" +:+ dquote +:+ Path o +:+ dquote +:+
        (if hasValue o
         then "," +:+ dquote +:+ "value" +:+ dquote +:+ ":" +:+ marshal_model (Value o)
         else "") +:+
        "}")).

(** Modelled from the spec: [Patch.jsonLength] is not in differ.go.
    Section 4.3: the total serialized size of a contiguous range of
    operations, here with the commas that separate them. *)
Definition patchLength_model (p : Patch) (targetBytes : string) : Z :=
  (foldr (fun o acc => (opLength_model o targetBytes + acc)%Z) 0%Z p
   + Z.of_nat (List.length p - 1))%Z.

Definition Compare_model : Differ -> value -> value -> Differ :=
  Compare digest_model opLength_model patchLength_model.

(** ** Applying a patch *)

(** Modelled from the spec: the repository generates patches and has no
    code that applies them.  Section 6 and the glossary: an operation is
    an RFC 6902 JSON Patch member, its paths are RFC 6901 JSON Pointers,
    and a patch is applied operation by operation, in order.  The
    definitions of this part, down to [apply_patch], follow the two
    RFCs. *)
Fixpoint unescapeKey (s : string) : string :=
  match s with
  | EmptyString => EmptyString
  | String c r =>
      if Ascii.eqb c "~" then
        match r with
        | String c' r' =>
            if Ascii.eqb c' "0" then String "~" (unescapeKey r')
            else if Ascii.eqb c' "1" then String "/" (unescapeKey r')
            else String c (unescapeKey r)
        | EmptyString => String c EmptyString
        end
      else String c (unescapeKey r)
  end.

(** The reference tokens of the text that follows the first [/]. *)
Fixpoint tokens (s : string) : list string :=
  match s with
  | EmptyString => [EmptyString]
  | String c r =>
      if Ascii.eqb c "/" then EmptyString :: tokens r
      else match tokens r with
           | t :: ts => String c t :: ts
           | [] => [String c EmptyString]
           end
  end.

Definition parse_pointer (s : string) : option (list string) :=
  match s with
  | EmptyString => Some []
  | String c r => if Ascii.eqb c "/" then Some (map unescapeKey (tokens r)) else None
  end.

(** The text of a pointer, from its reference tokens. *)
Fixpoint render (ts : list string) : string :=
  match ts with
  | [] => ""
  | t :: r => "/" +:+ escapeKey t +:+ render r
  end.

(** An array index: decimal digits without leading zeros. *)
Definition parse_index (t : string) : option nat :=
  match NilEmpty.uint_of_string t with
  | Some u => let n := Nat.of_uint u in if String.eqb (itoa n) t then Some n else None
  | None => None
  end.

(** The member of [v] that a reference token names. *)
Definition child (t : string) (v : value) : option value :=
  match v with
  | VObj kvs => obj_lookup t kvs
  | VArr xs => match parse_index t with Some i => xs !! i | None => None end
  | _ => None
  end.

Fixpoint get (v : value) (ts : list string) : option value :=
  match ts with
  | [] => Some v
  | t :: r => match child t v with Some c => get c r | None => None end
  end.

(** [m[k] = v]: the member is replaced where it stands, or added. *)
Fixpoint obj_set (k : string) (v : value) (kvs : list (string * value))
    : list (string * value) :=
  match kvs with
  | [] => [(k, v)]
  | (k', v') :: r =>
      if String.eqb k k' then (k', v) :: r else (k', v') :: obj_set k v r
  end.

(** [delete(m, k)]. *)
Fixpoint obj_del (k : string) (kvs : list (string * value)) : list (string * value) :=
  match kvs with
  | [] => []
  | (k', v') :: r =>
      if String.eqb k k' then obj_del k r else (k', v') :: obj_del k r
  end.

(** The document in which the value at [ts] has been changed by [f]. *)
Fixpoint update (ts : list string) (f : value -> option value) (v : value)
    : option value :=
  match ts with
  | [] => f v
  | t :: r =>
      match v with
      | VObj kvs =>
          match obj_lookup t kvs with
          | Some c =>
              match update r f c with
              | Some c' => Some (VObj (obj_set t c' kvs))
              | None => None
              end
          | None => None
          end
      | VArr xs =>
          match parse_index t with
          | Some i =>
              match xs !! i with
              | Some c =>
                  match update r f c with
                  | Some c' => Some (VArr (<[i := c']> xs))
                  | None => None
                  end
              | None => None
              end
          | None => None
          end
      | _ => None
      end
  end.

Definition insert_at (i : nat) (v : value) (xs : list value) : list value :=
  take i xs ++ v :: drop i xs.

(** RFC 6902, 4.1: add a member to an object, or insert into an array
    ([-] appends). *)
Definition add_member (t : string) (v : value) (parent : value) : option value :=
  match parent with
  | VObj kvs => Some (VObj (obj_set t v kvs))
  | VArr xs =>
      if String.eqb t "-" then Some (VArr (xs ++ [v]))
      else match parse_index t with
           | Some i => if Nat.leb i (List.length xs) then Some (VArr (insert_at i v xs)) else None
           | None => None
           end
  | _ => None
  end.

(** RFC 6902, 4.2: the target location must exist. *)
Definition remove_member (t : string) (parent : value) : option value :=
  match parent with
  | VObj kvs =>
      match obj_lookup t kvs with
      | Some _ => Some (VObj (obj_del t kvs))
      | None => None
      end
  | VArr xs =>
      match parse_index t with
      | Some i => if Nat.ltb i (List.length xs) then Some (VArr (delete i xs)) else None
      | None => None
      end
  | _ => None
  end.

(** A path as its parent and its last token. *)
Fixpoint split_last (ts : list string) : option (list string * string) :=
  match ts with
  | [] => None
  | [t] => Some ([], t)
  | t :: r => match split_last r with
              | Some (init, l) => Some (t :: init, l)
              | None => None
              end
  end.

Definition add_at (ts : list string) (v : value) (doc : value) : option value :=
  match split_last ts with
  | None => Some v
  | Some (init, t) => update init (add_member t v) doc
  end.

Definition remove_at (ts : list string) (doc : value) : option value :=
  match split_last ts with
  | None => None
  | Some (init, t) => update init (remove_member t) doc
  end.

(** Modelled from the spec: one operation of RFC 6902 applied to a
    document; [None] when the operation fails. *)
Definition apply_op (op : Operation) (doc : value) : option value :=
  match parse_pointer (Path op) with
  | None => None
  | Some ts =>
      match Type_ op with
      | OperationAdd => add_at ts (Value op) doc
      | OperationRemove => remove_at ts doc
      | OperationReplace => update ts (fun _ => Some (Value op)) doc
      | OperationTest =>
          match get doc ts with
          | Some v => if deepEqual v (Value op) then Some doc else None
          | None => None
          end
      | OperationMove =>
          match parse_pointer (From op) with
          | Some fs =>
              match get doc fs with
              | Some v =>
                  match remove_at fs doc with
                  | Some doc' => add_at ts v doc'
                  | None => None
                  end
              | None => None
              end
          | None => None
          end
      | OperationCopy =>
          match parse_pointer (From op) with
          | Some fs =>
              match get doc fs with
              | Some v => add_at ts v doc
              | None => None
              end
          | None => None
          end
      end
  end.

(** Modelled from the spec: the operations applied in order; the patch
    fails as soon as one operation fails. *)
Fixpoint apply_patch (p : Patch) (doc : value) : option value :=
  match p with
  | [] => Some doc
  | op :: r =>
      match apply_op op doc with
      | Some doc' => apply_patch r doc'
      | None => None
      end
  end.

(** ** Well-formed documents: a Go map has no duplicate keys *)

Fixpoint wf (v : value) : bool :=
  match v with
  | VArr xs => forallb wf xs
  | VObj kvs =>
      bool_decide (NoDup (map fst kvs)) && forallb (fun kv => wf (snd kv)) kvs
  | _ => true
  end.

(** ** Reasoning principles for documents *)

Section value_induction.
Variable P : value -> Prop.
Hypothesis HNull : P VNull.
Hypothesis HBool : forall b, P (VBool b).
Hypothesis HNum : forall n, P (VNum n).
Hypothesis HStr : forall s, P (VStr s).
Hypothesis HArr : forall xs, Forall P xs -> P (VArr xs).
Hypothesis HObj : forall kvs, Forall (fun kv => P (snd kv)) kvs -> P (VObj kvs).

Fixpoint value_nested_ind (v : value) : P v :=
  match v with
  | VNull => HNull
  | VBool b => HBool b
  | VNum n => HNum n
  | VStr s => HStr s
  | VArr xs =>
      HArr xs ((fix go (l : list value) : Forall P l :=
                  match l with
                  | [] => @List.Forall_nil _ P
                  | x :: r => @List.Forall_cons _ P x r (value_nested_ind x) (go r)
                  end) xs)
  | VObj kvs =>
      HObj kvs ((fix go (l : list (string * value)) : Forall (fun kv => P (snd kv)) l :=
                   match l with
                   | [] => @List.Forall_nil _ _
                   | kv :: r => @List.Forall_cons _ (fun kv => P (snd kv)) kv r (value_nested_ind (snd kv)) (go r)
                   end) kvs)
  end.
End value_induction.

Lemma deepEqual_arr xs ys :
  deepEqual (VArr xs) (VArr ys) = true <-> Forall2 (fun x y => deepEqual x y = true) xs ys.
Proof.
  simpl. revert ys. induction xs as [|x xs IH]; intros [|y ys]; split; intros H;
    try discriminate; try constructor; try (inversion H; fail).
  - apply andb_true_iff in H as [H _]. exact H.
  - apply andb_true_iff in H as [_ H]. apply IH, H.
  - inversion H; subst. apply andb_true_iff. split; [assumption|]. apply IH. assumption.
Qed.

Lemma deepEqual_obj m1 m2 :
  deepEqual (VObj m1) (VObj m2) = true <->
  List.length m1 = List.length m2 /\
  Forall (fun kv => exists v2, obj_lookup (fst kv) m2 = Some v2 /\
                               deepEqual (snd kv) v2 = true) m1.
Proof.
  simpl. rewrite andb_true_iff, Nat.eqb_eq.
  apply and_iff_compat_l.
  induction m1 as [|[k v] r IH].
  - split; intros; [constructor | reflexivity].
  - split.
    + intros H. destruct (obj_lookup k m2) as [v2|] eqn:E; [|discriminate].
      apply andb_true_iff in H as [H1 H2].
      constructor; [exists v2; simpl; auto | apply IH, H2].
    + intros H. inversion H as [|? ? [v2 [E Hv]] Hr]; subst. simpl in E, Hv.
      rewrite E, Hv. simpl. apply IH, Hr.
Qed.

Lemma obj_lookup_In k v (m : list (string * value)) :
  NoDup (map fst m) -> In (k, v) m -> obj_lookup k m = Some v.
Proof.
  induction m as [|[k' v'] r IH]; simpl; intros Hnd Hin; [contradiction|].
  apply NoDup_cons in Hnd as [Hk Hnd].
  destruct Hin as [Heq|Hin].
  - inversion Heq; subst. rewrite String.eqb_refl. reflexivity.
  - destruct (String.eqb k k') eqn:E.
    + apply String.eqb_eq in E. subst. exfalso. apply Hk.
      apply list_elem_of_In. apply in_map_iff. exists (k', v). auto.
    + apply IH; assumption.
Qed.

Lemma obj_lookup_Some_In k v (m : list (string * value)) :
  obj_lookup k m = Some v -> In (k, v) m.
Proof.
  induction m as [|[k' v'] r IH]; simpl; [discriminate|].
  destruct (String.eqb k k') eqn:E.
  - apply String.eqb_eq in E. intros [= ->]. subst. auto.
  - auto.
Qed.

Lemma obj_lookup_None k (m : list (string * value)) :
  obj_lookup k m = None <-> ~ In k (map fst m).
Proof.
  induction m as [|[k' v'] r IH]; simpl; [tauto|].
  destruct (String.eqb k k') eqn:E.
  - apply String.eqb_eq in E. subst. split; [discriminate | intros H; exfalso; auto].
  - apply String.eqb_neq in E. rewrite IH. split; [intros H [H1|H1]; auto | tauto].
Qed.

Lemma wf_arr xs : wf (VArr xs) = true <-> Forall (fun x => wf x = true) xs.
Proof. simpl. rewrite forallb_forall, List.Forall_forall. reflexivity. Qed.

Lemma wf_obj kvs :
  wf (VObj kvs) = true <->
  NoDup (map fst kvs) /\ Forall (fun kv => wf (snd kv) = true) kvs.
Proof.
  simpl. rewrite andb_true_iff, bool_decide_eq_true, forallb_forall, List.Forall_forall.
  reflexivity.
Qed.

Lemma deepEqual_refl v : wf v = true -> deepEqual v v = true.
Proof.
  induction v as [| b | n | s | xs IH | kvs IH] using value_nested_ind; intros Hwf.
  - reflexivity.
  - simpl. destruct b; reflexivity.
  - simpl. apply Z.eqb_refl.
  - simpl. apply String.eqb_refl.
  - apply deepEqual_arr. apply wf_arr in Hwf.
    induction xs as [|x xs IHxs]; constructor.
    + inversion IH; inversion Hwf; subst; auto.
    + inversion IH; inversion Hwf; subst; auto.
  - apply deepEqual_obj. apply wf_obj in Hwf as [Hnd Hwf].
    split; [reflexivity|].
    rewrite List.Forall_forall in *. intros [k v] Hin.
    exists v. simpl. split.
    + apply obj_lookup_In; assumption.
    + apply (IH _ Hin). apply (Hwf _ Hin).
Qed.

(** ** Strings and pointers *)

Lemma sapp_cons (x : ascii) (a b : string) : String x a +:+ b = String x (a +:+ b).
Proof. reflexivity. Qed.

Lemma sapp_nil_l (a : string) : "" +:+ a = a.
Proof. reflexivity. Qed.

Lemma sapp_nil_r (a : string) : a +:+ "" = a.
Proof. induction a as [|c a IH]; [reflexivity|]. rewrite sapp_cons, IH. reflexivity. Qed.

Lemma sapp_assoc (a b c : string) : (a +:+ b) +:+ c = a +:+ (b +:+ c).
Proof. induction a as [|x a IH]; [reflexivity|]. rewrite !sapp_cons, IH. reflexivity. Qed.

Lemma slength_app (a b : string) :
  String.length (a +:+ b) = String.length a + String.length b.
Proof. induction a as [|x a IH]; [reflexivity|]. rewrite sapp_cons. cbn. rewrite IH. reflexivity. Qed.

Lemma substring_sapp (a b : string) : substring 0 (String.length a) (a +:+ b) = a.
Proof.
  induction a as [|x a IH].
  - rewrite sapp_nil_l. destruct b; reflexivity.
  - rewrite sapp_cons. cbn. rewrite IH. reflexivity.
Qed.

Lemma prefix_sapp (a b : string) : String.prefix a (a +:+ b) = true.
Proof. apply prefix_correct, substring_sapp. Qed.

Lemma sapp_inv_head (a b c : string) : a +:+ b = a +:+ c -> b = c.
Proof. induction a as [|x a IH]; [auto|]. rewrite !sapp_cons. intros [= H]. auto. Qed.

(** Escaping leaves no [/] in a key and is undone by [unescapeKey]. *)

Fixpoint no_slash (s : string) : bool :=
  match s with
  | EmptyString => true
  | String c r => negb (Ascii.eqb c "/") && no_slash r
  end.

Lemma escapeKey_no_slash (k : string) : no_slash (escapeKey k) = true.
Proof.
  induction k as [|c k IH]; [reflexivity|]. cbn.
  destruct (Ascii.eqb c "~") eqn:E1; [cbn; exact IH|].
  destruct (Ascii.eqb c "/") eqn:E2; [cbn; exact IH|].
  cbn. rewrite E2. exact IH.
Qed.

Lemma unescape_escape (k : string) : unescapeKey (escapeKey k) = k.
Proof.
  induction k as [|c k IH]; [reflexivity|]. cbn.
  destruct (Ascii.eqb_spec c "~") as [->|N1]; [cbn; rewrite IH; reflexivity|].
  destruct (Ascii.eqb_spec c "/") as [->|N2]; [cbn; rewrite IH; reflexivity|].
  cbn. destruct (Ascii.eqb_spec c "~"); [contradiction|]. rewrite IH. reflexivity.
Qed.

Lemma tokens_nonempty (s : string) : tokens s <> [].
Proof.
  induction s as [|c s IH]; cbn; [discriminate|].
  destruct (Ascii.eqb c "/"); [discriminate|].
  destruct (tokens s); discriminate.
Qed.

Lemma tokens_no_slash (s : string) : no_slash s = true -> tokens s = [s].
Proof.
  induction s as [|c s IH]; cbn; [reflexivity|].
  intros H. apply andb_true_iff in H as [H1 H2].
  apply negb_true_iff in H1. rewrite H1, (IH H2). reflexivity.
Qed.

Lemma tokens_sapp_slash (a s : string) :
  tokens (a +:+ "/" +:+ s) = tokens a ++ tokens s.
Proof.
  induction a as [|c a IH]; [reflexivity|].
  rewrite sapp_cons. cbn [tokens]. rewrite IH.
  destruct (Ascii.eqb c "/"); [reflexivity|].
  pose proof (tokens_nonempty a). destruct (tokens a); [contradiction | reflexivity].
Qed.

Lemma render_app (ts r : list string) : render (ts ++ r) = render ts +:+ render r.
Proof.
  induction ts as [|t ts IH]; [reflexivity|].
  cbn [render app]. rewrite IH, !sapp_assoc. reflexivity.
Qed.

Lemma render_snoc (ts : list string) (t : string) :
  render (ts ++ [t]) = render ts +:+ "/" +:+ escapeKey t.
Proof. rewrite render_app. cbn [render]. rewrite sapp_nil_r. reflexivity. Qed.

Lemma tokens_render (t : string) (r : list string) :
  tokens (escapeKey t +:+ render r) = map escapeKey (t :: r).
Proof.
  revert t. induction r as [|t' r IH]; intros t.
  - cbn [render]. rewrite sapp_nil_r. apply tokens_no_slash, escapeKey_no_slash.
  - cbn [render]. rewrite tokens_sapp_slash, IH.
    rewrite tokens_no_slash by apply escapeKey_no_slash. reflexivity.
Qed.

Lemma tokens_render_slash (t : string) (r : list string) (rest : string) :
  tokens (escapeKey t +:+ render r +:+ "/" +:+ rest) = map escapeKey (t :: r) ++ tokens rest.
Proof.
  rewrite <- sapp_assoc, tokens_sapp_slash, tokens_render. reflexivity.
Qed.

Lemma map_unescape_escape (ts : list string) : map unescapeKey (map escapeKey ts) = ts.
Proof.
  induction ts as [|t ts IH]; [reflexivity|]. cbn. rewrite unescape_escape, IH. reflexivity.
Qed.

Lemma parse_pointer_render (ts : list string) : parse_pointer (render ts) = Some ts.
Proof.
  destruct ts as [|t r]; [reflexivity|].
  change (render (t :: r)) with (String "/" (escapeKey t +:+ render r)).
  cbn [parse_pointer]. change (Ascii.eqb "/" "/") with true. cbv iota.
  rewrite tokens_render, map_unescape_escape. reflexivity.
Qed.

(** A pointer text that continues another one after a [/] names a proper
    descendant. *)
Lemma render_extends (q q' : list string) (rest : string) :
  render q' = render q +:+ "/" +:+ rest ->
  exists r, q' = q ++ r /\ r <> [].
Proof.
  intros H. pose proof (parse_pointer_render q') as Hp. rewrite H in Hp.
  exists (map unescapeKey (tokens rest)). split.
  - destruct q as [|t r].
    + cbn in Hp. injection Hp as <-. reflexivity.
    + assert (render (t :: r) +:+ "/" +:+ rest
              = String "/" (escapeKey t +:+ render r +:+ "/" +:+ rest)) as Hs.
      { cbn [render]. rewrite !sapp_assoc. reflexivity. }
      rewrite Hs in Hp. cbn [parse_pointer] in Hp.
      change (Ascii.eqb "/" "/") with true in Hp. cbv iota in Hp.
      rewrite tokens_render_slash, map_app, map_unescape_escape in Hp.
      injection Hp as <-. reflexivity.
  - pose proof (tokens_nonempty rest). destruct (tokens rest); [contradiction | discriminate].
Qed.

Lemma render_nil_iff (ts : list string) : String.length (render ts) = 0 <-> ts = [].
Proof.
  destruct ts; cbn; split; try reflexivity; try discriminate.
Qed.

(** Array indices. *)

Lemma escapeKey_digits (d : Decimal.uint) :
  escapeKey (NilEmpty.string_of_uint d) = NilEmpty.string_of_uint d.
Proof. induction d; cbn; rewrite ?IHd; reflexivity. Qed.

Lemma escapeKey_itoa (i : nat) : escapeKey (itoa i) = itoa i.
Proof. apply escapeKey_digits. Qed.

Lemma parse_index_itoa (i : nat) : parse_index (itoa i) = Some i.
Proof.
  unfold parse_index, itoa. rewrite NilEmpty.usu, Unsigned.of_to, String.eqb_refl.
  reflexivity.
Qed.

Lemma appendIndex_appendKey (p : pointer) (i : nat) :
  appendIndex p i = appendKey p (itoa i).
Proof. unfold appendIndex, appendKey. rewrite escapeKey_itoa. reflexivity. Qed.

(** ** Basic facts about the engine *)

Lemma foldl_invariant {A B} (P : A -> Prop) (f : A -> B -> A) (l : list B) (a : A) :
  P a -> (forall a x, In x l -> P a -> P (f a x)) -> P (foldl f a l).
Proof.
  revert a. induction l as [|x l IH]; simpl; intros a Ha Hf; [exact Ha|].
  apply IH; [apply Hf; auto | intros; apply Hf; auto].
Qed.

Lemma deepEqual_comparable a b : deepEqual a b = true -> areComparable a b = true.
Proof. destruct a, b; simpl; intros H; try discriminate; reflexivity. Qed.

Section Properties.

Variable digest : value -> Z.
Variable opLength : Operation -> string -> Z.
Variable patchLength : Patch -> string -> Z.

Local Abbreviation diff := (diff digest opLength patchLength).
Local Abbreviation prepare := (prepare digest).
Local Abbreviation Compare := (Compare digest opLength patchLength).
Local Abbreviation add := (add digest).

(** The frame of a state: everything but the patch and the hash index. *)
Definition same_frame (d d' : Differ) : Prop :=
  opts d' = opts d /\ ptr d' = ptr d /\ targetBytes d' = targetBytes d.

Lemma same_frame_refl d : same_frame d d.
Proof. repeat split. Qed.

Lemma same_frame_trans d1 d2 d3 : same_frame d1 d2 -> same_frame d2 d3 -> same_frame d1 d3.
Proof. unfold same_frame. intros (?&?&?) (?&?&?). repeat split; congruence. Qed.

Lemma prepare_patch fuel d p s t :
  patch (prepare fuel d p s t) = patch d /\ same_frame d (prepare fuel d p s t).
Proof.
  revert d p s t. induction fuel as [|n IH]; intros d p s t; simpl.
  { split; [reflexivity | apply same_frame_refl]. }
  destruct (is_nil s && is_nil t); [split; [reflexivity | apply same_frame_refl]|].
  destruct (negb (areComparable s t)); [split; [reflexivity | apply same_frame_refl]|].
  destruct (deepValueEqual s t (typeSwitchKind s)).
  { split; [reflexivity | repeat split]. }
  destruct s; try (split; [reflexivity | apply same_frame_refl]);
    destruct t; try (split; [reflexivity | apply same_frame_refl]).
  - apply (foldl_invariant (fun d' => patch d' = patch d /\ same_frame d d')).
    + split; [reflexivity | apply same_frame_refl].
    + intros a x _ [Ha1 Ha2].
      destruct (IH a (appendIndex p x) (nth x xs VNull) (nth x xs0 VNull)) as [H1 H2].
      split; [congruence | eapply same_frame_trans; eauto].
  - apply (foldl_invariant (fun d' => patch d' = patch d /\ same_frame d d')).
    + split; [reflexivity | apply same_frame_refl].
    + intros a x _ [Ha1 Ha2]. destruct (obj_lookup x.1 kvs0); [|auto].
      destruct (IH a (appendKey p x.1) x.2 v) as [H1 H2].
      split; [congruence | eapply same_frame_trans; eauto].
Qed.

Lemma diff_deepEqual fuel d p s t :
  deepEqual s t = true -> diff fuel d p s t = d.
Proof.
  intros H. destruct fuel; simpl; [reflexivity|].
  destruct (is_nil s && is_nil t); [reflexivity|].
  destruct (ignored d (ptr_copy p)); [reflexivity|].
  rewrite (deepEqual_comparable _ _ H). simpl.
  unfold deepValueEqual. rewrite H. reflexivity.
Qed.

Local Abbreviation finish := (finish opLength patchLength).

Lemma diff_unfold_arr n d p xs ys :
  ignored d (ptr_copy p) = false ->
  deepEqual (VArr xs) (VArr ys) = false ->
  diff (S n) d p (VArr xs) (VArr ys)
  = finish d (compareArrays_with digest (diff n) d p xs ys) p (VArr xs) (VArr ys).
Proof.
  intros Hi He. cbn [Engine.diff]. cbn [is_nil andb]. rewrite Hi.
  change (areComparable (VArr xs) (VArr ys)) with true. cbn [negb].
  unfold deepValueEqual. rewrite He. reflexivity.
Qed.

Lemma diff_unfold_obj n d p m1 m2 :
  ignored d (ptr_copy p) = false ->
  deepEqual (VObj m1) (VObj m2) = false ->
  diff (S n) d p (VObj m1) (VObj m2)
  = finish d (compareObjects_with digest (diff n) d p m1 m2) p (VObj m1) (VObj m2).
Proof.
  intros Hi He. cbn [Engine.diff]. cbn [is_nil andb]. rewrite Hi.
  change (areComparable (VObj m1) (VObj m2)) with true. cbn [negb].
  unfold deepValueEqual. rewrite He. reflexivity.
Qed.

Lemma add_frame d p v :
  same_frame d (add d p v) /\ hashmap (add d p v) = hashmap d.
Proof.
  unfold Engine.add.
  destruct (negb (factorize (opts d))); [repeat split|].
  destruct (findRemoved d v).
  - destruct (negb _); repeat split.
  - destruct (_ && _); repeat split.
Qed.

Lemma remove_frame d p v :
  same_frame d (remove d p v) /\ hashmap (remove d p v) = hashmap d.
Proof. unfold remove. destruct (invertible (opts d)); repeat split. Qed.

Lemma replace_frame d p s t :
  same_frame d (replace d p s t) /\ hashmap (replace d p s t) = hashmap d.
Proof. unfold replace. destruct (invertible (opts d)); repeat split. Qed.

Lemma rationalizeLastOps_frame d p s t i :
  same_frame d (rationalizeLastOps opLength patchLength d p s t i) /\
  hashmap (rationalizeLastOps opLength patchLength d p s t i) = hashmap d.
Proof. unfold rationalizeLastOps. destruct (Z.ltb _ _); repeat split. Qed.

Lemma ignored_frame d d' s : same_frame d d' -> ignored d' s = ignored d s.
Proof. intros (H & _). unfold ignored. rewrite H. reflexivity. Qed.

(** C10. Comparing a document with itself yields an empty patch, for
    every document and every configuration (the four flags and the
    ignore set). *)
Theorem Compare_same_is_empty (o : options) (A : value) :
  wf A = true -> patch (Compare (newDiffer o) A A) = [].
Proof.
  intros Hwf. unfold Compare.
  rewrite diff_deepEqual by (apply deepEqual_refl; exact Hwf).
  destruct (factorize (opts (newDiffer o))); [|reflexivity].
  apply prepare_patch.
Qed.

(** Comparing a document with itself adds nothing to the patch of any
    differ, whatever it already holds. *)
Lemma Compare_same_patch (d : Differ) (A : value) :
  wf A = true -> patch (Compare d A A) = patch d.
Proof.
  intros Hwf. unfold Compare.
  rewrite diff_deepEqual by (apply deepEqual_refl; exact Hwf).
  destruct (factorize (opts d)); [|reflexivity].
  apply prepare_patch.
Qed.

End Properties.

Definition doc_sample : value :=
  VObj [("a", VArr [VNum 1; VStr "x"; VNull]); ("b", VObj [("c", VBool true)])].

Lemma Compare_same_is_empty_witness :
  wf doc_sample = true /\
  patch (Compare_model (newDiffer (mkOptions true true true true {["/a"]})) doc_sample doc_sample) = [].
Proof.
  split; [reflexivity|].
  apply (Compare_same_is_empty digest_model opLength_model patchLength_model). reflexivity.
Defined.

(** ** Runs of the engine on concrete documents *)

Section Runs.

Variable digest : value -> Z.
Variable opLength : Operation -> string -> Z.
Variable patchLength : Patch -> string -> Z.

Local Abbreviation diff := (diff digest opLength patchLength).
Local Abbreviation prepare := (prepare digest).
Local Abbreviation Compare := (Compare digest opLength patchLength).
Local Abbreviation add := (add digest).

Definition root : pointer := mkPointer "" 0.

Definition opts_factorize : options := mkOptions true false false false ∅.

Definition op_remove (path : string) (v : value) : Operation :=
  mkOp OperationRemove "" path v VNull.
Definition op_add (path : string) (v : value) : Operation :=
  mkOp OperationAdd "" path VNull v.
Definition op_copy (from path : string) (v : value) : Operation :=
  mkOp OperationCopy from path VNull v.
Definition op_move (from path : string) (v : value) : Operation :=
  mkOp OperationMove from path v v.
Definition op_test (path : string) (v : value) : Operation :=
  mkOp OperationTest "" path VNull v.

(** C2. With factorize on, [add] emits nothing when the first remove with
    an equal old value has a path that is a prefix of the add's path: the
    value added at [/ab] is dropped, in [add] itself and in the patch of
    [Compare({"a":1}, {"ab":1})]. *)
Theorem add_drops_value_after_prefixed_remove (h : gmap Z jsonNode) :
  add (mkDiffer [op_remove "/a" (VNum 1)] h "" opts_factorize root) "/ab" (VNum 1)
  = mkDiffer [op_remove "/a" (VNum 1)] h "" opts_factorize root
  /\ patch (Compare (newDiffer opts_factorize)
              (VObj [("a", VNum 1)]) (VObj [("ab", VNum 1)]))
     = [op_remove "/a" (VNum 1)].
Proof. split; vm_compute; reflexivity. Qed.

(** The outcomes of [add] with factorize on: a move when the first
    matching remove is not a prefix, a copy or an add when no remove
    matches, and nothing when the first matching remove is a prefix. *)
Lemma add_outcomes (d : Differ) (p : string) (v : value) :
  factorize (opts d) = true ->
  match findRemoved d v with
  | Some idx =>
      let op := nth idx (patch d) zeroOp in
      if String.prefix (Path op) p
      then add d p v = d
      else patch (add d p v) = delete idx (patch d) ++ [op_move (Path op) p v]
  | None =>
      patch (add d p v)
      = patch d ++
        [if negb (Nat.eqb (String.length (findUnchanged digest d v)) 0)
            && negb (invertible (opts d))
         then op_copy (findUnchanged digest d v) p v
         else op_add p v]
  end.
Proof.
  intros Hf. unfold Engine.add. rewrite Hf. cbn [negb].
  destruct (findRemoved d v) as [idx|].
  - cbv zeta. destruct (String.prefix _ p); reflexivity.
  - destruct (_ && _); reflexivity.
Qed.

(** The two orders in which [range] may visit the source object
    [{"a":1,"b":1}]. *)
Definition src_ab : value := VObj [("a", VNum 1); ("b", VNum 1)].
Definition src_ba : value := VObj [("b", VNum 1); ("a", VNum 1)].
Definition tgt_abc : value := VObj [("a", VNum 1); ("b", VNum 1); ("c", VNum 1)].

Lemma compareObjects_tgt_abc (h : gmap Z jsonNode) (src : list (string * value)) :
  VObj src = src_ab \/ VObj src = src_ba ->
  compareObjects_with digest (diff 1) (mkDiffer [] h "" opts_factorize root) root
    src [("a", VNum 1); ("b", VNum 1); ("c", VNum 1)]
  = add (mkDiffer [] h "" opts_factorize root) "/c" (VNum 1).
Proof. intros [[= ->] | [= ->]]; vm_compute; reflexivity. Qed.

Lemma diff_tgt_abc (h : gmap Z jsonNode) (src : value) :
  src = src_ab \/ src = src_ba ->
  patch (diff 2 (mkDiffer [] h "" opts_factorize root) root src tgt_abc)
  = patch (add (mkDiffer [] h "" opts_factorize root) "/c" (VNum 1)).
Proof.
  intros Hsrc.
  assert (exists kvs, src = VObj kvs) as [kvs ->] by (destruct Hsrc as [-> | ->]; eexists; reflexivity).
  unfold tgt_abc. rewrite diff_unfold_obj.
  - rewrite compareObjects_tgt_abc by exact Hsrc.
    unfold Engine.finish.
    destruct (add_frame digest (mkDiffer [] h "" opts_factorize root) "/c" (VNum 1))
      as [(Ho & _) _].
    rewrite Ho. reflexivity.
  - reflexivity.
  - destruct Hsrc as [[= ->] | [= ->]]; reflexivity.
Qed.

Lemma add_copies_from_index (h : gmap Z jsonNode) (from path : string) (v w : value) :
  h !! digest v = Some (mkNode from w) ->
  String.length from <> 0 ->
  patch (add (mkDiffer [] h "" opts_factorize root) path v) = [op_copy from path v].
Proof.
  intros Hh Hlen. unfold Engine.add, findRemoved, findUnchanged. simpl.
  rewrite Hh. simpl.
  destruct (String.length from) as [|n] eqn:E; [contradiction|]. reflexivity.
Qed.

(** C3. With factorize on, the patch depends on the order in which Go
    visits the keys of the source object: for the one object
    [{"a":1,"b":1}] and the target [{"a":1,"b":1,"c":1}], the copy is
    taken from [/b] when [range] visits [a] first and from [/a] when it
    visits [b] first. *)
Theorem Compare_copy_source_depends_on_map_order :
  src_ab = VObj [("a", VNum 1); ("b", VNum 1)] /\
  src_ba = VObj [("b", VNum 1); ("a", VNum 1)] /\
  patch (Compare (newDiffer opts_factorize) src_ab tgt_abc)
    = [op_copy "/b" "/c" (VNum 1)] /\
  patch (Compare (newDiffer opts_factorize) src_ba tgt_abc)
    = [op_copy "/a" "/c" (VNum 1)].
Proof.
  split; [reflexivity|]. split; [reflexivity|]. split.
  - unfold Engine.Compare.
    change (factorize (opts (newDiffer opts_factorize))) with true. cbv iota.
    replace (Engine.prepare digest (S (height src_ab)) (newDiffer opts_factorize)
               (ptr (newDiffer opts_factorize)) src_ab tgt_abc)
      with (mkDiffer [] (<[digest (VNum 1) := mkNode "/b" (VNum 1)]>
                           (<[digest (VNum 1) := mkNode "/a" (VNum 1)]> ∅))
                     "" opts_factorize root)
      by (vm_compute; reflexivity).
    change (S (height src_ab)) with 2. cbn [ptr].
    rewrite diff_tgt_abc by (left; reflexivity).
    apply add_copies_from_index with (w := VNum 1); [apply lookup_insert_eq | discriminate].
  - unfold Engine.Compare.
    change (factorize (opts (newDiffer opts_factorize))) with true. cbv iota.
    replace (Engine.prepare digest (S (height src_ba)) (newDiffer opts_factorize)
               (ptr (newDiffer opts_factorize)) src_ba tgt_abc)
      with (mkDiffer [] (<[digest (VNum 1) := mkNode "/a" (VNum 1)]>
                           (<[digest (VNum 1) := mkNode "/b" (VNum 1)]> ∅))
                     "" opts_factorize root)
      by (vm_compute; reflexivity).
    change (S (height src_ba)) with 2. cbn [ptr].
    rewrite diff_tgt_abc by (right; reflexivity).
    apply add_copies_from_index with (w := VNum 1); [apply lookup_insert_eq | discriminate].
Qed.

Definition opts_ignore (l : list string) : options :=
  mkOptions false false false false (list_to_set l).

(** C6. With [/0] and [/1] ignored, [Compare([], [1,2])] still emits the
    add of the element appended at index 1: after the ignored index 0 the
    pointer is not rewound, and the next path tested is [/0/1]. *)
Theorem Compare_emits_add_for_ignored_append :
  patch (Compare (newDiffer (opts_ignore ["/0"; "/1"])) (VArr []) (VArr [VNum 1; VNum 2]))
  = [op_add "/-" (VNum 2)].
Proof. vm_compute. reflexivity. Qed.

(** The scenario of the specification: the changed member is ignored. *)
Lemma Compare_ignore_scenario :
  patch (Compare (newDiffer (opts_ignore ["/a"]))
           (VObj [("a", VNum 1); ("b", VNum 2)]) (VObj [("a", VNum 9); ("b", VNum 2)]))
  = [].
Proof. vm_compute. reflexivity. Qed.

(** An ignored appended index alone is honoured. *)
Lemma Compare_ignore_single_append :
  patch (Compare (newDiffer (opts_ignore ["/1"])) (VArr [VNum 1]) (VArr [VNum 1; VNum 2]))
  = [].
Proof. vm_compute. reflexivity. Qed.

End Runs.

(** ** Equivalence mode: arrays compared as multisets of digests *)

Section Equivalence.

Variable digest : value -> Z.
Variable opLength : Operation -> string -> Z.
Variable patchLength : Patch -> string -> Z.

Local Abbreviation diff := (diff digest opLength patchLength).
Local Abbreviation Compare := (Compare digest opLength patchLength).
Local Abbreviation add := (add digest).
Local Abbreviation unorderedDeepEqualSlice := (unorderedDeepEqualSlice digest).

(** The number of values of [l] whose digest is [k]. *)
Definition occurrences (k : Z) (l : list value) : Z :=
  Z.of_nat (count_occ Z.eq_dec (map digest l) k).

(** A count as the map of [unorderedDeepEqualSlice] holds it: no entry
    for zero. *)
Definition entry (c : Z) : option Z := if Z.eqb c 0 then None else Some c.

Lemma occurrences_nonneg k l : (0 <= occurrences k l)%Z.
Proof. unfold occurrences. lia. Qed.

Lemma occurrences_cons k v l :
  occurrences k (v :: l) = ((if Z.eq_dec (digest v) k then 1 else 0) + occurrences k l)%Z.
Proof.
  unfold occurrences. simpl. destruct (Z.eq_dec (digest v) k); lia.
Qed.

Lemma count_up_entries (l : list value) (m : gmap Z Z) (f : Z -> Z) :
  (forall k, (0 <= f k)%Z) ->
  (forall k, m !! k = entry (f k)) ->
  forall k, foldl (count_up digest) m l !! k = entry (f k + occurrences k l).
Proof.
  revert m f. induction l as [|v l IH]; intros m f Hf Hm k.
  - simpl. unfold occurrences. simpl. rewrite Z.add_0_r. apply Hm.
  - simpl.
    rewrite (IH _ (fun k => (f k + (if Z.eq_dec (digest v) k then 1 else 0))%Z)).
    + rewrite occurrences_cons. f_equal. lia.
    + intros k'. specialize (Hf k'). destruct (Z.eq_dec (digest v) k'); lia.
    + intros k'. unfold count_up.
      destruct (Z.eq_dec (digest v) k') as [<-|Hne].
      * rewrite lookup_insert_eq, Hm. unfold entry.
        specialize (Hf (digest v)).
        destruct (Z.eqb_spec (f (digest v)) 0) as [E|E]; simpl.
        -- rewrite E. reflexivity.
        -- destruct (Z.eqb_spec (f (digest v) + 1) 0); [lia | reflexivity].
      * rewrite lookup_insert_ne by exact Hne. rewrite Hm, Z.add_0_r. reflexivity.
Qed.

Lemma count_down_entries (l : list value) (m : gmap Z Z) :
  (forall k, m !! k = entry (occurrences k l)) ->
  count_down digest m l = Some ∅.
Proof.
  revert m. induction l as [|v l IH]; intros m Hm.
  - simpl. f_equal. apply map_eq. intros k. rewrite Hm, lookup_empty. reflexivity.
  - simpl. pose proof (Hm (digest v)) as Hv.
    rewrite occurrences_cons in Hv.
    destruct (Z.eq_dec (digest v) (digest v)) as [_|]; [|contradiction].
    pose proof (occurrences_nonneg (digest v) l) as Hnn.
    unfold entry in Hv.
    destruct (Z.eqb_spec (1 + occurrences (digest v) l) 0) as [|_]; [lia|].
    rewrite Hv. apply IH. intros k.
    rewrite lookup_insert_eq. simpl.
    replace (1 + occurrences (digest v) l - 1)%Z with (occurrences (digest v) l) by lia.
    destruct (Z.eq_dec (digest v) k) as [<-|Hne].
    + unfold entry. destruct (Z.eqb_spec (occurrences (digest v) l) 0) as [E|E].
      * apply lookup_delete_eq.
      * apply lookup_insert_eq.
    + assert (m !! k = entry (occurrences k l)) as Hk.
      { rewrite Hm, occurrences_cons.
        destruct (Z.eq_dec (digest v) k); [contradiction | reflexivity]. }
      destruct (Z.eqb (occurrences (digest v) l) 0).
      * rewrite lookup_delete_ne by exact Hne.
        rewrite lookup_insert_ne by exact Hne. exact Hk.
      * rewrite lookup_insert_ne by exact Hne. exact Hk.
Qed.

(** Arrays whose digests are a permutation of each other pass the
    multiset test. *)
Lemma unorderedDeepEqualSlice_perm (d : Differ) (src tgt : list value) :
  Permutation (map digest src) (map digest tgt) ->
  unorderedDeepEqualSlice d src tgt = true.
Proof.
  intros Hp. unfold Engine.unorderedDeepEqualSlice.
  assert (List.length src = List.length tgt) as Hlen.
  { apply Permutation_length in Hp. rewrite !length_map in Hp. exact Hp. }
  rewrite Hlen, Nat.eqb_refl. simpl.
  rewrite count_down_entries; [reflexivity|].
  intros k.
  rewrite (count_up_entries src ∅ (fun _ => 0%Z)).
  - unfold occurrences.
    rewrite (proj1 (Permutation_count_occ Z.eq_dec _ _) Hp k). reflexivity.
  - intros; lia.
  - intros k'. rewrite lookup_empty. reflexivity.
Qed.

Lemma unorderedDeepEqualSlice_length (d : Differ) (src tgt : list value) :
  unorderedDeepEqualSlice d src tgt = true -> List.length src = List.length tgt.
Proof.
  unfold Engine.unorderedDeepEqualSlice.
  destruct (Nat.eqb_spec (List.length src) (List.length tgt)); [auto | discriminate].
Qed.

Lemma compareArrays_equivalent rec (d : Differ) (p : pointer) (src tgt : list value) :
  equivalent (opts d) = true ->
  unorderedDeepEqualSlice d src tgt = true ->
  compareArrays_with digest rec d p src tgt = d.
Proof.
  intros He Hu. unfold compareArrays_with.
  pose proof (unorderedDeepEqualSlice_length _ _ _ Hu) as Hlen.
  unfold min. rewrite Hlen, Nat.ltb_irrefl. cbv beta iota zeta.
  rewrite Nat.ltb_irrefl. cbv beta iota zeta.
  rewrite He, Hu. cbn [andb]. rewrite Nat.sub_diag. reflexivity.
Qed.

(** In equivalence mode, arrays that pass the multiset test give no
    operation. *)
Lemma diff_equivalent_arrays fuel (d : Differ) (p : pointer) (src tgt : list value) :
  equivalent (opts d) = true ->
  unorderedDeepEqualSlice d src tgt = true ->
  diff fuel d p (VArr src) (VArr tgt) = d.
Proof.
  intros He Hu. destruct fuel as [|n]; [reflexivity|].
  destruct (ignored d (ptr_copy p)) eqn:Hi.
  { cbn [Engine.diff is_nil andb]. rewrite Hi. reflexivity. }
  destruct (deepEqual (VArr src) (VArr tgt)) eqn:Heq.
  { apply diff_deepEqual. exact Heq. }
  rewrite diff_unfold_arr by assumption.
  rewrite compareArrays_equivalent by assumption.
  unfold Engine.finish. rewrite Nat.ltb_irrefl, andb_false_r. reflexivity.
Qed.

Definition arr_123 : list value := [VNum 1; VNum 2; VNum 3].
Definition arr_321 : list value := [VNum 3; VNum 2; VNum 1].
Definition arr_1234 : list value := [VNum 1; VNum 2; VNum 3; VNum 4].

Lemma Compare_equivalent_reordered (o : options) :
  equivalent o = true ->
  patch (Compare (newDiffer o) (VArr arr_123) (VArr arr_321)) = [].
Proof.
  intros He. unfold Engine.Compare.
  set (d := if factorize (opts (newDiffer o)) then _ else _).
  assert (patch d = [] /\ same_frame (newDiffer o) d) as [Hp (Ho & _)].
  { subst d. destruct (factorize _); [apply prepare_patch | split; [reflexivity | apply same_frame_refl]]. }
  rewrite diff_equivalent_arrays; [exact Hp | rewrite Ho; exact He |].
  apply unorderedDeepEqualSlice_perm. simpl.
  eapply perm_trans; [apply perm_swap|]. eapply perm_trans; [apply perm_skip, perm_swap|].
  eapply perm_trans; [apply perm_swap|]. reflexivity.
Qed.

Lemma add_plain (d : Differ) (p : string) (v : value) :
  findRemoved d v = None ->
  factorize (opts d) = true -> hashmap d !! digest v = None ->
  add d p v = with_patch d (patch d ++ [op_add p v]).
Proof.
  intros Hr Hf Hh. unfold Engine.add, findUnchanged.
  rewrite Hf, Hr, Hh. reflexivity.
Qed.

Lemma compareArrays_append_4 (h : gmap Z jsonNode) (f r i : bool) :
  let d := mkDiffer [] h "" (mkOptions f r i true ∅) root in
  compareArrays_with digest (diff 1) d root arr_123 arr_1234 = add d "/-" (VNum 4).
Proof. destruct f, r, i; vm_compute; reflexivity. Qed.

Definition replace_1234 : Operation :=
  mkOp OperationReplace "" "" VNull (VArr arr_1234).

Lemma Compare_equivalent_appended (o : options) :
  equivalent o = true ->
  ignores o = ∅ ->
  (factorize o = true ->
   digest (VNum 4) <> digest (VNum 1) /\ digest (VNum 4) <> digest (VNum 2) /\
   digest (VNum 4) <> digest (VNum 3)) ->
  (rationalize o = true ->
   Z.ltb (opLength replace_1234 "") (patchLength [op_add "/-" (VNum 4)] "") = false) ->
  patch (Compare (newDiffer o) (VArr arr_123) (VArr arr_1234)) = [op_add "/-" (VNum 4)].
Proof.
  destruct o as [f r i e ig]. simpl. intros -> -> Hf Hr.
  unfold Engine.Compare. cbn [opts newDiffer factorize].
  assert (exists h, (f = true -> h !! digest (VNum 4) = None) /\
            (if f then Engine.prepare digest (S (height (VArr arr_123)))
                         (newDiffer (mkOptions f r i true ∅))
                         (ptr (newDiffer (mkOptions f r i true ∅)))
                         (VArr arr_123) (VArr arr_1234)
             else newDiffer (mkOptions f r i true ∅))
            = mkDiffer [] h "" (mkOptions f r i true ∅) root) as (h & Hh & ->).
  { destruct f.
    - exists (<[digest (VNum 3) := mkNode "/2" (VNum 3)]>
               (<[digest (VNum 2) := mkNode "/1" (VNum 2)]>
                  (<[digest (VNum 1) := mkNode "/0" (VNum 1)]> ∅))).
      split; [|vm_compute; reflexivity].
      intros _. destruct (Hf eq_refl) as (H1 & H2 & H3).
      rewrite !lookup_insert_ne by congruence. apply lookup_empty.
    - exists ∅. split; [discriminate | reflexivity]. }
  change (S (height (VArr arr_123))) with 2. cbn [ptr].
  rewrite diff_unfold_arr by reflexivity.
  rewrite compareArrays_append_4.
  set (d := mkDiffer [] h "" (mkOptions f r i true ∅) root).
  assert (add d "/-" (VNum 4) = with_patch d [op_add "/-" (VNum 4)]) as ->.
  { destruct f.
    - rewrite add_plain; auto.
    - reflexivity. }
  unfold Engine.finish. cbn [opts with_patch d rationalize patch List.length].
  destruct r; [|reflexivity].
  cbn [andb Nat.ltb Nat.leb]. unfold rationalizeLastOps.
  cbn [with_patch patch targetBytes drop ptr_copy root buf].
  change (targetBytes d) with "".
  unfold replace_1234 in Hr. rewrite (Hr eq_refl). reflexivity.
Qed.

(** C7. With the equivalent flag set, [Compare([1,2,3], [3,2,1])] gives an
    empty patch, and [Compare([1,2,3], [1,2,3,4])] gives exactly one add
    of 4 at the append pointer [/-] (no path being ignored; with
    factorize, the digest of 4 differing from those of 1, 2 and 3; with
    rationalize, a root replace not being cheaper than the add). *)
Theorem Compare_equivalent_scenarios (o : options) :
  equivalent o = true ->
  ignores o = ∅ ->
  (factorize o = true ->
   digest (VNum 4) <> digest (VNum 1) /\ digest (VNum 4) <> digest (VNum 2) /\
   digest (VNum 4) <> digest (VNum 3)) ->
  (rationalize o = true ->
   Z.ltb (opLength replace_1234 "") (patchLength [op_add "/-" (VNum 4)] "") = false) ->
  patch (Compare (newDiffer o) (VArr arr_123) (VArr arr_321)) = [] /\
  patch (Compare (newDiffer o) (VArr arr_123) (VArr arr_1234)) = [op_add "/-" (VNum 4)].
Proof.
  intros He Hi Hf Hr. split.
  - apply Compare_equivalent_reordered. exact He.
  - apply Compare_equivalent_appended; assumption.
Qed.

End Equivalence.

Lemma Compare_equivalent_scenarios_witness :
  patch (Compare_model (newDiffer (mkOptions true true true true ∅))
           (VArr arr_123) (VArr arr_321)) = [] /\
  patch (Compare_model (newDiffer (mkOptions true true true true ∅))
           (VArr arr_123) (VArr arr_1234)) = [op_add "/-" (VNum 4)].
Proof.
  apply (Compare_equivalent_scenarios digest_model opLength_model patchLength_model).
  - reflexivity.
  - reflexivity.
  - intros _. vm_compute. repeat split; discriminate.
  - intros _. vm_compute. reflexivity.
Defined.

(** ** A closure principle for the main pass

    A relation between the state before and after that is reflexive and
    transitive, and holds across every emission step, holds across
    [diff]. *)

Section Closure.

Variable digest : value -> Z.
Variable opLength : Operation -> string -> Z.
Variable patchLength : Patch -> string -> Z.

Local Abbreviation diff := (diff digest opLength patchLength).
Local Abbreviation add := (add digest).
Local Abbreviation finish := (finish opLength patchLength).

Variable R : Differ -> Differ -> Prop.
Hypothesis R_refl : forall d, R d d.
Hypothesis R_trans : forall d1 d2 d3, R d1 d2 -> R d2 d3 -> R d1 d3.
Hypothesis R_add : forall d p v, R d (add d p v).
Hypothesis R_remove : forall d p v, R d (remove d p v).
Hypothesis R_replace : forall d p s t, R d (replace d p s t).
Hypothesis R_root_add : forall d p s t,
  R d (with_patch d (Patch_append (patch d) OperationAdd emptyPtr p s t)).
Hypothesis R_finish : forall d0 d p s t, R d0 d -> R d0 (finish d0 d p s t).

Lemma compareObjects_with_closed rec d p src tgt :
  (forall d p s t, R d (rec d p s t)) ->
  R d (compareObjects_with digest rec d p src tgt).
Proof.
  intros Hrec. unfold compareObjects_with.
  apply (foldl_invariant (fun st : Differ * pointer => R d (fst st))).
  - apply R_refl.
  - intros [d1 p1] k _ H1. simpl in *.
    eapply R_trans; [exact H1|].
    repeat match goal with
           | |- context [if ?b then _ else _] => destruct b
           end; auto.
Qed.

Lemma compareArrays_with_closed rec d p src tgt :
  (forall d p s t, R d (rec d p s t)) ->
  R d (compareArrays_with digest rec d p src tgt).
Proof.
  intros Hrec. unfold compareArrays_with.
  set (st1 := if Nat.ltb _ _ then _ else _).
  assert (R d (fst st1)) as H1.
  { subst st1. destruct (Nat.ltb _ _); [|apply R_refl].
    apply (foldl_invariant (fun st : Differ * pointer => R d (fst st))).
    - apply R_refl.
    - intros [d1 p1] k _ H1. simpl in *.
      eapply R_trans; [exact H1|].
      destruct (ignored _ _); auto. }
  destruct st1 as [d1 p1]. simpl in H1.
  set (st2 := if _ && _ then _ else _).
  assert (R d (fst st2)) as H2.
  { subst st2. destruct (_ && _); [exact H1|].
    apply (foldl_invariant (fun st : Differ * pointer => R d (fst st))).
    - exact H1.
    - intros [d2 p2] k _ H2. simpl in *.
      eapply R_trans; [exact H2|]. apply Hrec. }
  destruct st2 as [d2 p2]. simpl in H2.
  apply (foldl_invariant (fun st : Differ * pointer => R d (fst st))).
  - exact H2.
  - intros [d3 p3] k _ H3. simpl in *.
    destruct (ignored _ _); simpl; [exact H3|].
    eapply R_trans; [exact H3|]. apply R_add.
Qed.

Lemma diff_closed fuel d p s t : R d (diff fuel d p s t).
Proof.
  revert d p s t. induction fuel as [|n IH]; intros d p s t; [apply R_refl|].
  cbn [Engine.diff].
  destruct (is_nil s && is_nil t); [apply R_refl|].
  destruct (ignored d (ptr_copy p)); [apply R_refl|].
  destruct (negb (areComparable s t)).
  { destruct (isRoot p); [apply R_root_add | apply R_replace]. }
  destruct (deepValueEqual s t (typeSwitchKind s)) eqn:He; [apply R_refl|].
  cbn [negb].
  destruct s; try apply R_replace; destruct t; try apply R_replace.
  - apply (R_finish d _ p (VArr xs) (VArr xs0)).
    apply compareArrays_with_closed. exact IH.
  - apply (R_finish d _ p (VObj kvs) (VObj kvs0)).
    apply compareObjects_with_closed. exact IH.
Qed.

End Closure.

(** ** Frame properties of a comparison *)

Section Frame.

Variable digest : value -> Z.
Variable opLength : Operation -> string -> Z.
Variable patchLength : Patch -> string -> Z.

Local Abbreviation diff := (diff digest opLength patchLength).
Local Abbreviation prepare := (prepare digest).
Local Abbreviation Compare := (Compare digest opLength patchLength).
Local Abbreviation add := (add digest).
Local Abbreviation finish := (finish opLength patchLength).

(** The main pass leaves the options, the pointer and the hash index
    alone. *)
Definition frame_kept (d d' : Differ) : Prop :=
  same_frame d d' /\ hashmap d' = hashmap d.

Lemma diff_frame fuel d p s t : frame_kept d (diff fuel d p s t).
Proof.
  apply diff_closed.
  - intros; split; [apply same_frame_refl | reflexivity].
  - intros d1 d2 d3 [H1 H2] [H3 H4]. split; [eapply same_frame_trans; eauto | congruence].
  - intros; destruct (add_frame digest d0 p0 v); split; assumption.
  - intros; destruct (remove_frame d0 p0 v); split; assumption.
  - intros; destruct (replace_frame d0 p0 s0 t0); split; assumption.
  - intros; split; [repeat split | reflexivity].
  - intros d0 d1 p0 s0 t0 [H1 H2]. unfold Engine.finish.
    destruct (_ && _); [|split; assumption].
    destruct (rationalizeLastOps_frame opLength patchLength d1 p0 s0 t0 (List.length (patch d0))).
    split; [eapply same_frame_trans; eauto | congruence].
Qed.

(** Without factorize the main pass only appends to the patch. *)
Definition appends (d d' : Differ) : Prop :=
  same_frame d d' /\
  (factorize (opts d) = false -> exists ops, patch d' = patch d ++ ops).

Lemma appends_trans d1 d2 d3 : appends d1 d2 -> appends d2 d3 -> appends d1 d3.
Proof.
  intros [F1 H1] [F2 H2]. split; [eapply same_frame_trans; eauto|].
  intros Hf. destruct (H1 Hf) as [o1 E1].
  destruct H2 as [o2 E2]; [destruct F1 as (-> & _); exact Hf|].
  exists (o1 ++ o2). rewrite E2, E1, app_assoc. reflexivity.
Qed.

Lemma diff_appends fuel d p s t : appends d (diff fuel d p s t).
Proof.
  apply diff_closed.
  - intros d0; split; [apply same_frame_refl | intros _; exists []; rewrite app_nil_r; reflexivity].
  - apply appends_trans.
  - intros d0 p0 v. split; [apply add_frame|].
    intros Hf. unfold Engine.add. rewrite Hf. simpl. eexists; reflexivity.
  - intros d0 p0 v. split; [apply remove_frame|]. intros _.
    unfold remove, Patch_append. destruct (invertible (opts d0)); simpl.
    + rewrite <- app_assoc. eexists; reflexivity.
    + eexists; reflexivity.
  - intros d0 p0 s0 t0. split; [apply replace_frame|]. intros _.
    unfold replace, Patch_append. destruct (invertible (opts d0)); simpl.
    + rewrite <- app_assoc. eexists; reflexivity.
    + eexists; reflexivity.
  - intros d0 p0 s0 t0. split; [repeat split|]. intros _. eexists; reflexivity.
  - intros d0 d1 p0 s0 t0 [F H]. unfold Engine.finish.
    destruct (_ && _); [|split; assumption].
    split.
    + eapply same_frame_trans; [exact F | apply rationalizeLastOps_frame].
    + intros Hf. destruct (H Hf) as [ops E].
      unfold rationalizeLastOps. destruct (Z.ltb _ _); [|exists ops; exact E].
      simpl. rewrite E, take_app_length. eexists; reflexivity.
Qed.

(** The preparatory pass only inserts into the hash index. *)
Lemma prepare_hashmap fuel d p s t k :
  is_Some (hashmap d !! k) -> is_Some (hashmap (prepare fuel d p s t) !! k).
Proof.
  revert d p s t. induction fuel as [|n IH]; intros d p s t Hk; simpl; [exact Hk|].
  destruct (is_nil s && is_nil t); [exact Hk|].
  destruct (negb (areComparable s t)); [exact Hk|].
  destruct (deepValueEqual s t (typeSwitchKind s)).
  { simpl. destruct (decide (digest t = k)) as [->|Hne].
    - rewrite lookup_insert_eq. eauto.
    - rewrite lookup_insert_ne by exact Hne. exact Hk. }
  destruct s; try exact Hk; destruct t; try exact Hk.
  - apply (foldl_invariant (fun d' => is_Some (hashmap d' !! k))); [exact Hk|].
    intros a x _ Ha. apply IH, Ha.
  - apply (foldl_invariant (fun d' => is_Some (hashmap d' !! k))); [exact Hk|].
    intros a x _ Ha. destruct (obj_lookup x.1 kvs0); [apply IH, Ha | exact Ha].
Qed.

(** C9. A second [Compare] without [Reset]: with factorize off it leaves
    the operations already in the patch unchanged at the front and
    appends its own, and leaves the hash index as it was; with any flags
    it keeps every key of the hash index; [Reset] empties the patch, the
    path builder and the hash index. *)
Theorem Compare_keeps_earlier_state (d : Differ) (src tgt : value) :
  (factorize (opts d) = false ->
   (exists ops, patch (Compare d src tgt) = patch d ++ ops) /\
   hashmap (Compare d src tgt) = hashmap d) /\
  (forall k, is_Some (hashmap d !! k) -> is_Some (hashmap (Compare d src tgt) !! k)) /\
  patch (Reset d) = [] /\ hashmap (Reset d) = ∅ /\ ptr (Reset d) = mkPointer "" 0.
Proof.
  split; [|split; [|repeat split]].
  - intros Hf. unfold Engine.Compare. rewrite Hf. split.
    + apply diff_appends. exact Hf.
    + apply diff_frame.
  - intros k Hk. unfold Engine.Compare.
    destruct (diff_frame (S (height src))
                (if factorize (opts d) then prepare (S (height src)) d (ptr d) src tgt else d)
                (ptr (if factorize (opts d) then prepare (S (height src)) d (ptr d) src tgt else d))
                src tgt) as [_ ->].
    destruct (factorize (opts d)); [apply prepare_hashmap, Hk | exact Hk].
Qed.

End Frame.

(** With factorize on, a later comparison can consume a remove emitted by
    an earlier one and turn it into a move. *)
Lemma Compare_twice_factorize :
  let d1 := Compare_model (newDiffer opts_factorize) (VObj [("a", VNum 1)]) (VObj []) in
  let d2 := Compare_model d1 (VObj []) (VObj [("b", VNum 1)]) in
  patch d1 = [op_remove "/a" (VNum 1)] /\ patch d2 = [op_move "/a" "/b" (VNum 1)].
Proof. vm_compute. split; reflexivity. Qed.

Lemma Compare_keeps_earlier_ops_counterexample :
  ~ (forall (d : Differ) (src tgt : value),
       exists ops, patch (Compare_model d src tgt) = patch d ++ ops).
Proof.
  intros H.
  destruct (H (Compare_model (newDiffer opts_factorize) (VObj [("a", VNum 1)]) (VObj []))
              (VObj []) (VObj [("b", VNum 1)])) as [ops Hops].
  destruct Compare_twice_factorize as [H1 H2].
  cbv zeta in H1, H2. rewrite H1, H2 in Hops. discriminate.
Qed.

Lemma Compare_keeps_earlier_state_witness :
  let d1 := Compare_model (newDiffer (mkOptions false true true false ∅))
              (VObj [("a", VNum 1)]) (VObj []) in
  factorize (opts d1) = false /\
  exists ops, patch (Compare_model d1 (VObj []) (VObj [("b", VNum 1)])) = patch d1 ++ ops.
Proof.
  split; [reflexivity|].
  apply (Compare_keeps_earlier_state digest_model opLength_model patchLength_model).
  reflexivity.
Defined.

(** An entry left in the hash index by an earlier comparison serves as the
    source of a copy in a later one, whose own documents have no [/a]. *)
Lemma Compare_stale_copy_source :
  let d1 := Compare_model (newDiffer opts_factorize)
              (VObj [("a", VNum 1); ("c", VNum 2)]) (VObj [("a", VNum 1); ("c", VNum 3)]) in
  let d2 := Compare_model d1 (VObj []) (VObj [("z", VNum 1)]) in
  drop (List.length (patch d1)) (patch d2) = [op_copy "/a" "/z" (VNum 1)].
Proof. vm_compute. reflexivity. Qed.

(** ** Rationalization *)

Section Rationalization.

Variable digest : value -> Z.
Variable opLength : Operation -> string -> Z.
Variable patchLength : Patch -> string -> Z.

Local Abbreviation diff := (diff digest opLength patchLength).
Local Abbreviation finish := (finish opLength patchLength).

(** The state after the subtree of two arrays or two objects has been
    compared, before its operations are rationalized. *)
Definition subtree (n : nat) (d : Differ) (p : pointer) (src tgt : value) : Differ :=
  match src, tgt with
  | VArr xs, VArr ys => compareArrays_with digest (diff n) d p xs ys
  | VObj m1, VObj m2 => compareObjects_with digest (diff n) d p m1 m2
  | _, _ => d
  end.

Definition is_container (v : value) : bool :=
  match v with VArr _ | VObj _ => true | _ => false end.

Definition replaceOp (p : pointer) (tgt : value) : Operation :=
  mkOp OperationReplace "" (ptr_copy p) VNull tgt.

(** The single replace, with its test when the patch is invertible. *)
Definition replacement (d : Differ) (p : pointer) (src tgt : value) : Patch :=
  (if invertible (opts d) then [op_test (ptr_copy p) src] else []) ++ [replaceOp p tgt].

(** What rationalization is to do for one call of [diff] on two
    containers: [kept] are operations that were in the patch before the
    call, [ops] the operations the call emitted. *)
Definition rationalized (n : nat) (d : Differ) (p : pointer) (src tgt : value) : Prop :=
  patch (subtree n d p src tgt) <> patch d ->
  exists kept ops,
    sublist kept (patch d) /\
    patch (subtree n d p src tgt) = kept ++ ops /\ ops <> [] /\
    patch (diff (S n) d p src tgt)
    = kept ++ (if Z.ltb (opLength (replaceOp p tgt) (targetBytes d))
                        (patchLength ops (targetBytes d))
               then replacement d p src tgt
               else ops).

Lemma diff_unfold_subtree n d p src tgt :
  ignored d (ptr_copy p) = false ->
  areComparable src tgt = true ->
  is_container src = true ->
  deepEqual src tgt = false ->
  diff (S n) d p src tgt = finish d (subtree n d p src tgt) p src tgt.
Proof.
  intros Hi Hc Hk He.
  destruct src; try discriminate; destruct tgt; try discriminate.
  - apply diff_unfold_arr; assumption.
  - apply diff_unfold_obj; assumption.
Qed.

Lemma subtree_appends n d p src tgt : appends d (subtree n d p src tgt).
Proof.
  assert (appends d d) as Hr.
  { split; [apply same_frame_refl | intros _; exists []; rewrite app_nil_r; reflexivity]. }
  destruct src; try exact Hr; destruct tgt; try exact Hr; simpl.
  - apply compareArrays_with_closed.
    + intros; split; [apply same_frame_refl | intros _; exists []; rewrite app_nil_r; reflexivity].
    + apply appends_trans.
    + intros d0 p0 v. split; [apply add_frame|].
      intros Hf. unfold Engine.add. rewrite Hf. simpl. eexists; reflexivity.
    + intros d0 p0 v. split; [apply remove_frame|]. intros _.
      unfold remove, Patch_append. destruct (invertible (opts d0)); simpl.
      * rewrite <- app_assoc. eexists; reflexivity.
      * eexists; reflexivity.
    + intros. apply diff_appends.
  - apply compareObjects_with_closed.
    + intros; split; [apply same_frame_refl | intros _; exists []; rewrite app_nil_r; reflexivity].
    + apply appends_trans.
    + intros d0 p0 v. split; [apply add_frame|].
      intros Hf. unfold Engine.add. rewrite Hf. simpl. eexists; reflexivity.
    + intros d0 p0 v. split; [apply remove_frame|]. intros _.
      unfold remove, Patch_append. destruct (invertible (opts d0)); simpl.
      * rewrite <- app_assoc. eexists; reflexivity.
      * eexists; reflexivity.
    + intros. apply diff_appends.
Qed.

(** What the code does with factorize off: with rationalize set, a call
    of [diff] on two arrays or two objects that emitted at least one
    operation ends with the operations that were in the patch before,
    followed by the single replace (after its test when invertible)
    exactly when the cost of the replace alone is strictly smaller than
    the cost of the emitted operations, and by the emitted operations
    unchanged otherwise. *)
Theorem diff_rationalizes (n : nat) (d : Differ) (p : pointer) (src tgt : value) :
  rationalize (opts d) = true ->
  factorize (opts d) = false ->
  ignored d (ptr_copy p) = false ->
  areComparable src tgt = true ->
  is_container src = true ->
  deepEqual src tgt = false ->
  rationalized n d p src tgt /\
  exists ops,
    patch (subtree n d p src tgt) = patch d ++ ops /\
    patch (diff (S n) d p src tgt)
    = patch d ++ (if negb (Nat.eqb (List.length ops) 0) &&
                     Z.ltb (opLength (replaceOp p tgt) (targetBytes d))
                           (patchLength ops (targetBytes d))
                  then replacement d p src tgt
                  else ops).
Proof.
  intros Hr Hf Hi Hc Hk He.
  destruct (subtree_appends n d p src tgt) as [(Ho & _ & Htb) Happ].
  destruct (Happ Hf) as [ops Hops].
  assert (patch (diff (S n) d p src tgt)
          = patch d ++ (if negb (Nat.eqb (List.length ops) 0) &&
                           Z.ltb (opLength (replaceOp p tgt) (targetBytes d))
                                 (patchLength ops (targetBytes d))
                        then replacement d p src tgt
                        else ops)) as Hfinal.
  { rewrite diff_unfold_subtree by assumption.
    unfold Engine.finish. rewrite Ho, Hr, Hops, length_app. cbn [andb].
    destruct ops as [|o ops'].
    - simpl. rewrite Nat.add_0_r, Nat.ltb_irrefl. exact Hops.
    - replace (Nat.ltb _ _) with true by (symmetry; apply Nat.ltb_lt; simpl; lia).
      cbn [List.length Nat.eqb negb andb].
      unfold rationalizeLastOps. rewrite Hops, Htb, Ho.
      rewrite drop_app_length, take_app_length.
      unfold replaceOp, replacement, op_test, Patch_append.
      destruct (Z.ltb _ _); [|exact Hops]. reflexivity. }
  split.
  - intros Hne. exists (patch d), ops. split; [reflexivity|]. split; [exact Hops|].
    assert (ops <> []) as Hnil.
    { intros ->. rewrite app_nil_r in Hops. contradiction. }
    split; [exact Hnil|].
    rewrite Hfinal. destruct ops; [contradiction|]. reflexivity.
  - exists ops. split; [exact Hops | exact Hfinal].
Qed.

End Rationalization.

Definition long_key : string := "aaaaaaaaaaaaaaaaaaaaaaaa".

Definition opts_factorize_rationalize : options := mkOptions true true false false ∅.

(** With factorize on, a move emitted by the call takes the place of an
    earlier remove, the patch does not grow, and the call is not
    rationalized although the replace is cheaper. *)
Lemma diff_rationalizes_counterexample :
  let d := mkDiffer [op_remove ("/" +:+ long_key) (VNum 1)] ∅ ""
                    opts_factorize_rationalize root in
  let p := appendKey root "b" in
  rationalize (opts d) = true /\
  ignored d (ptr_copy p) = false /\
  ~ rationalized digest_model opLength_model patchLength_model
      1 d p (VObj []) (VObj [("c", VNum 1)]).
Proof.
  cbv zeta. split; [reflexivity|]. split; [reflexivity|].
  unfold rationalized. intros H.
  destruct H as (kept & ops & _ & Happ & Hnil & Hfin); [vm_compute; discriminate|].
  assert (kept = [] /\ ops = [op_move ("/" +:+ long_key) "/b/c" (VNum 1)]) as [-> ->].
  { vm_compute in Happ.
    destruct kept as [|k1 kept]; [split; [reflexivity|]; simpl in Happ; symmetry; exact Happ|].
    destruct kept; destruct ops; try discriminate; contradiction. }
  vm_compute in Hfin. discriminate.
Qed.

Lemma diff_rationalizes_witness :
  let d := mkDiffer [op_remove ("/" +:+ long_key) (VNum 1)] ∅ ""
                    (mkOptions false true true false ∅) root in
  let p := appendKey root "b" in
  rationalized digest_model opLength_model patchLength_model
    1 d p (VObj []) (VObj [("c", VNum 1)]).
Proof.
  cbv zeta.
  apply (diff_rationalizes digest_model opLength_model patchLength_model);
    reflexivity.
Defined.

(** C8. The cost that [rationalizeLastOps] compares with the cost of the
    emitted operations is that of the replace alone, while with
    invertible set it substitutes the test and the replace.  For
    [Compare({"a":1}, {"a":2})] with rationalize and invertible, and for
    every cost function: the operations emitted are the test and the
    replace at [/a]; they give way to the test and the replace at the
    root as soon as the replace at the root alone costs less.  With the
    serialized size as the cost, the replace alone takes 42 bytes, the
    emitted operations 74 and what is substituted 82: the patch that the
    comparison returns is the longer one. *)
Theorem Compare_rationalizes_to_costlier_patch
    (digest : value -> Z) (opLength : Operation -> string -> Z)
    (patchLength : Patch -> string -> Z) :
  let A := VObj [("a", VNum 1)] in
  let B := VObj [("a", VNum 2)] in
  let emitted := [op_test "/a" (VNum 1); mkOp OperationReplace "" "/a" (VNum 1) (VNum 2)] in
  let single := mkOp OperationReplace "" "" VNull B in
  let substituted := [op_test "" A; single] in
  patch (Compare digest opLength patchLength
           (newDiffer (mkOptions false false true false ∅)) A B) = emitted /\
  patch (Compare digest opLength patchLength
           (newDiffer (mkOptions false true true false ∅)) A B)
  = (if Z.ltb (opLength single "") (patchLength emitted "") then substituted else emitted) /\
  opLength_model single "" = 42%Z /\
  patchLength_model emitted "" = 74%Z /\
  patchLength_model substituted "" = 82%Z /\
  patch (Compare digest opLength_model patchLength_model
           (newDiffer (mkOptions false true true false ∅)) A B) = substituted.
Proof.
  cbv zeta.
  assert (forall oL pL,
    patch (Compare digest oL pL (newDiffer (mkOptions false true true false ∅))
             (VObj [("a", VNum 1)]) (VObj [("a", VNum 2)]))
    = (if Z.ltb (oL (mkOp OperationReplace "" "" VNull (VObj [("a", VNum 2)])) "")
                (pL [op_test "/a" (VNum 1); mkOp OperationReplace "" "/a" (VNum 1) (VNum 2)] "")
       then [op_test "" (VObj [("a", VNum 1)]);
             mkOp OperationReplace "" "" VNull (VObj [("a", VNum 2)])]
       else [op_test "/a" (VNum 1); mkOp OperationReplace "" "/a" (VNum 1) (VNum 2)])) as H.
  { intros oL pL. unfold Engine.Compare.
    change (factorize (opts (newDiffer (mkOptions false true true false ∅)))) with false.
    cbv iota.
    change (S (height (VObj [("a", VNum 1)]))) with 2.
    rewrite diff_unfold_obj by reflexivity.
    replace (compareObjects_with digest (diff digest oL pL 1)
               (newDiffer (mkOptions false true true false ∅))
               (ptr (newDiffer (mkOptions false true true false ∅)))
               [("a", VNum 1)] [("a", VNum 2)])
      with (with_patch (newDiffer (mkOptions false true true false ∅))
              [op_test "/a" (VNum 1); mkOp OperationReplace "" "/a" (VNum 1) (VNum 2)])
      by (vm_compute; reflexivity).
    unfold Engine.finish, rationalizeLastOps.
    cbn [patch opts targetBytes with_patch newDiffer rationalize invertible List.length
         Nat.ltb Nat.leb andb drop take app Patch_append ptr ptr_copy buf].
    destruct (Z.ltb _ _); reflexivity. }
  split; [vm_compute; reflexivity|].
  split; [apply H|].
  split; [vm_compute; reflexivity|].
  split; [vm_compute; reflexivity|].
  split; [vm_compute; reflexivity|].
  rewrite H. vm_compute. reflexivity.
Qed.

(** ** The loops of [compareObjects] and [compareArrays], with the pointer
    arithmetic resolved *)

Definition has_key (k : string) (m : list (string * value)) : bool :=
  match obj_lookup k m with Some _ => true | None => false end.

Lemma has_key_In k m : has_key k m = true <-> In k (map fst m).
Proof.
  unfold has_key. pose proof (obj_lookup_None k m) as H.
  destruct (obj_lookup k m); split; intros H1; try reflexivity; try discriminate.
  - destruct (in_dec string_dec k (map fst m)) as [Hin|Hin]; [exact Hin|].
    apply H in Hin. discriminate.
  - exfalso. apply (proj1 H); auto.
Qed.

Lemma has_key_cons k k1 v1 r :
  has_key k ((k1, v1) :: r) = if String.eqb k k1 then true else has_key k r.
Proof. unfold has_key. simpl. destruct (String.eqb k k1); reflexivity. Qed.

Definition mark (bit : Z) (m : gmap string Z) (kv : string * value) : gmap string Z :=
  <[kv.1 := Z.lor (default 0%Z (m !! kv.1)) bit]> m.

Lemma foldl_mark bit (l : list (string * value)) (m : gmap string Z) k :
  foldl (mark bit) m l !! k
  = if has_key k l then Some (Z.lor (default 0%Z (m !! k)) bit) else m !! k.
Proof.
  revert m. induction l as [|[k1 v1] r IH]; intros m; [reflexivity|].
  cbn [foldl]. rewrite IH, has_key_cons. unfold mark. cbn [fst].
  destruct (String.eqb_spec k k1) as [->|Hne].
  - rewrite lookup_insert_eq. cbn [default from_option id].
    rewrite <- Z.lor_assoc, Z.lor_diag. destruct (has_key k1 r); reflexivity.
  - rewrite lookup_insert_ne by congruence. reflexivity.
Qed.

(** The set built by the first two loops of [compareObjects]. *)
Definition cmpSet_of (src tgt : list (string * value)) : gmap string Z :=
  foldl (mark (Z.shiftl 1 1)) (foldl (mark (Z.shiftl 1 0)) ∅ src) tgt.

Lemma cmpSet_of_lookup src tgt k :
  cmpSet_of src tgt !! k =
  match has_key k src, has_key k tgt with
  | true, true => Some 3%Z
  | true, false => Some 1%Z
  | false, true => Some 2%Z
  | false, false => None
  end.
Proof.
  unfold cmpSet_of. rewrite !foldl_mark, lookup_empty.
  destruct (has_key k src), (has_key k tgt); reflexivity.
Qed.

Lemma shift_perm rl key : shift rl key ≡ₚ key :: rl.
Proof.
  induction rl as [|x r IH]; [reflexivity|]. cbn.
  destruct (String.ltb key x); [|reflexivity].
  rewrite IH. apply perm_swap.
Qed.

Lemma foldl_shift_perm v acc : foldl shift acc v ≡ₚ v ++ acc.
Proof.
  revert acc. induction v as [|x v IH]; intros acc; [reflexivity|].
  cbn [foldl]. rewrite IH, shift_perm. cbn.
  symmetry. apply Permutation_middle.
Qed.

Lemma sortStrings_perm v : sortStrings v ≡ₚ v.
Proof.
  assert (insertionSort v ≡ₚ v) as H.
  { unfold insertionSort. rewrite <- Permutation_rev, foldl_shift_perm, app_nil_r. reflexivity. }
  unfold sortStrings, sort_Strings. destruct (Nat.ltb _ _); exact H.
Qed.

(** The keys that [compareObjects] visits, in the order it visits them. *)
Definition object_keys (src tgt : list (string * value)) : list string :=
  sortStrings (map_to_list (cmpSet_of src tgt)).*1.

Lemma object_keys_NoDup src tgt : NoDup (object_keys src tgt).
Proof.
  unfold object_keys. rewrite sortStrings_perm. apply NoDup_fst_map_to_list.
Qed.

Lemma object_keys_elem src tgt k :
  k ∈ object_keys src tgt <-> has_key k src || has_key k tgt = true.
Proof.
  unfold object_keys. rewrite sortStrings_perm.
  rewrite list_elem_of_fmap. split.
  - intros ([k' z] & -> & Hin). apply elem_of_map_to_list in Hin. cbn.
    rewrite cmpSet_of_lookup in Hin.
    destruct (has_key k' src), (has_key k' tgt); try reflexivity; discriminate.
  - intros H.
    assert (exists z, cmpSet_of src tgt !! k = Some z) as [z Hz].
    { rewrite cmpSet_of_lookup.
      destruct (has_key k src), (has_key k tgt); try discriminate; eauto. }
    exists (k, z). split; [reflexivity|]. apply elem_of_map_to_list. exact Hz.
Qed.

Lemma rewind_extended (p : pointer) (base junk : string) :
  buf p = base +:+ junk -> sep p = String.length base ->
  rewind p = mkPointer base (String.length base).
Proof.
  intros Hb Hs. unfold rewind. rewrite Hb, Hs, substring_sapp. reflexivity.
Qed.

Section Loops.

Variable digest : value -> Z.
Variable rec : Differ -> pointer -> value -> value -> Differ.

Local Abbreviation add := (add digest).

(** One turn of the loop of [compareObjects] at the location [base]. *)
Definition obj_step (base : string) (src tgt : list (string * value))
    (d : Differ) (k : string) : Differ :=
  let path := base +:+ "/" +:+ escapeKey k in
  match obj_lookup k src, obj_lookup k tgt with
  | Some s, Some t => rec d (mkPointer path (String.length base)) s t
  | Some s, None => if ignored d path then d else remove d path s
  | None, Some t => if ignored d path then d else add d path t
  | None, None => d
  end.

Lemma compareObjects_with_fold d p src tgt :
  compareObjects_with digest rec d p src tgt
  = foldl (obj_step (buf p) src tgt) d (object_keys src tgt).
Proof.
  unfold compareObjects_with.
  change (foldl (fun m kv => <[kv.1 := Z.lor (default 0%Z (m !! kv.1)) (Z.shiftl 1 1)]> m)
            (foldl (fun m kv => <[kv.1 := Z.lor (default 0%Z (m !! kv.1)) (Z.shiftl 1 0)]> m)
               ∅ src) tgt)
    with (cmpSet_of src tgt).
  fold (object_keys src tgt).
  generalize (object_keys src tgt) as keys.
  assert (buf p = buf p) as Hp by reflexivity. revert Hp.
  generalize p at 1 3 as p1. intros p1 Hp keys. revert d p1 Hp.
  induction keys as [|k keys IH]; intros d p1 Hp; [reflexivity|].
  cbn [foldl]. rewrite IH.
  - f_equal. unfold obj_step. rewrite cmpSet_of_lookup.
    unfold has_key, obj_get, ptr_string, ptr_copy, appendKey, snapshot. cbn [buf sep].
    rewrite Hp.
    destruct (obj_lookup k src), (obj_lookup k tgt); reflexivity.
  - unfold rewind, appendKey, snapshot. cbn [buf sep].
    rewrite substring_sapp. exact Hp.
Qed.

(** The three loops of [compareArrays] at the location [base]. *)
Definition arr_remove_step (base : string) (size : nat) (src : list value)
    (d : Differ) (i : nat) : Differ :=
  if ignored d (base +:+ "/" +:+ itoa i) then d
  else remove d (base +:+ "/" +:+ itoa size) (nth i src VNull).

Definition arr_diff_step (base : string) (src tgt : list value)
    (d : Differ) (i : nat) : Differ :=
  rec d (mkPointer (base +:+ "/" +:+ itoa i) (String.length base))
      (nth i src VNull) (nth i tgt VNull).

(** The state of the last loop is the differ and the text of the pointer,
    which stays extended after an ignored index. *)
Definition arr_add_step (base : string) (tgt : list value)
    (st : Differ * string) (i : nat) : Differ * string :=
  let b := st.2 +:+ "/" +:+ itoa i in
  if ignored st.1 b then (st.1, b)
  else (add st.1 (base +:+ "/-") (nth i tgt VNull), base).

Lemma compareArrays_with_fold d p src tgt :
  compareArrays_with digest rec d p src tgt
  = let base := buf p in
    let size := min (List.length src) (List.length tgt) in
    let d1 :=
      if Nat.ltb size (List.length src)
      then foldl (arr_remove_step base size src) d (seq size (List.length src - size))
      else d in
    let d2 :=
      if equivalent (opts d1) && unorderedDeepEqualSlice digest d1 src tgt then d1
      else foldl (arr_diff_step base src tgt) d1 (seq 0 size) in
    fst (foldl (arr_add_step base tgt) (d2, base) (seq size (List.length tgt - size))).
Proof.
  unfold compareArrays_with. cbv zeta.
  set (size := min (List.length src) (List.length tgt)).
  set (base := buf p).
  (* first loop *)
  assert (forall l d0,
    foldl (fun (st : Differ * pointer) i =>
             let '(d, ptr) := st in
             let ptr := appendIndex ptr i in
             let d := if ignored d (ptr_string ptr) then d
                      else remove d (ptr_copy (appendIndex (snapshot p) size)) (nth i src VNull) in
             (d, rewind ptr)) (d0, snapshot p) l
    = (foldl (arr_remove_step base size src) d0 l, snapshot p)) as H1.
  { induction l as [|i l IH]; intros d0; [reflexivity|].
    cbn [foldl]. cbv zeta.
    replace (rewind (appendIndex (snapshot p) i)) with (snapshot p)
      by (unfold rewind, appendIndex, snapshot; cbn [buf sep]; rewrite substring_sapp; reflexivity).
    rewrite IH. reflexivity. }
  (* second loop *)
  assert (forall l d0,
    foldl (fun (st : Differ * pointer) i =>
             let '(d, ptr) := st in
             let ptr := appendIndex ptr i in
             let d := rec d ptr (nth i src VNull) (nth i tgt VNull) in
             (d, rewind ptr)) (d0, snapshot p) l
    = (foldl (arr_diff_step base src tgt) d0 l, snapshot p)) as H2.
  { induction l as [|i l IH]; intros d0; [reflexivity|].
    cbn [foldl]. cbv zeta.
    replace (rewind (appendIndex (snapshot p) i)) with (snapshot p)
      by (unfold rewind, appendIndex, snapshot; cbn [buf sep]; rewrite substring_sapp; reflexivity).
    rewrite IH. reflexivity. }
  (* third loop *)
  assert (forall l d0 p0 junk,
    buf p0 = base +:+ junk -> sep p0 = String.length base ->
    fst (foldl (fun (st : Differ * pointer) i =>
             let '(d, ptr) := st in
             let ptr := appendIndex ptr i in
             if ignored d (ptr_string ptr) then (d, ptr)
             else let ptr := rewind ptr in
                  (add d (ptr_copy (appendKey ptr "-")) (nth i tgt VNull), ptr))
          (d0, p0) l)
    = fst (foldl (arr_add_step base tgt) (d0, buf p0) l)) as H3.
  { induction l as [|i l IH]; intros d0 p0 junk Hb Hs; [reflexivity|].
    cbn [foldl]. cbv zeta. unfold arr_add_step at 2. cbn [fst snd].
    unfold ptr_string. change (buf (appendIndex p0 i)) with (buf p0 +:+ "/" +:+ itoa i).
    destruct (ignored d0 (buf p0 +:+ "/" +:+ itoa i)).
    - rewrite (IH _ _ (junk +:+ "/" +:+ itoa i)).
      + reflexivity.
      + cbn [appendIndex buf]. rewrite Hb, sapp_assoc. reflexivity.
      + exact Hs.
    - rewrite (rewind_extended (appendIndex p0 i) base (junk +:+ "/" +:+ itoa i)).
      + rewrite (IH _ _ ""); [reflexivity | cbn [buf]; rewrite sapp_nil_r; reflexivity | reflexivity].
      + cbn [appendIndex buf]. rewrite Hb, sapp_assoc. reflexivity.
      + exact Hs. }
  destruct (Nat.ltb size (List.length src)).
  - rewrite H1.
    destruct (equivalent _ && _).
    + rewrite (H3 _ _ _ ""); [reflexivity | cbn [snapshot buf]; rewrite sapp_nil_r; reflexivity | reflexivity].
    + rewrite H2.
      rewrite (H3 _ _ _ ""); [reflexivity | cbn [snapshot buf]; rewrite sapp_nil_r; reflexivity | reflexivity].
  - destruct (equivalent _ && _).
    + rewrite (H3 _ _ _ ""); [reflexivity | cbn [snapshot buf]; rewrite sapp_nil_r; reflexivity | reflexivity].
    + rewrite H2.
      rewrite (H3 _ _ _ ""); [reflexivity | cbn [snapshot buf]; rewrite sapp_nil_r; reflexivity | reflexivity].
Qed.

End Loops.

(** ** Reading and updating a document along a path *)

Lemma obj_lookup_set_same k v m : obj_lookup k (obj_set k v m) = Some v.
Proof.
  induction m as [|[k' v'] r IH]; cbn.
  - rewrite String.eqb_refl. reflexivity.
  - destruct (String.eqb k k') eqn:E; cbn; rewrite E; [reflexivity | exact IH].
Qed.

Lemma obj_lookup_set_other k k' v m :
  k' <> k -> obj_lookup k' (obj_set k v m) = obj_lookup k' m.
Proof.
  intros Hne. induction m as [|[k1 v1] r IH]; cbn.
  - destruct (String.eqb_spec k' k); [contradiction | reflexivity].
  - destruct (String.eqb_spec k k1) as [->|N]; cbn.
    + destruct (String.eqb_spec k' k1); [contradiction | reflexivity].
    + rewrite IH. reflexivity.
Qed.

Lemma obj_set_set k v w m : obj_set k w (obj_set k v m) = obj_set k w m.
Proof.
  induction m as [|[k' v'] r IH]; cbn.
  - rewrite String.eqb_refl. reflexivity.
  - destruct (String.eqb k k') eqn:E; cbn; rewrite E; [reflexivity | rewrite IH; reflexivity].
Qed.

Lemma obj_set_id k v m : obj_lookup k m = Some v -> obj_set k v m = m.
Proof.
  induction m as [|[k' v'] r IH]; cbn; [discriminate|].
  destruct (String.eqb k k') eqn:E.
  - intros [= ->]. reflexivity.
  - intros H. rewrite IH by exact H. reflexivity.
Qed.

Lemma obj_set_keys_present k v m :
  has_key k m = true -> map fst (obj_set k v m) = map fst m.
Proof.
  unfold has_key. induction m as [|[k' v'] r IH]; cbn; [discriminate|].
  destruct (String.eqb k k') eqn:E; cbn; [reflexivity|].
  intros H. rewrite IH by exact H. reflexivity.
Qed.

Lemma obj_set_keys_absent k v m :
  obj_lookup k m = None -> map fst (obj_set k v m) = map fst m ++ [k].
Proof.
  induction m as [|[k' v'] r IH]; cbn; [reflexivity|].
  destruct (String.eqb k k') eqn:E; [discriminate|]. cbn.
  intros H. rewrite IH by exact H. reflexivity.
Qed.

Lemma obj_lookup_del_same k m : obj_lookup k (obj_del k m) = None.
Proof.
  induction m as [|[k' v'] r IH]; cbn; [reflexivity|].
  destruct (String.eqb k k') eqn:E; [exact IH|]. cbn. rewrite E. exact IH.
Qed.

Lemma obj_lookup_del_other k k' m :
  k' <> k -> obj_lookup k' (obj_del k m) = obj_lookup k' m.
Proof.
  intros Hne. induction m as [|[k1 v1] r IH]; cbn; [reflexivity|].
  destruct (String.eqb_spec k k1) as [->|N]; cbn.
  - destruct (String.eqb_spec k' k1); [contradiction | exact IH].
  - rewrite IH. reflexivity.
Qed.

Lemma obj_del_keys k m : map fst (obj_del k m) = filter (fun x => x <> k) (map fst m).
Proof.
  induction m as [|[k1 v1] r IH]; [reflexivity|].
  cbn [obj_del map fst].
  destruct (String.eqb_spec k k1) as [->|N].
  - rewrite filter_cons_False by (intros H; apply H; reflexivity). exact IH.
  - rewrite filter_cons_True by congruence. cbn [map fst]. rewrite IH. reflexivity.
Qed.

Lemma get_app D ts r :
  get D (ts ++ r) = match get D ts with Some s => get s r | None => None end.
Proof.
  revert D. induction ts as [|t ts IH]; intros D; [reflexivity|].
  cbn [get app]. destruct (child t D); [apply IH | reflexivity].
Qed.

Lemma update_app ts r f D : update (ts ++ r) f D = update ts (update r f) D.
Proof.
  revert D. induction ts as [|t ts IH]; intros D; [reflexivity|].
  cbn [update app]. destruct D; try reflexivity.
  - destruct (parse_index t); [|reflexivity].
    destruct (xs !! n); [|reflexivity]. rewrite IH. reflexivity.
  - destruct (obj_lookup t kvs); [|reflexivity]. rewrite IH. reflexivity.
Qed.

(** Only the value found at the path matters to an update. *)
Lemma update_at ts f D s :
  get D ts = Some s -> update ts f D = update ts (fun _ => f s) D.
Proof.
  revert D. induction ts as [|t ts IH]; intros D; cbn [get update].
  - intros [= ->]. reflexivity.
  - destruct D; cbn [child]; try discriminate.
    + destruct (parse_index t); [|discriminate].
      destruct (xs !! n); [|discriminate]. intros H. rewrite (IH _ H). reflexivity.
    + destruct (obj_lookup t kvs); [|discriminate]. intros H. rewrite (IH _ H). reflexivity.
Qed.

Lemma update_put ts D s r :
  get D ts = Some s ->
  exists D1, update ts (fun _ => Some r) D = Some D1 /\ get D1 ts = Some r /\
             forall f, update ts f D1 = update ts (fun _ => f r) D.
Proof.
  revert D. induction ts as [|t ts IH]; intros D; cbn [get update].
  - intros _. exists r. repeat split.
  - destruct D; cbn [child]; try discriminate.
    + destruct (parse_index t) as [i|] eqn:Ei; [|discriminate].
      destruct (xs !! i) as [c|] eqn:Ec; [|discriminate]. intros H.
      destruct (IH _ H) as (c1 & H1 & H2 & H3). rewrite H1.
      exists (VArr (<[i := c1]> xs)).
      assert (i < List.length xs) as Hlt by (eapply lookup_lt_Some; eauto).
      split; [reflexivity|]. split.
      * cbn [get child]. rewrite Ei, list_lookup_insert_eq by exact Hlt. exact H2.
      * intros f. cbn [update]. rewrite ?Ei, list_lookup_insert_eq by exact Hlt.
        rewrite H3, ?Ec. destruct (update ts (fun _ => f r) c); [|reflexivity].
        rewrite list_insert_insert_eq. reflexivity.
    + destruct (obj_lookup t kvs) as [c|] eqn:Ec; [|discriminate]. intros H.
      destruct (IH _ H) as (c1 & H1 & H2 & H3). rewrite H1.
      exists (VObj (obj_set t c1 kvs)).
      split; [reflexivity|]. split.
      * cbn [get child]. rewrite obj_lookup_set_same. exact H2.
      * intros f. cbn [update]. rewrite obj_lookup_set_same, H3, ?Ec.
        destruct (update ts (fun _ => f r) c); [|reflexivity].
        rewrite obj_set_set. reflexivity.
Qed.

(** Putting back what is there changes nothing. *)
Lemma update_id ts D s : get D ts = Some s -> update ts (fun _ => Some s) D = Some D.
Proof.
  revert D. induction ts as [|t ts IH]; intros D; cbn [get update].
  - intros [= ->]. reflexivity.
  - destruct D; cbn [child]; try discriminate.
    + destruct (parse_index t) as [i|]; [|discriminate].
      destruct (xs !! i) as [c|] eqn:Ec; [|discriminate]. intros H.
      rewrite (IH _ H), list_insert_id by exact Ec. reflexivity.
    + destruct (obj_lookup t kvs) as [c|] eqn:Ec; [|discriminate]. intros H.
      rewrite (IH _ H), obj_set_id by exact Ec. reflexivity.
Qed.

Lemma apply_patch_app E1 E2 D :
  apply_patch (E1 ++ E2) D =
  match apply_patch E1 D with Some D1 => apply_patch E2 D1 | None => None end.
Proof.
  revert D. induction E1 as [|op E1 IH]; intros D; [reflexivity|].
  cbn [apply_patch app]. destruct (apply_op op D); [apply IH | reflexivity].
Qed.

(** ** What a run of operations does at a location

    [acts_on E ts s r]: in any document holding [s] at [ts], applying [E]
    succeeds and puts [r] there, leaving the rest as it was. *)

Definition acts_on (E : Patch) (ts : list string) (s r : value) : Prop :=
  forall D, get D ts = Some s -> apply_patch E D = update ts (fun _ => Some r) D.

Lemma acts_on_nil ts s : acts_on [] ts s s.
Proof. intros D H. cbn. symmetry. apply update_id, H. Qed.

Lemma acts_on_app E1 E2 ts s r1 r2 :
  acts_on E1 ts s r1 -> acts_on E2 ts r1 r2 -> acts_on (E1 ++ E2) ts s r2.
Proof.
  intros H1 H2 D HD. rewrite apply_patch_app, (H1 D HD).
  destruct (update_put ts D s r1 HD) as (D1 & E & G & U).
  rewrite E, (H2 D1 G), U. reflexivity.
Qed.

Lemma acts_on_fn (op : Operation) (f : value -> option value) ts s r :
  (forall D, apply_op op D = update ts f D) -> f s = Some r -> acts_on [op] ts s r.
Proof.
  intros Hop Hf D HD. cbn [apply_patch]. rewrite Hop, (update_at ts f D s HD), Hf.
  destruct (update ts _ D); reflexivity.
Qed.

(** The member [t] of [s] replaced by [c]. *)
Definition set_child (t : string) (c : value) (s : value) : value :=
  match s with
  | VObj kvs => VObj (obj_set t c kvs)
  | VArr xs => match parse_index t with Some i => VArr (<[i := c]> xs) | None => s end
  | _ => s
  end.

Lemma acts_on_child E ts t s c c' :
  child t s = Some c -> acts_on E (ts ++ [t]) c c' -> acts_on E ts s (set_child t c' s).
Proof.
  intros Hc H D HD.
  rewrite (H D) by (rewrite get_app, HD; cbn; rewrite Hc; reflexivity).
  rewrite update_app, (update_at ts _ D s HD).
  assert (update [t] (fun _ => Some c') s = Some (set_child t c' s)) as ->; [|reflexivity].
  cbn [update]. destruct s; cbn [child] in Hc; try discriminate; cbn [set_child].
  - destruct (parse_index t); [|discriminate]. rewrite Hc. reflexivity.
  - rewrite Hc. reflexivity.
Qed.

(** The operations, at a rendered path. *)

Lemma split_last_snoc ts t : split_last (ts ++ [t]) = Some (ts, t).
Proof.
  induction ts as [|x ts IH]; [reflexivity|].
  cbn [app split_last]. rewrite IH. destruct (ts ++ [t]) eqn:E; [|reflexivity].
  destruct ts; discriminate.
Qed.

Lemma apply_replace from ts old v D :
  apply_op (mkOp OperationReplace from (render ts) old v) D
  = update ts (fun _ => Some v) D.
Proof. unfold apply_op. cbn [Path Type_ Value]. rewrite parse_pointer_render. reflexivity. Qed.

Lemma apply_test from ts old v D s :
  get D ts = Some s -> deepEqual s v = true ->
  apply_op (mkOp OperationTest from (render ts) old v) D = Some D.
Proof.
  intros HD He. unfold apply_op. cbn [Path Type_ Value].
  rewrite parse_pointer_render, HD, He. reflexivity.
Qed.

Lemma apply_add_member from ts t old v D :
  apply_op (mkOp OperationAdd from (render (ts ++ [t])) old v) D
  = update ts (add_member t v) D.
Proof.
  unfold apply_op, add_at. cbn [Path Type_ Value].
  rewrite parse_pointer_render, split_last_snoc. reflexivity.
Qed.

Lemma apply_remove_member from ts t old v D :
  apply_op (mkOp OperationRemove from (render (ts ++ [t])) old v) D
  = update ts (remove_member t) D.
Proof.
  unfold apply_op, remove_at. cbn [Path Type_ Value].
  rewrite parse_pointer_render, split_last_snoc. reflexivity.
Qed.

Lemma acts_on_replace from ts old s r : acts_on [mkOp OperationReplace from (render ts) old r] ts s r.
Proof. intros D HD. cbn [apply_patch]. rewrite apply_replace. destruct (update _ _ _); reflexivity. Qed.

Lemma acts_on_test from ts old s v :
  deepEqual s v = true -> acts_on [mkOp OperationTest from (render ts) old v] ts s s.
Proof.
  intros He D HD. cbn [apply_patch]. rewrite (apply_test _ _ _ _ _ s HD He).
  symmetry. apply update_id, HD.
Qed.

Lemma acts_on_add_member from ts t old v s r :
  add_member t v s = Some r ->
  acts_on [mkOp OperationAdd from (render (ts ++ [t])) old v] ts s r.
Proof. intros H. eapply acts_on_fn; [apply apply_add_member | exact H]. Qed.

Lemma acts_on_remove_member from ts t old v s r :
  remove_member t s = Some r ->
  acts_on [mkOp OperationRemove from (render (ts ++ [t])) old v] ts s r.
Proof. intros H. eapply acts_on_fn; [apply apply_remove_member | exact H]. Qed.

(** A test that cannot fail may be put in front. *)
Lemma acts_on_guarded (b : bool) from ts old s r E :
  deepEqual s s = true -> acts_on E ts s r ->
  acts_on ((if b then [mkOp OperationTest from (render ts) old s] else []) ++ E) ts s r.
Proof.
  intros He H. destruct b; [|exact H].
  eapply acts_on_app; [apply acts_on_test; exact He | exact H].
Qed.

(** ** Documents: members are smaller and well formed *)

Lemma height_arr_member xs i x : xs !! i = Some x -> height x < height (VArr xs).
Proof.
  cbn [height]. revert i. induction xs as [|y xs IH]; intros i H; [discriminate|].
  cbn [foldr]. destruct i as [|i]; cbn in H.
  - injection H as ->. lia.
  - specialize (IH _ H). lia.
Qed.

Lemma height_obj_member kvs k v : obj_lookup k kvs = Some v -> height v < height (VObj kvs).
Proof.
  cbn [height]. induction kvs as [|[k' v'] r IH]; cbn [obj_lookup foldr snd]; [discriminate|].
  destruct (String.eqb k k').
  - intros [= ->]. lia.
  - intros H. specialize (IH H). lia.
Qed.

Lemma wf_arr_member xs i x : wf (VArr xs) = true -> xs !! i = Some x -> wf x = true.
Proof.
  intros Hwf H. apply wf_arr in Hwf. rewrite List.Forall_forall in Hwf.
  apply Hwf. apply list_elem_of_In. eapply list_elem_of_lookup_2; eauto.
Qed.

Lemma wf_obj_member kvs k v : wf (VObj kvs) = true -> obj_lookup k kvs = Some v -> wf v = true.
Proof.
  intros Hwf H. apply wf_obj in Hwf as [_ Hwf]. rewrite List.Forall_forall in Hwf.
  apply (Hwf (k, v)). apply obj_lookup_Some_In, H.
Qed.

Lemma obj_lookup_is_key k (m : list (string * value)) :
  In k (map fst m) <-> exists v, obj_lookup k m = Some v.
Proof.
  rewrite <- has_key_In. unfold has_key.
  destruct (obj_lookup k m); split; intros H; eauto; try discriminate.
  destruct H; discriminate.
Qed.

(** Objects without duplicate keys are deeply equal when they agree key
    by key. *)
Definition agrees (Q : value -> value -> Prop) (tgt cur : list (string * value))
    (k : string) : Prop :=
  match obj_lookup k tgt with
  | Some v => exists c, obj_lookup k cur = Some c /\ Q c v
  | None => obj_lookup k cur = None
  end.

Definition deeply_equal (a b : value) : Prop := deepEqual a b = true.

Lemma deepEqual_obj_agrees cur tgt :
  NoDup (map fst cur) -> NoDup (map fst tgt) ->
  (forall k, agrees deeply_equal tgt cur k) ->
  deepEqual (VObj cur) (VObj tgt) = true.
Proof.
  intros Hc Ht Hk. apply deepEqual_obj. split.
  - rewrite <- (length_map fst cur), <- (length_map fst tgt).
    apply Permutation_length. apply NoDup_Permutation; [exact Hc | exact Ht|].
    intros k. rewrite !list_elem_of_In, !obj_lookup_is_key.
    specialize (Hk k). unfold agrees in Hk.
    destruct (obj_lookup k tgt) as [v|].
    + destruct Hk as (c & -> & _). split; eauto.
    + rewrite Hk. split; intros [? ?]; discriminate.
  - rewrite List.Forall_forall. intros [k v] Hin. cbn [fst snd].
    pose proof (obj_lookup_In k v cur Hc Hin) as Hl.
    specialize (Hk k). unfold agrees in Hk.
    destruct (obj_lookup k tgt) as [v2|].
    + destruct Hk as (c & Hc' & He). rewrite Hl in Hc'. injection Hc' as <-. eauto.
    + rewrite Hl in Hk. discriminate.
Qed.

Lemma min_is_min a b : min a b = Nat.min a b.
Proof. unfold min. destruct (Nat.ltb_spec a b); lia. Qed.

Lemma nth_lookup_lt (xs : list value) i : i < List.length xs -> xs !! i = Some (nth i xs VNull).
Proof.
  revert i. induction xs as [|x xs IH]; intros i H; cbn in H; [lia|].
  destruct i; [reflexivity|]. cbn. apply IH. lia.
Qed.

(** ** The emission steps outside factorize *)

Section Emission.

Variable digest : value -> Z.

Definition plain (d : Differ) : Prop :=
  factorize (opts d) = false /\ ignores (opts d) = ∅.

Lemma plain_frame d d' : same_frame d d' -> plain d -> plain d'.
Proof. intros (Ho & _) H. unfold plain. rewrite Ho. exact H. Qed.

Lemma plain_not_ignored d s : plain d -> ignored d s = false.
Proof.
  intros (_ & Hi). unfold ignored. rewrite Hi.
  apply bool_decide_eq_false. apply not_elem_of_empty.
Qed.

(** The operations of [remove] and of [replace]. *)
Definition remove_ops (d : Differ) (path : string) (v : value) : Patch :=
  (if invertible (opts d) then [op_test path v] else []) ++ [op_remove path v].

Definition replace_ops (d : Differ) (path : string) (s t : value) : Patch :=
  (if invertible (opts d) then [op_test path s] else []) ++
  [mkOp OperationReplace "" path s t].

Lemma remove_patch d path v : patch (remove d path v) = patch d ++ remove_ops d path v.
Proof.
  unfold remove, remove_ops, Patch_append, op_test, op_remove.
  destruct (invertible (opts d)); cbn; [rewrite <- app_assoc|]; reflexivity.
Qed.

Lemma replace_patch d path s t : patch (replace d path s t) = patch d ++ replace_ops d path s t.
Proof.
  unfold replace, replace_ops, Patch_append, op_test.
  destruct (invertible (opts d)); cbn; [rewrite <- app_assoc|]; reflexivity.
Qed.

Lemma add_patch_plain d path v :
  factorize (opts d) = false -> patch (add digest d path v) = patch d ++ [op_add path v].
Proof. intros Hf. unfold Engine.add. rewrite Hf. reflexivity. Qed.

End Emission.

(** ** From one state of the differ to a later one

    [reaches d d' ts s r]: [d'] has the frame of [d], and its patch is
    that of [d] followed by operations that turn [s] into [r] at [ts]. *)

Definition reaches (d d' : Differ) (ts : list string) (s r : value) : Prop :=
  same_frame d d' /\ exists E, patch d' = patch d ++ E /\ acts_on E ts s r.

Lemma reaches_refl d ts s : reaches d d ts s s.
Proof.
  split; [apply same_frame_refl|]. exists []. split; [rewrite app_nil_r; reflexivity|].
  apply acts_on_nil.
Qed.

Lemma reaches_trans d d1 d2 ts s r1 r2 :
  reaches d d1 ts s r1 -> reaches d1 d2 ts r1 r2 -> reaches d d2 ts s r2.
Proof.
  intros [F1 (E1 & P1 & A1)] [F2 (E2 & P2 & A2)].
  split; [eapply same_frame_trans; eauto|].
  exists (E1 ++ E2). split; [rewrite P2, P1, app_assoc; reflexivity|].
  eapply acts_on_app; eauto.
Qed.

Lemma reaches_child d d' ts t s c c' :
  child t s = Some c -> reaches d d' (ts ++ [t]) c c' -> reaches d d' ts s (set_child t c' s).
Proof.
  intros Hc [F (E & P & A)]. split; [exact F|]. exists E. split; [exact P|].
  eapply acts_on_child; eauto.
Qed.

Lemma reaches_remove d ts t s v r :
  child t s = Some v -> deepEqual v v = true -> remove_member t s = Some r ->
  reaches d (remove d (render (ts ++ [t])) v) ts s r.
Proof.
  intros Hc He Hr. split; [apply remove_frame|].
  exists (remove_ops d (render (ts ++ [t])) v). split; [apply remove_patch|].
  unfold remove_ops. destruct (invertible (opts d)); cbn [app].
  - apply (acts_on_app [_] [_] ts s s r).
    + apply (acts_on_child [op_test (render (ts ++ [t])) v] ts t s v v) in Hc as H1.
      * replace (set_child t v s) with s in H1; [exact H1|].
        destruct s; cbn [child set_child] in *; try discriminate.
        -- destruct (parse_index t); [|discriminate].
           rewrite list_insert_id by exact Hc. reflexivity.
        -- rewrite obj_set_id by exact Hc. reflexivity.
      * apply acts_on_test. exact He.
    + apply acts_on_remove_member. exact Hr.
  - apply acts_on_remove_member. exact Hr.
Qed.

Lemma reaches_add digest d ts t s v r :
  factorize (opts d) = false -> add_member t v s = Some r ->
  reaches d (add digest d (render (ts ++ [t])) v) ts s r.
Proof.
  intros Hf Hr. split; [apply add_frame|].
  exists [op_add (render (ts ++ [t])) v]. split; [apply add_patch_plain; exact Hf|].
  apply acts_on_add_member. exact Hr.
Qed.

Lemma reaches_replace d ts s t :
  deepEqual s s = true -> reaches d (replace d (render ts) s t) ts s t.
Proof.
  intros He. split; [apply replace_frame|].
  exists (replace_ops d (render ts) s t). split; [apply replace_patch|].
  unfold replace_ops. apply acts_on_guarded; [exact He | apply acts_on_replace].
Qed.

(** ** The fuel of [Compare] is enough

    With any fuel above the height of the source, [diff] and [prepare]
    give the same result: the recursion never reaches the bottom. *)

Lemma foldl_ext_in {A B} (f g : A -> B -> A) (l : list B) (a : A) :
  (forall a x, In x l -> f a x = g a x) -> foldl f a l = foldl g a l.
Proof.
  revert a. induction l as [|x l IH]; intros a H; [reflexivity|].
  cbn [foldl]. rewrite (H a x) by (left; reflexivity).
  apply IH. intros a' x' Hin. apply H. right. exact Hin.
Qed.

Section Fuel.

Variable digest : value -> Z.
Variable opLength : Operation -> string -> Z.
Variable patchLength : Patch -> string -> Z.

Local Abbreviation diff := (diff digest opLength patchLength).
Local Abbreviation prepare := (prepare digest).
Local Abbreviation Compare := (Compare digest opLength patchLength).

Lemma compareArrays_with_ext rec1 rec2 d p xs ys :
  (forall i d p t, i < List.length xs ->
     rec1 d p (nth i xs VNull) t = rec2 d p (nth i xs VNull) t) ->
  compareArrays_with digest rec1 d p xs ys = compareArrays_with digest rec2 d p xs ys.
Proof.
  intros H. rewrite !compareArrays_with_fold. cbv zeta.
  set (d1 := if Nat.ltb _ _ then _ else d).
  destruct (_ && _); [reflexivity|].
  f_equal. f_equal. f_equal.
  apply foldl_ext_in. intros a i Hin. apply in_seq in Hin.
  unfold arr_diff_step. apply H. rewrite min_is_min in Hin. lia.
Qed.

Lemma compareObjects_with_ext rec1 rec2 d p src tgt :
  (forall k s d p t, obj_lookup k src = Some s -> rec1 d p s t = rec2 d p s t) ->
  compareObjects_with digest rec1 d p src tgt = compareObjects_with digest rec2 d p src tgt.
Proof.
  intros H. rewrite !compareObjects_with_fold.
  apply foldl_ext_in. intros a k _. unfold obj_step.
  destruct (obj_lookup k src) as [s|] eqn:Es; [|reflexivity].
  destruct (obj_lookup k tgt); [|reflexivity].
  eapply H. exact Es.
Qed.

Lemma diff_fuel n : forall m d p s t,
  height s < n -> height s < m -> diff n d p s t = diff m d p s t.
Proof.
  induction n as [|n IH]; intros m d p s t Hn Hm; [lia|].
  destruct m as [|m]; [lia|].
  destruct s as [| | | |xs|kvs]; try reflexivity;
    destruct t as [| | | |ys|kvs']; try reflexivity.
  - cbn [Engine.diff].
    rewrite (compareArrays_with_ext (diff n) (diff m)); [reflexivity|].
    intros i d' p' t' Hi.
    pose proof (height_arr_member xs i _ (nth_lookup_lt xs i Hi)).
    apply IH; lia.
  - cbn [Engine.diff].
    rewrite (compareObjects_with_ext (diff n) (diff m)); [reflexivity|].
    intros k s d' p' t' Hk.
    pose proof (height_obj_member kvs k s Hk).
    apply IH; lia.
Qed.

Lemma prepare_fuel n : forall m d p s t,
  height s < n -> height s < m -> prepare n d p s t = prepare m d p s t.
Proof.
  induction n as [|n IH]; intros m d p s t Hn Hm; [lia|].
  destruct m as [|m]; [lia|].
  destruct s as [| | | |xs|kvs]; try reflexivity;
    destruct t as [| | | |ys|kvs']; try reflexivity.
  - cbn [Engine.prepare].
    destruct (is_nil _ && is_nil _); [reflexivity|].
    destruct (negb _); [reflexivity|].
    destruct (deepValueEqual _ _ _); [reflexivity|].
    apply foldl_ext_in. intros a i Hin. apply in_seq in Hin. rewrite min_is_min in Hin.
    assert (i < List.length xs) as Hi by lia.
    pose proof (height_arr_member xs i _ (nth_lookup_lt xs i Hi)).
    apply IH; lia.
  - cbn [Engine.prepare].
    destruct (is_nil _ && is_nil _); [reflexivity|].
    destruct (negb _); [reflexivity|].
    destruct (deepValueEqual _ _ _); [reflexivity|].
    apply foldl_ext_in. intros a [k v1] Hin. cbn [fst snd].
    destruct (obj_lookup k kvs'); [|reflexivity].
    assert (height v1 < height (VObj kvs)) as Hh.
    { cbn [height]. clear -Hin. induction kvs as [|[k' v'] r IHr]; [contradiction|].
      cbn [foldr snd]. destruct Hin as [[= -> ->]|Hin]; [lia|].
      specialize (IHr Hin). lia. }
    apply IH; lia.
Qed.

(** [Compare] is the two passes run with any sufficient fuel. *)
Lemma Compare_fuel n d src tgt :
  height src < n ->
  Compare d src tgt
  = let d1 := if factorize (opts d) then prepare n d (ptr d) src tgt else d in
    diff n d1 (ptr d1) src tgt.
Proof.
  intros Hn. unfold Engine.Compare. cbv zeta.
  rewrite (prepare_fuel (S (height src)) n) by lia.
  apply diff_fuel; lia.
Qed.

(** A call of [diff] on an ignored path changes nothing. *)
Lemma diff_ignored fuel d p s t :
  ignored d (ptr_copy p) = true -> diff fuel d p s t = d.
Proof.
  intros Hi. destruct fuel; [reflexivity|]. cbn [Engine.diff]. rewrite Hi.
  destruct (is_nil s && is_nil t); reflexivity.
Qed.

End Fuel.

(** ** The main pass turns the source into the target

    With factorize off and nothing ignored, the operations of the main
    pass apply to the source, and give a document that is related to the
    target by [Q]: deep equality when equivalent is off, and no
    constraint at all when it is on. *)

Section RoundTrip.

Variable digest : value -> Z.
Variable opLength : Operation -> string -> Z.
Variable patchLength : Patch -> string -> Z.

Local Abbreviation diff := (diff digest opLength patchLength).
Local Abbreviation Compare := (Compare digest opLength patchLength).
Local Abbreviation finish := (finish opLength patchLength).

Variable Q : value -> value -> Prop.
Hypothesis Q_equal : forall s t, deepEqual s t = true -> Q s t.
Hypothesis Q_arr : forall rs ys, Forall2 Q rs ys -> Q (VArr rs) (VArr ys).
Hypothesis Q_obj : forall cur tgt,
  NoDup (map fst cur) -> NoDup (map fst tgt) ->
  (forall k, agrees Q tgt cur k) -> Q (VObj cur) (VObj tgt).

Lemma Q_refl v : wf v = true -> Q v v.
Proof. intros H. apply Q_equal, deepEqual_refl, H. Qed.

(** The configurations covered: in equivalence mode [Q] must not
    constrain the result. *)
Definition covered (d : Differ) : Prop :=
  plain d /\ (equivalent (opts d) = true -> forall a b, Q a b).

Lemma covered_frame d d' : same_frame d d' -> covered d -> covered d'.
Proof.
  intros Hf [Hp He]. split; [eapply plain_frame; eauto|].
  destruct Hf as (-> & _). exact He.
Qed.

(** What a call [rec d p src tgt] at the location [ts] achieves, for
    sources of height below [bound]. *)
Definition diff_sound (rec : Differ -> pointer -> value -> value -> Differ)
    (bound : nat) : Prop :=
  forall d p ts s t,
    covered d -> buf p = render ts -> height s < bound ->
    wf s = true -> wf t = true ->
    exists r, reaches d (rec d p s t) ts s r /\ Q r t.

Section Loops.

Variable rec : Differ -> pointer -> value -> value -> Differ.
Variable bound : nat.
Hypothesis rec_sound : diff_sound rec bound.

Variable d0 : Differ.
Variable ts : list string.
Hypothesis d0_covered : covered d0.

(** *** Objects *)

Section Objects.

Variable src tgt : list (string * value).
Hypothesis src_wf : wf (VObj src) = true.
Hypothesis tgt_wf : wf (VObj tgt) = true.
Hypothesis src_height : height (VObj src) <= bound.

(** The object at [ts] once the keys [done] have been visited. *)
Definition visited (done : list string) (cur : list (string * value)) : Prop :=
  NoDup (map fst cur) /\
  (forall k, k ∈ done -> agrees Q tgt cur k) /\
  (forall k, k ∉ done -> obj_lookup k cur = obj_lookup k src).

Lemma agrees_ext cur cur' k :
  obj_lookup k cur' = obj_lookup k cur -> agrees Q tgt cur k -> agrees Q tgt cur' k.
Proof. unfold agrees. intros ->. auto. Qed.

Lemma visited_next done cur cur' k :
  visited done cur -> k ∉ done ->
  NoDup (map fst cur') ->
  agrees Q tgt cur' k ->
  (forall k', k' <> k -> obj_lookup k' cur' = obj_lookup k' cur) ->
  visited (done ++ [k]) cur'.
Proof.
  intros (Hnd & Hdone & Hrest) Hk Hnd' Hag Hoth. split; [exact Hnd'|]. split.
  - intros k' Hin. apply elem_of_app in Hin as [Hin|Hin].
    + apply (agrees_ext cur); [|apply Hdone, Hin].
      apply Hoth. intros ->. contradiction.
    + apply list_elem_of_singleton in Hin as ->. exact Hag.
  - intros k' Hin. rewrite Hoth.
    + apply Hrest. intros H. apply Hin, elem_of_app. auto.
    + intros ->. apply Hin, elem_of_app. right. apply list_elem_of_singleton. reflexivity.
Qed.

Lemma obj_step_sound done d cur k :
  k ∉ done ->
  reaches d0 d ts (VObj src) (VObj cur) ->
  visited done cur ->
  exists cur',
    reaches d0 (obj_step digest rec (render ts) src tgt d k) ts (VObj src) (VObj cur') /\
    visited (done ++ [k]) cur'.
Proof.
  intros Hk Hd Hv.
  pose proof (covered_frame _ _ (proj1 Hd) d0_covered) as Hcov.
  pose proof (proj1 Hcov) as Hplain.
  pose proof Hv as (Hnd & Hdone & Hrest).
  pose proof (Hrest k Hk) as Hcur.
  unfold obj_step. rewrite <- render_snoc.
  destruct (obj_lookup k src) as [s|] eqn:Es; destruct (obj_lookup k tgt) as [t|] eqn:Et.
  - destruct (rec_sound d (mkPointer (render (ts ++ [k])) (String.length (render ts)))
                (ts ++ [k]) s t) as (r & Hr & He).
    + exact Hcov.
    + reflexivity.
    + pose proof (height_obj_member _ _ _ Es). lia.
    + exact (wf_obj_member src k s src_wf Es).
    + exact (wf_obj_member tgt k t tgt_wf Et).
    + exists (obj_set k r cur). split.
      * eapply reaches_trans; [exact Hd|].
        apply (reaches_child d _ ts k (VObj cur) s r); [exact Hcur | exact Hr].
      * apply (visited_next done cur); auto.
        -- rewrite obj_set_keys_present; [exact Hnd|]. unfold has_key. rewrite Hcur. reflexivity.
        -- unfold agrees. rewrite Et. exists r. rewrite obj_lookup_set_same. auto.
        -- intros k' Hne. apply obj_lookup_set_other. exact Hne.
  - rewrite (plain_not_ignored _ _ Hplain).
    exists (obj_del k cur). split.
    + eapply reaches_trans; [exact Hd|].
      apply reaches_remove.
      * exact Hcur.
      * apply deepEqual_refl. exact (wf_obj_member src k s src_wf Es).
      * cbn [remove_member]. rewrite Hcur. reflexivity.
    + apply (visited_next done cur); auto.
      * rewrite obj_del_keys. apply NoDup_filter. exact Hnd.
      * unfold agrees. rewrite Et. apply obj_lookup_del_same.
      * intros k' Hne. apply obj_lookup_del_other. exact Hne.
  - rewrite (plain_not_ignored _ _ Hplain).
    exists (obj_set k t cur). split.
    + eapply reaches_trans; [exact Hd|].
      apply reaches_add; [apply Hplain | reflexivity].
    + apply (visited_next done cur); auto.
      * rewrite obj_set_keys_absent by exact Hcur.
        apply NoDup_app. split; [exact Hnd|]. split; [|apply NoDup_singleton].
        intros x Hx Hx'. apply list_elem_of_singleton in Hx' as ->.
        apply list_elem_of_In in Hx. apply obj_lookup_is_key in Hx as [v Hv'].
        rewrite Hcur in Hv'. discriminate.
      * unfold agrees. rewrite Et. exists t. rewrite obj_lookup_set_same.
        split; [reflexivity|]. apply Q_refl. exact (wf_obj_member tgt k t tgt_wf Et).
      * intros k' Hne. apply obj_lookup_set_other. exact Hne.
  - exists cur. split; [exact Hd|].
    apply (visited_next done cur); auto.
    unfold agrees. rewrite Et. exact Hcur.
Qed.

Lemma obj_loop_sound todo : forall done d cur,
  NoDup (done ++ todo) ->
  reaches d0 d ts (VObj src) (VObj cur) ->
  visited done cur ->
  exists cur',
    reaches d0 (foldl (obj_step digest rec (render ts) src tgt) d todo) ts
      (VObj src) (VObj cur') /\
    visited (done ++ todo) cur'.
Proof.
  induction todo as [|k todo IH]; intros done d cur Hnd Hd Hv.
  - exists cur. rewrite app_nil_r. auto.
  - cbn [foldl].
    assert (k ∉ done) as Hk.
    { apply NoDup_app in Hnd as (_ & Hdis & _). intros Hin.
      apply (Hdis k Hin). left. }
    destruct (obj_step_sound done d cur k Hk Hd Hv) as (cur1 & Hd1 & Hv1).
    destruct (IH (done ++ [k]) (obj_step digest rec (render ts) src tgt d k) cur1)
      as (cur2 & Hd2 & Hv2); auto.
    + rewrite <- app_assoc. exact Hnd.
    + exists cur2. rewrite <- app_assoc in Hv2. auto.
Qed.

Lemma compareObjects_sound d p :
  same_frame d0 d -> patch d = patch d0 -> buf p = render ts ->
  exists r,
    reaches d0 (compareObjects_with digest rec d p src tgt) ts (VObj src) r /\
    Q r (VObj tgt).
Proof.
  intros Hf Hp Hb. rewrite compareObjects_with_fold, Hb.
  destruct (obj_loop_sound (object_keys src tgt) [] d src) as (cur & Hd & Hv).
  - apply object_keys_NoDup.
  - split; [exact Hf|]. exists []. split; [rewrite app_nil_r; exact Hp | apply acts_on_nil].
  - split; [apply wf_obj in src_wf; tauto|]. split; [|reflexivity].
    intros k Hin. inversion Hin.
  - exists (VObj cur). split; [exact Hd|].
    destruct Hv as (Hnd & Hdone & Hrest). cbn [app] in *.
    apply Q_obj; [exact Hnd | apply wf_obj in tgt_wf; tauto|].
    intros k. destruct (decide (k ∈ object_keys src tgt)) as [Hin|Hin]; [apply Hdone, Hin|].
    pose proof (Hrest k Hin) as Hcur.
    rewrite object_keys_elem in Hin. apply not_true_is_false in Hin.
    apply orb_false_iff in Hin as [H1 H2]. unfold has_key in H1, H2. unfold agrees.
    destruct (obj_lookup k tgt); [discriminate|].
    destruct (obj_lookup k src); [discriminate|]. exact Hcur.
Qed.

End Objects.

(** *** Arrays *)

Section Arrays.

Variable xs ys : list value.
Hypothesis xs_wf : wf (VArr xs) = true.
Hypothesis ys_wf : wf (VArr ys) = true.
Hypothesis xs_height : height (VArr xs) <= bound.

Let size : nat := Nat.min (List.length xs) (List.length ys).

Lemma index_path i : render ts +:+ "/" +:+ itoa i = render (ts ++ [itoa i]).
Proof. rewrite render_snoc, escapeKey_itoa. reflexivity. Qed.

Lemma child_index i (l : list value) : child (itoa i) (VArr l) = l !! i.
Proof. cbn [child]. rewrite parse_index_itoa. reflexivity. Qed.

(** The first loop removes the elements past [size], always at the
    index [size]. *)
Lemma arr_remove_loop_sound count : forall j d,
  size + j + count = List.length xs ->
  reaches d0 d ts (VArr xs) (VArr (take size xs ++ drop (size + j) xs)) ->
  reaches d0 (foldl (arr_remove_step (render ts) size xs) d (seq (size + j) count)) ts
    (VArr xs) (VArr (take size xs)).
Proof.
  induction count as [|count IH]; intros j d Hlen Hd.
  - cbn [seq foldl]. rewrite drop_ge, app_nil_r in Hd by lia. exact Hd.
  - cbn [seq foldl].
    pose proof (covered_frame _ _ (proj1 Hd) d0_covered) as Hcov.
  pose proof (proj1 Hcov) as Hplain.
    assert (xs !! (size + j) = Some (nth (size + j) xs VNull)) as Hx
        by (apply nth_lookup_lt; lia).
    assert (List.length (take size xs) = size) as Htake
        by (rewrite length_take; subst size; lia).
    rewrite (drop_S _ _ _ Hx) in Hd.
    replace (S (size + j)) with (size + S j) by lia.
    apply IH; [lia|].
    eapply reaches_trans; [exact Hd|].
    unfold arr_remove_step. rewrite (plain_not_ignored _ _ Hplain), index_path.
    replace (size + S j) with (S (size + j)) by lia.
    apply reaches_remove.
    + rewrite child_index. apply list_lookup_middle. symmetry. exact Htake.
    + apply deepEqual_refl. exact (wf_arr_member xs (size + j) _ xs_wf Hx).
    + cbn [remove_member]. rewrite parse_index_itoa.
      replace (Nat.ltb size _) with true
        by (symmetry; apply Nat.ltb_lt; rewrite length_app, Htake; cbn; lia).
      rewrite <- Htake at 1. rewrite delete_middle. reflexivity.
Qed.

(** The second loop compares the elements below [size], index by index. *)
Lemma arr_diff_loop_sound count : forall j d rs,
  j + count = size -> List.length rs = j ->
  Forall2 Q rs (take j ys) ->
  reaches d0 d ts (VArr xs) (VArr (rs ++ drop j (take size xs))) ->
  exists rs',
    Forall2 Q rs' (take size ys) /\
    reaches d0 (foldl (arr_diff_step rec (render ts) xs ys) d (seq j count)) ts
      (VArr xs) (VArr rs').
Proof.
  induction count as [|count IH]; intros j d rs Hlen Hrs Hall Hd.
  - cbn [seq foldl]. exists rs. replace j with size in * by lia.
    rewrite drop_ge, app_nil_r in Hd by (rewrite length_take; lia). auto.
  - cbn [seq foldl].
    pose proof (covered_frame _ _ (proj1 Hd) d0_covered) as Hcov.
  pose proof (proj1 Hcov) as Hplain.
    assert (xs !! j = Some (nth j xs VNull)) as Hx by (apply nth_lookup_lt; lia).
    assert (ys !! j = Some (nth j ys VNull)) as Hy by (apply nth_lookup_lt; lia).
    assert (take size xs !! j = Some (nth j xs VNull)) as Hx'.
    { rewrite lookup_take. destruct (decide (j < size)); [exact Hx | lia]. }
    rewrite (drop_S _ _ _ Hx') in Hd.
    destruct (rec_sound d (mkPointer (render ts +:+ "/" +:+ itoa j) (String.length (render ts)))
                (ts ++ [itoa j]) (nth j xs VNull) (nth j ys VNull)) as (r & Hr & He).
    + exact Hcov.
    + apply index_path.
    + pose proof (height_arr_member _ _ _ Hx). lia.
    + exact (wf_arr_member xs j _ xs_wf Hx).
    + exact (wf_arr_member ys j _ ys_wf Hy).
    + apply (IH (S j) _ (rs ++ [r])).
      * lia.
      * rewrite length_app. cbn. lia.
      * rewrite (take_S_r _ _ _ Hy). apply Forall2_app; [exact Hall|].
        constructor; [exact He | constructor].
      * eapply reaches_trans; [exact Hd|]. unfold arr_diff_step.
        rewrite <- app_assoc. cbn [app].
        replace (VArr (rs ++ r :: drop (S j) (take size xs)))
          with (set_child (itoa j) r (VArr (rs ++ nth j xs VNull :: drop (S j) (take size xs)))).
        -- apply (reaches_child _ _ ts (itoa j) _ (nth j xs VNull) r); [|exact Hr].
           rewrite child_index. apply list_lookup_middle. symmetry. exact Hrs.
        -- cbn [set_child]. rewrite parse_index_itoa.
           rewrite insert_app_r_alt by lia. rewrite Hrs, Nat.sub_diag. reflexivity.
Qed.

(** The third loop appends the elements of the target past [size]. *)
Lemma arr_add_loop_sound count : forall j d rs,
  size + j + count = List.length ys ->
  reaches d0 d ts (VArr xs) (VArr (rs ++ take j (drop size ys))) ->
  reaches d0
    (fst (foldl (arr_add_step digest (render ts) ys) (d, render ts) (seq (size + j) count)))
    ts (VArr xs) (VArr (rs ++ drop size ys)).
Proof.
  induction count as [|count IH]; intros j d rs Hlen Hd.
  - cbn [seq foldl fst]. rewrite take_ge in Hd by (rewrite length_drop; lia). exact Hd.
  - cbn [seq foldl].
    pose proof (covered_frame _ _ (proj1 Hd) d0_covered) as Hcov.
  pose proof (proj1 Hcov) as Hplain.
    unfold arr_add_step at 2. cbn [fst snd].
    rewrite (plain_not_ignored _ _ Hplain).
    replace (S (size + j)) with (size + S j) by lia.
    apply IH; [lia|].
    eapply reaches_trans; [exact Hd|].
    assert (ys !! (size + j) = Some (nth (size + j) ys VNull)) as Hy
        by (apply nth_lookup_lt; lia).
    rewrite (take_S_r _ _ (nth (size + j) ys VNull))
      by (rewrite lookup_drop; exact Hy).
    change (render ts +:+ "/-") with (render ts +:+ "/" +:+ escapeKey "-").
    rewrite <- render_snoc.
    apply reaches_add; [apply Hplain|].
    cbn [add_member]. rewrite app_assoc. reflexivity.
Qed.

Lemma compareArrays_sound d p :
  same_frame d0 d -> patch d = patch d0 -> buf p = render ts ->
  exists r,
    reaches d0 (compareArrays_with digest rec d p xs ys) ts (VArr xs) r /\
    Q r (VArr ys).
Proof.
  intros Hf Hp Hb. rewrite compareArrays_with_fold, Hb. cbv zeta.
  rewrite min_is_min. fold size.
  assert (reaches d0 d ts (VArr xs) (VArr xs)) as Hd.
  { split; [exact Hf|]. exists []. split; [rewrite app_nil_r; exact Hp | apply acts_on_nil]. }
  set (d1 := if Nat.ltb size (List.length xs) then _ else d).
  assert (reaches d0 d1 ts (VArr xs) (VArr (take size xs))) as Hd1.
  { subst d1. destruct (Nat.ltb_spec size (List.length xs)) as [Hlt|Hge].
    - pose proof (arr_remove_loop_sound (List.length xs - size) 0 d
                    ltac:(lia)
                    ltac:(rewrite Nat.add_0_r, take_drop; exact Hd)) as H1.
      rewrite Nat.add_0_r in H1. exact H1.
    - rewrite take_ge by lia. exact Hd. }
  pose proof (covered_frame _ _ (proj1 Hd1) d0_covered) as [_ Hequiv].
  destruct (equivalent (opts d1) && unorderedDeepEqualSlice digest d1 xs ys) eqn:Hskip.
  { apply andb_true_iff in Hskip as [He Hu].
    apply unorderedDeepEqualSlice_length in Hu.
    exists (VArr xs). split.
    - replace (List.length ys - size) with 0 by (subst size; lia).
      cbn [seq foldl fst]. rewrite take_ge in Hd1 by (subst size; lia). exact Hd1.
    - apply Hequiv, He. }
  destruct (arr_diff_loop_sound size 0 d1 []) as (rs & Hall & Hd2).
  - lia.
  - reflexivity.
  - rewrite take_0. constructor.
  - rewrite drop_0. exact Hd1.
  - exists (VArr (rs ++ drop size ys)). split.
    + pose proof (arr_add_loop_sound (List.length ys - size) 0 _ rs
                    ltac:(subst size; lia)
                    ltac:(rewrite take_0, app_nil_r; exact Hd2)) as H3.
      rewrite Nat.add_0_r in H3. exact H3.
    + apply Q_arr. rewrite <- (take_drop size ys) at 2.
      apply Forall2_app; [exact Hall|].
      apply wf_arr in ys_wf. apply (Forall_drop _ size) in ys_wf.
      induction ys_wf as [|y l Hy _ IH]; constructor; [apply Q_refl, Hy | exact IH].
Qed.

End Arrays.

End Loops.

(** The operations that [rationalizeLastOps] substitutes. *)
Lemma finish_sound d d' p ts s t r :
  buf p = render ts -> wf s = true -> wf t = true ->
  reaches d d' ts s r -> Q r t ->
  exists r', reaches d (finish d d' p s t) ts s r' /\ Q r' t.
Proof.
  intros Hb Hs Ht Hd He. unfold Engine.finish.
  destruct (_ && _); [|eauto].
  unfold rationalizeLastOps. destruct (Z.ltb _ _); [|eauto].
  exists t. split; [|apply Q_refl, Ht].
  destruct Hd as [Hf (E & HE & _)].
  split; [exact Hf|].
  exists ((if invertible (opts d') then [mkOp OperationTest emptyPtr (render ts) VNull s] else [])
          ++ [mkOp OperationReplace "" (render ts) VNull t]).
  split.
  - cbn [patch with_patch]. rewrite HE, take_app_length.
    unfold ptr_copy, Patch_append. rewrite Hb.
    destruct (invertible (opts d')); reflexivity.
  - apply acts_on_guarded; [apply deepEqual_refl, Hs | apply acts_on_replace].
Qed.

Lemma diff_is_sound n : diff_sound (diff n) n.
Proof.
  induction n as [|n IH]; intros d p ts s t Hcov Hb Hh Hs Ht; [lia|].
  pose proof (proj1 Hcov) as Hplain.
  cbn [Engine.diff].
  destruct (is_nil s && is_nil t) eqn:Hnil.
  { exists s. split; [apply reaches_refl|].
    destruct s; try discriminate. destruct t; try discriminate. apply Q_equal. reflexivity. }
  unfold ptr_copy. rewrite (plain_not_ignored _ _ Hplain).
  destruct (negb (areComparable s t)).
  { exists t. split; [|apply Q_refl, Ht].
    destruct (isRoot p) eqn:Hroot.
    - unfold isRoot in Hroot. apply Nat.eqb_eq in Hroot. rewrite Hb in Hroot.
      apply render_nil_iff in Hroot. subst ts. rewrite Hb.
      split; [repeat split|]. eexists. split; [reflexivity|].
      intros D HD. reflexivity.
    - rewrite Hb. apply reaches_replace, deepEqual_refl, Hs. }
  unfold deepValueEqual.
  destruct (deepEqual s t) eqn:He.
  { exists s. split; [apply reaches_refl | apply Q_equal, He]. }
  cbn [negb].
  assert (exists r, reaches d (replace d (buf p) s t) ts s r /\ Q r t) as Hrep.
  { exists t. split; [|apply Q_refl, Ht].
    rewrite Hb. apply reaches_replace, deepEqual_refl, Hs. }
  destruct s; try exact Hrep; destruct t; try exact Hrep.
  - destruct (compareArrays_sound (diff n) n IH d ts Hcov xs xs0 Hs Ht ltac:(lia) d p)
      as (r & Hr & Hre); [apply same_frame_refl | reflexivity | exact Hb|].
    apply (finish_sound d _ p ts (VArr xs) (VArr xs0) r); auto.
  - destruct (compareObjects_sound (diff n) n IH d ts Hcov kvs kvs0 Hs Ht ltac:(lia) d p)
      as (r & Hr & Hre); [apply same_frame_refl | reflexivity | exact Hb|].
    apply (finish_sound d _ p ts (VObj kvs) (VObj kvs0) r); auto.
Qed.

(** The operations that one comparison adds to the patch apply to its
    source. *)
Lemma Compare_applies (d : Differ) (A B : value) :
  covered d -> buf (ptr d) = "" -> wf A = true -> wf B = true ->
  exists ops A',
    patch (Compare d A B) = patch d ++ ops /\
    apply_patch ops A = Some A' /\ Q A' B.
Proof.
  intros Hcov Hroot HA HB. unfold Engine.Compare.
  destruct (proj1 Hcov) as (Hf & _). rewrite Hf.
  destruct (diff_is_sound (S (height A)) d (ptr d) [] A B) as (r & [_ (E & HE & Hact)] & Hr);
    auto.
  exists E, r. split; [exact HE|]. split; [|exact Hr].
  rewrite (Hact A); reflexivity.
Qed.

End RoundTrip.

(** With equivalent off as well, the result is deeply equal to the
    target. *)
Lemma Compare_sound digest opLength patchLength (d : Differ) (A B : value) :
  plain d -> equivalent (opts d) = false -> buf (ptr d) = "" ->
  wf A = true -> wf B = true ->
  exists ops A',
    patch (Compare digest opLength patchLength d A B) = patch d ++ ops /\
    apply_patch ops A = Some A' /\ deepEqual A' B = true.
Proof.
  intros Hp He. apply (Compare_applies digest opLength patchLength deeply_equal).
  - auto.
  - intros rs ys H. apply deepEqual_arr. exact H.
  - intros cur tgt. apply deepEqual_obj_agrees.
  - split; [exact Hp|]. rewrite He. discriminate.
Qed.

(** With equivalent in any setting, the operations still apply. *)
Lemma Compare_patch_applies digest opLength patchLength (d : Differ) (A B : value) :
  plain d -> buf (ptr d) = "" -> wf A = true -> wf B = true ->
  exists ops A',
    patch (Compare digest opLength patchLength d A B) = patch d ++ ops /\
    apply_patch ops A = Some A'.
Proof.
  intros Hp Hr HA HB.
  destruct (Compare_applies digest opLength patchLength (fun _ _ => True)) with (d := d) (A := A) (B := B)
    as (ops & A' & H1 & H2 & _); auto.
  - split; [exact Hp | auto].
  - eauto.
Qed.

(** ** Round trip *)

(** C1. With factorize and equivalent off and no ignored path, for every
    source and target and every setting of rationalize and invertible,
    applying the patch of [Compare(A, B)] in order to [A] succeeds and
    yields a document deeply equal to [B]. *)
Theorem Compare_round_trip digest opLength patchLength (o : options) (A B : value) :
  factorize o = false -> equivalent o = false -> ignores o = ∅ ->
  wf A = true -> wf B = true ->
  exists A',
    apply_patch (patch (Compare digest opLength patchLength (newDiffer o) A B)) A = Some A' /\
    deepEqual A' B = true.
Proof.
  intros Hf He Hi HA HB.
  destruct (Compare_sound digest opLength patchLength (newDiffer o) A B)
    as (ops & A' & Hp & Happ & Heq); auto.
  - split; assumption.
  - exists A'. rewrite Hp. auto.
Qed.

Lemma Compare_round_trip_witness :
  exists A',
    apply_patch
      (patch (Compare_model (newDiffer (mkOptions false true true false ∅))
                doc_sample (VObj [("b", VArr [VNum 2]); ("d", VNull)])))
      doc_sample = Some A' /\
    deepEqual A' (VObj [("b", VArr [VNum 2]); ("d", VNull)]) = true.
Proof.
  apply (Compare_round_trip digest_model opLength_model patchLength_model); reflexivity.
Defined.

Definition opts_equivalent : options := mkOptions false false false true ∅.

(** In equivalence mode a reordered array gives the empty patch, which
    leaves the source as it is. *)
Lemma Compare_round_trip_counterexample :
  ~ (forall (o : options) (A B : value),
       ignores o = ∅ -> wf A = true -> wf B = true ->
       exists A',
         apply_patch (patch (Compare_model (newDiffer o) A B)) A = Some A' /\
         deepEqual A' B = true).
Proof.
  intros H.
  destruct (H opts_equivalent (VArr arr_123) (VArr arr_321)) as (A' & Happ & Heq);
    try reflexivity.
  vm_compute in Happ. injection Happ as <-. vm_compute in Heq. discriminate.
Qed.

(** With factorize on, the patch of [Compare({"a":1}, {"ab":1})] only
    removes [/a]; and the move that replaces the first of two removes at
    one array index carries the wrong element. *)
Lemma Compare_factorize_breaks_round_trip :
  apply_patch (patch (Compare_model (newDiffer opts_factorize)
                        (VObj [("a", VNum 1)]) (VObj [("ab", VNum 1)])))
              (VObj [("a", VNum 1)]) = Some (VObj []) /\
  apply_patch (patch (Compare_model (newDiffer opts_factorize)
                        (VObj [("a", VArr [VNum 1; VNum 2; VNum 8; VNum 9])])
                        (VObj [("a", VArr [VNum 1; VNum 2]); ("b", VNum 8)])))
              (VObj [("a", VArr [VNum 1; VNum 2; VNum 8; VNum 9])])
  = Some (VObj [("a", VArr [VNum 1; VNum 2]); ("b", VNum 9)]).
Proof. split; vm_compute; reflexivity. Qed.

(** ** Invertible patches *)

Definition needs_test (op : Operation) : bool :=
  match Type_ op with
  | OperationRemove | OperationReplace => true
  | _ => false
  end.

Definition is_test_for (t op : Operation) : bool :=
  OpType_eqb (Type_ t) OperationTest && String.eqb (Path t) (Path op).

Definition is_copy (op : Operation) : bool := OpType_eqb (Type_ op) OperationCopy.

(** Every remove and replace of [l] comes right after a test of its
    path, [prev] being the operation before [l]; and [l] has no copy. *)
Fixpoint guarded_from (prev : option Operation) (l : Patch) : bool :=
  match l with
  | [] => true
  | op :: r =>
      (if needs_test op
       then match prev with Some t => is_test_for t op | None => false end
       else true)
      && negb (is_copy op) && guarded_from (Some op) r
  end.

Definition guarded (l : Patch) : bool := guarded_from None l.

Definition last_or (prev : option Operation) (l : Patch) : option Operation :=
  match last l with Some x => Some x | None => prev end.

Lemma guarded_from_app prev l1 l2 :
  guarded_from prev (l1 ++ l2)
  = guarded_from prev l1 && guarded_from (last_or prev l1) l2.
Proof.
  revert prev. induction l1 as [|op l1 IH]; intros prev; [reflexivity|].
  cbn [app guarded_from]. rewrite IH, <- !andb_assoc.
  f_equal. f_equal. f_equal.
  unfold last_or. destruct l1 as [|o l1]; [reflexivity|].
  change (last (op :: o :: l1)) with (last (o :: l1)).
  destruct (last (o :: l1)) eqn:E; [reflexivity|].
  apply last_None in E. discriminate.
Qed.

Lemma guarded_take n l : guarded l = true -> guarded (take n l) = true.
Proof.
  unfold guarded. intros H. rewrite <- (take_drop n l), guarded_from_app in H.
  apply andb_true_iff in H. tauto.
Qed.

(** After an operation that is no test, what comes before is
    indifferent. *)
Lemma guarded_from_after_other x prev l :
  OpType_eqb (Type_ x) OperationTest = false ->
  guarded_from (Some x) l = true -> guarded_from prev l = true.
Proof.
  intros Hx. destruct l as [|op r]; [reflexivity|]. cbn [guarded_from].
  unfold is_test_for. rewrite Hx. cbn [andb].
  destruct (needs_test op); [discriminate | destruct prev; auto].
Qed.

Lemma guarded_from_delete prev l idx op :
  l !! idx = Some op -> Type_ op = OperationRemove ->
  guarded_from prev l = true -> guarded_from prev (delete idx l) = true.
Proof.
  revert prev idx. induction l as [|x l IH]; intros prev idx Hl Hop Hg; [discriminate|].
  destruct idx as [|idx]; cbn in Hl.
  - injection Hl as ->. cbn [delete list_delete].
    cbn [guarded_from] in Hg. apply andb_true_iff in Hg as [_ Hg].
    eapply guarded_from_after_other; [|exact Hg]. rewrite Hop. reflexivity.
  - cbn [guarded_from] in Hg |- *. change (delete (S idx) (x :: l)) with (x :: delete idx l).
    cbn [guarded_from].
    apply andb_true_iff in Hg as [Hg1 Hg2]. rewrite Hg1. cbn [andb].
    eapply IH; eauto.
Qed.

Lemma guarded_snoc l op :
  needs_test op = false -> is_copy op = false ->
  guarded l = true -> guarded (l ++ [op]) = true.
Proof.
  intros H1 H2 Hg. unfold guarded in *. rewrite guarded_from_app, Hg.
  cbn. rewrite H1, H2. reflexivity.
Qed.

Lemma guarded_snoc_test l path v op :
  Path op = path -> is_copy op = false ->
  guarded l = true -> guarded (l ++ [op_test path v; op]) = true.
Proof.
  intros H1 H2 Hg. unfold guarded in *. rewrite guarded_from_app, Hg.
  cbn. unfold is_test_for. cbn. rewrite H1, H2, String.eqb_refl.
  destruct (needs_test op); reflexivity.
Qed.

Lemma findRemoved_from_spec i p v idx :
  findRemoved_from i p v = Some idx ->
  exists op, p !! (idx - i) = Some op /\ i <= idx /\ Type_ op = OperationRemove /\
             deepEqual (OldValue op) v = true.
Proof.
  revert i. induction p as [|op p IH]; intros i; cbn [findRemoved_from]; [discriminate|].
  destruct (OpType_eqb (Type_ op) OperationRemove && deepEqual (OldValue op) v) eqn:E.
  - intros [= <-]. exists op. rewrite Nat.sub_diag.
    apply andb_true_iff in E as [E1 E2].
    repeat split; auto. destruct (Type_ op); try discriminate; reflexivity.
  - intros H. destruct (IH _ H) as (op' & H1 & H2 & H3 & H4).
    exists op'. replace (idx - i) with (S (idx - S i)) by lia.
    split; [exact H1|]. split; [lia|]. split; assumption.
Qed.

Lemma findRemoved_spec d v idx :
  findRemoved d v = Some idx ->
  patch d !! idx = Some (nth idx (patch d) zeroOp) /\
  Type_ (nth idx (patch d) zeroOp) = OperationRemove /\
  deepEqual (OldValue (nth idx (patch d) zeroOp)) v = true.
Proof.
  intros H. apply findRemoved_from_spec in H as (op & H1 & _ & H2 & H3).
  rewrite Nat.sub_0_r in H1.
  assert (nth idx (patch d) zeroOp = op) as ->.
  { apply nth_lookup_Some with (d := zeroOp) in H1. exact H1. }
  auto.
Qed.

Section Invertible.

Variable digest : value -> Z.
Variable opLength : Operation -> string -> Z.
Variable patchLength : Patch -> string -> Z.

Local Abbreviation diff := (diff digest opLength patchLength).
Local Abbreviation Compare := (Compare digest opLength patchLength).

Definition keeps_guarded (d d' : Differ) : Prop :=
  same_frame d d' /\
  (invertible (opts d) = true -> guarded (patch d) = true -> guarded (patch d') = true).

Lemma keeps_guarded_trans d1 d2 d3 :
  keeps_guarded d1 d2 -> keeps_guarded d2 d3 -> keeps_guarded d1 d3.
Proof.
  intros [F1 H1] [F2 H2]. split; [eapply same_frame_trans; eauto|].
  intros Hi Hg. apply H2; [destruct F1 as (-> & _); exact Hi | auto].
Qed.

Lemma add_keeps_guarded d p v : keeps_guarded d (add digest d p v).
Proof.
  split; [apply add_frame|]. intros Hi Hg. unfold Engine.add.
  destruct (negb (factorize (opts d))).
  { apply guarded_snoc; auto. }
  destruct (findRemoved d v) as [idx|] eqn:Hr.
  - destruct (findRemoved_spec _ _ _ Hr) as (H1 & H2 & _).
    destruct (negb _); [|exact Hg].
    cbn [patch with_patch]. unfold Patch_append, Patch_remove.
    apply guarded_snoc; auto. unfold guarded.
    eapply guarded_from_delete; eauto.
  - rewrite Hi. rewrite andb_false_r. apply guarded_snoc; auto.
Qed.

Lemma remove_keeps_guarded d p v : keeps_guarded d (remove d p v).
Proof.
  split; [apply remove_frame|]. intros Hi Hg.
  rewrite remove_patch. unfold remove_ops. rewrite Hi.
  apply guarded_snoc_test; auto.
Qed.

Lemma replace_keeps_guarded d p s t : keeps_guarded d (replace d p s t).
Proof.
  split; [apply replace_frame|]. intros Hi Hg.
  rewrite replace_patch. unfold replace_ops. rewrite Hi.
  apply guarded_snoc_test; auto.
Qed.

Lemma diff_keeps_guarded fuel d p s t : keeps_guarded d (diff fuel d p s t).
Proof.
  apply diff_closed.
  - intros d0. split; [apply same_frame_refl | auto].
  - apply keeps_guarded_trans.
  - apply add_keeps_guarded.
  - apply remove_keeps_guarded.
  - apply replace_keeps_guarded.
  - intros d0 p0 s0 t0. split; [repeat split|]. intros _ Hg.
    apply guarded_snoc; auto.
  - intros d0 d1 p0 s0 t0 [F H]. unfold Engine.finish.
    destruct (_ && _); [|split; assumption].
    split; [eapply same_frame_trans; [exact F | apply rationalizeLastOps_frame]|].
    intros Hi Hg. unfold rationalizeLastOps.
    destruct (Z.ltb _ _); [|auto].
    cbn [patch with_patch]. destruct F as (-> & _). rewrite Hi.
    apply guarded_snoc_test; auto. apply guarded_take. auto.
Qed.

Lemma Compare_guarded d A B :
  invertible (opts d) = true -> guarded (patch d) = true ->
  guarded (patch (Compare d A B)) = true.
Proof.
  intros Hi Hg. unfold Engine.Compare.
  set (d1 := if factorize (opts d) then _ else d).
  assert (patch d1 = patch d /\ same_frame d d1) as [Hp (Ho & _)].
  { subst d1. destruct (factorize _); [apply prepare_patch | split; [reflexivity | apply same_frame_refl]]. }
  apply diff_keeps_guarded; [rewrite Ho; exact Hi | rewrite Hp; exact Hg].
Qed.

End Invertible.

(** The three parts of an invertible patch: a test of the same path
    stands right before every remove and replace; the value of that test
    is the value found at the path when the operations before it have
    been applied to the source; there is no copy. *)

Definition test_precedes (p : Patch) : Prop :=
  forall pre op post,
    p = pre ++ op :: post -> needs_test op = true ->
    exists pre' t, pre = pre' ++ [t] /\ Type_ t = OperationTest /\ Path t = Path op.

Definition test_holds (A : value) (p : Patch) : Prop :=
  forall pre t op post,
    p = pre ++ t :: op :: post -> needs_test op = true ->
    exists D ts v,
      apply_patch pre A = Some D /\ parse_pointer (Path op) = Some ts /\
      get D ts = Some v /\ deepEqual v (Value t) = true.

Definition no_copy (p : Patch) : Prop :=
  forall op, op ∈ p -> Type_ op <> OperationCopy.

Lemma guarded_test_precedes p : guarded p = true -> test_precedes p.
Proof.
  intros Hg pre op post -> Hop. unfold guarded in Hg.
  rewrite guarded_from_app in Hg. apply andb_true_iff in Hg as [_ Hg].
  cbn [guarded_from] in Hg. rewrite Hop in Hg.
  unfold last_or in Hg. destruct (last pre) as [t|] eqn:El; [|discriminate].
  apply last_Some in El as [pre' ->].
  exists pre', t. split; [reflexivity|].
  apply andb_true_iff in Hg as [Hg _]. apply andb_true_iff in Hg as [Hg _].
  unfold is_test_for in Hg. apply andb_true_iff in Hg as [H1 H2].
  apply String.eqb_eq in H2. split; [|exact H2].
  destruct (Type_ t); try discriminate; reflexivity.
Qed.

Lemma guarded_no_copy p : guarded p = true -> no_copy p.
Proof.
  intros Hg op Hin. apply list_elem_of_split in Hin as (pre & post & ->).
  unfold guarded in Hg. rewrite guarded_from_app in Hg.
  apply andb_true_iff in Hg as [_ Hg]. cbn [guarded_from] in Hg.
  apply andb_true_iff in Hg as [Hg _]. apply andb_true_iff in Hg as [_ Hg].
  unfold is_copy in Hg. intros E. rewrite E in Hg. discriminate.
Qed.

Lemma applied_test_holds A p A' :
  test_precedes p -> apply_patch p A = Some A' -> test_holds A p.
Proof.
  intros Hpre Happ pre t op post -> Hop.
  destruct (Hpre (pre ++ [t]) op post) as (pre' & t' & E & Ht & Hpath);
    [rewrite <- app_assoc; reflexivity | exact Hop|].
  apply app_inj_tail in E as [_ <-].
  rewrite apply_patch_app in Happ.
  destruct (apply_patch pre A) as [D|]; [|discriminate].
  cbn [apply_patch] in Happ.
  destruct (apply_op t D) as [D1|] eqn:Et; [|discriminate].
  unfold apply_op in Et. rewrite Hpath, Ht in Et.
  destruct (parse_pointer (Path op)) as [ts|]; [|discriminate].
  destruct (get D ts) as [v|] eqn:Eg; [|discriminate].
  destruct (deepEqual v (Value t)) eqn:Ev; [|discriminate].
  exists D, ts, v. auto.
Qed.

(** What does hold: with invertible set, in the patch of [Compare] every
    remove and every replace comes right after a test of the same path,
    and there is no copy; with factorize off and no ignored path, the
    value of that test is the value at the path when the operation is
    applied. *)
Theorem Compare_invertible digest opLength patchLength (o : options) (A B : value) :
  invertible o = true ->
  test_precedes (patch (Compare digest opLength patchLength (newDiffer o) A B)) /\
  no_copy (patch (Compare digest opLength patchLength (newDiffer o) A B)) /\
  (factorize o = false -> ignores o = ∅ -> wf A = true -> wf B = true ->
   test_holds A (patch (Compare digest opLength patchLength (newDiffer o) A B))).
Proof.
  intros Hi.
  assert (guarded (patch (Compare digest opLength patchLength (newDiffer o) A B)) = true) as Hg.
  { apply Compare_guarded; [exact Hi | reflexivity]. }
  split; [apply guarded_test_precedes, Hg|]. split; [apply guarded_no_copy, Hg|].
  intros Hf Hig HA HB.
  destruct (Compare_patch_applies digest opLength patchLength (newDiffer o) A B)
    as (ops & A' & Hp & Happ); auto.
  - split; assumption.
  - cbn [patch newDiffer app] in Hp. rewrite Hp in *.
    eapply applied_test_holds; [apply guarded_test_precedes, Hg | exact Happ].
Qed.

Lemma Compare_invertible_witness :
  let p := patch (Compare_model (newDiffer (mkOptions false true true true ∅))
                    doc_sample (VObj [("b", VArr [VNum 2]); ("d", VNull)])) in
  test_precedes p /\ no_copy p /\ test_holds doc_sample p.
Proof.
  cbv zeta.
  destruct (Compare_invertible digest_model opLength_model patchLength_model
              (mkOptions false true true true ∅)
              doc_sample (VObj [("b", VArr [VNum 2]); ("d", VNull)]) eq_refl)
    as (H1 & H2 & H3).
  split; [exact H1|]. split; [exact H2|]. apply H3; reflexivity.
Defined.

Definition opts_factorize_invertible : options := mkOptions true false true false ∅.

Definition doc_removals : value := VObj [("a", VArr [VNum 1; VNum 2; VNum 8; VNum 9])].
Definition doc_moved : value := VObj [("a", VArr [VNum 1; VNum 2]); ("b", VNum 8)].

Lemma Compare_removals_moved :
  patch (Compare_model (newDiffer opts_factorize_invertible) doc_removals doc_moved)
  = [op_test "/a/2" (VNum 8); op_test "/a/2" (VNum 9);
     op_remove "/a/2" (VNum 9); op_move "/a/2" "/b" (VNum 8)].
Proof. vm_compute. reflexivity. Qed.

(** With factorize on, the remove that became a move leaves its test
    behind, and the test in front of the next remove expects the element
    that is removed after it. *)
Lemma Compare_invertible_counterexample :
  ~ (forall (o : options) (A B : value),
       invertible o = true -> wf A = true -> wf B = true ->
       test_precedes (patch (Compare_model (newDiffer o) A B)) /\
       no_copy (patch (Compare_model (newDiffer o) A B)) /\
       test_holds A (patch (Compare_model (newDiffer o) A B))).
Proof.
  intros H.
  destruct (H opts_factorize_invertible doc_removals doc_moved) as (_ & _ & Hh);
    try reflexivity.
  rewrite Compare_removals_moved in Hh.
  destruct (Hh [op_test "/a/2" (VNum 8)] (op_test "/a/2" (VNum 9))
               (op_remove "/a/2" (VNum 9)) [op_move "/a/2" "/b" (VNum 8)])
    as (D & ts & v & HD & Hts & Hv & He); try reflexivity.
  vm_compute in HD. injection HD as <-.
  vm_compute in Hts. injection Hts as <-.
  vm_compute in Hv. injection Hv as <-.
  vm_compute in He. discriminate.
Qed.

(** With an ignored index among the removed elements of an array, the
    test in front of a remove expects the element at the ignored index's
    successor, while the remove still meets the ignored element. *)
Lemma Compare_invertible_ignored_removal :
  patch (Compare_model (newDiffer (mkOptions false false true false {["/1"]}))
           (VArr arr_123) (VArr [VNum 1]))
  = [op_test "/1" (VNum 3); op_remove "/1" (VNum 3)] /\
  apply_patch [op_test "/1" (VNum 3)] (VArr arr_123) = None.
Proof. split; vm_compute; reflexivity. Qed.

(** C4. With invertible set, a test can expect a value that is not at its
    path.  With factorize, [Compare({"a":[1,2,8,9]}, {"a":[1,2],"b":8})]
    gives [test /a/2 8; test /a/2 9; remove /a/2; move /a/2 -> /b]: [add]
    deleted the remove that it turned into a move and left its test, and
    the test in front of the remaining remove expects 9 where the source
    holds 8.  With the path [/1] ignored, [Compare([1,2,3], [1])] gives
    [test /1 3; remove /1]: the removal index is fixed, and the test
    expects 3 where the source holds 2.  Neither patch applies to its own
    source.  This holds for every hasher and cost function. *)
Theorem Compare_invertible_test_of_wrong_value
    (digest : value -> Z) (opLength : Operation -> string -> Z)
    (patchLength : Patch -> string -> Z) :
  let p := patch (Compare digest opLength patchLength
                    (newDiffer opts_factorize_invertible) doc_removals doc_moved) in
  let q := patch (Compare digest opLength patchLength
                    (newDiffer (mkOptions false false true false {["/1"]}))
                    (VArr arr_123) (VArr [VNum 1])) in
  p = [op_test "/a/2" (VNum 8); op_test "/a/2" (VNum 9);
       op_remove "/a/2" (VNum 9); op_move "/a/2" "/b" (VNum 8)] /\
  ~ test_holds doc_removals p /\
  apply_patch p doc_removals = None /\
  q = [op_test "/1" (VNum 3); op_remove "/1" (VNum 3)] /\
  ~ test_holds (VArr arr_123) q /\
  apply_patch q (VArr arr_123) = None.
Proof.
  cbv zeta.
  assert (patch (Compare digest opLength patchLength
                   (newDiffer opts_factorize_invertible) doc_removals doc_moved)
          = [op_test "/a/2" (VNum 8); op_test "/a/2" (VNum 9);
             op_remove "/a/2" (VNum 9); op_move "/a/2" "/b" (VNum 8)]) as Hp
    by (vm_compute; reflexivity).
  assert (patch (Compare digest opLength patchLength
                   (newDiffer (mkOptions false false true false {["/1"]}))
                   (VArr arr_123) (VArr [VNum 1]))
          = [op_test "/1" (VNum 3); op_remove "/1" (VNum 3)]) as Hq
    by (vm_compute; reflexivity).
  rewrite Hp, Hq.
  split; [reflexivity|]. split.
  { intros Hh.
    destruct (Hh [op_test "/a/2" (VNum 8)] (op_test "/a/2" (VNum 9))
                 (op_remove "/a/2" (VNum 9)) [op_move "/a/2" "/b" (VNum 8)])
      as (D & ts & v & HD & Hts & Hv & He); try reflexivity.
    vm_compute in HD. injection HD as <-.
    vm_compute in Hts. injection Hts as <-.
    vm_compute in Hv. injection Hv as <-.
    vm_compute in He. discriminate. }
  split; [vm_compute; reflexivity|].
  split; [reflexivity|]. split.
  { intros Hh.
    destruct (Hh [] (op_test "/1" (VNum 3)) (op_remove "/1" (VNum 3)) [])
      as (D & ts & v & HD & Hts & Hv & He); try reflexivity.
    vm_compute in HD. injection HD as <-.
    vm_compute in Hts. injection Hts as <-.
    vm_compute in Hv. injection Hv as <-.
    vm_compute in He. discriminate. }
  vm_compute. reflexivity.
Qed.

(** ** No location is moved or copied into its own descendant *)

Definition relocates (op : Operation) : bool :=
  match Type_ op with OperationMove | OperationCopy => true | _ => false end.

(** The path of [op] continues its [from] path below a [/]. *)
Definition into_descendant (op : Operation) : Prop :=
  exists rest, Path op = From op +:+ "/" +:+ rest.

Definition no_self_descent (p : Patch) : Prop :=
  forall op, op ∈ p -> relocates op = true -> ~ into_descendant op.

Lemma no_self_descent_app p1 p2 :
  no_self_descent p1 -> no_self_descent p2 -> no_self_descent (p1 ++ p2).
Proof. intros H1 H2 op Hin. apply elem_of_app in Hin as [Hin|Hin]; auto. Qed.

Lemma no_self_descent_sub p1 p2 :
  (forall op, op ∈ p2 -> op ∈ p1) -> no_self_descent p1 -> no_self_descent p2.
Proof. intros Hsub H op Hin. apply H, Hsub, Hin. Qed.

Lemma no_self_descent_plain (l : Patch) :
  Forall (fun op => relocates op = false) l -> no_self_descent l.
Proof.
  intros H op Hin Hr. rewrite Forall_forall in H. rewrite (H op Hin) in Hr. discriminate.
Qed.

(** Deep equality goes down to the members. *)
Lemma deepEqual_child t a b a' b' :
  deepEqual a b = true -> child t a = Some a' -> child t b = Some b' ->
  deepEqual a' b' = true.
Proof.
  intros He Ha Hb. destruct a, b; try discriminate; cbn [child] in Ha, Hb; try discriminate.
  - apply deepEqual_arr in He. destruct (parse_index t) as [i|]; [|discriminate].
    eapply Forall2_lookup_lr in He; eauto.
  - apply deepEqual_obj in He as [_ He]. rewrite List.Forall_forall in He.
    destruct (He (t, a') (obj_lookup_Some_In _ _ _ Ha)) as (v2 & H1 & H2).
    cbn [fst snd] in *. rewrite Hb in H1. injection H1 as <-. exact H2.
Qed.

Lemma deepEqual_get r : forall a b a' b',
  deepEqual a b = true -> get a r = Some a' -> get b r = Some b' ->
  deepEqual a' b' = true.
Proof.
  induction r as [|t r IH]; intros a b a' b' He Ha Hb; cbn [get] in Ha, Hb.
  - injection Ha as <-. injection Hb as <-. exact He.
  - destruct (child t a) as [ca|] eqn:Ea; [|discriminate].
    destruct (child t b) as [cb|] eqn:Eb; [|discriminate].
    eapply IH; [|exact Ha | exact Hb]. eapply deepEqual_child; eauto.
Qed.

Lemma wf_child t a a' : wf a = true -> child t a = Some a' -> wf a' = true.
Proof.
  intros Hwf Hc. destruct a; cbn [child] in Hc; try discriminate.
  - destruct (parse_index t); [|discriminate]. eapply wf_arr_member; eauto.
  - eapply wf_obj_member; eauto.
Qed.

Section Descent.

Variable digest : value -> Z.
Variable opLength : Operation -> string -> Z.
Variable patchLength : Patch -> string -> Z.

Local Abbreviation diff := (diff digest opLength patchLength).
Local Abbreviation prepare := (prepare digest).
Local Abbreviation Compare := (Compare digest opLength patchLength).
Local Abbreviation finish := (finish opLength patchLength).

(** The documents being compared. *)
Variable A B : value.

(** An entry of the hash index names a location where source and target
    are deeply equal. *)
Definition unchanged_at (path : string) : Prop :=
  exists q a b,
    path = render q /\ get A q = Some a /\ get B q = Some b /\ deepEqual a b = true.

Definition index_ok (h : gmap Z jsonNode) : Prop :=
  forall k node, h !! k = Some node -> unchanged_at (node_ptr node).

Lemma prepare_index_ok fuel : forall d p q a b,
  buf p = render q -> get A q = Some a -> get B q = Some b -> wf a = true ->
  index_ok (hashmap d) -> index_ok (hashmap (prepare fuel d p a b)).
Proof.
  induction fuel as [|n IH]; intros d p q a b Hb Ha HB Hwf Hok; [exact Hok|].
  cbn [Engine.prepare].
  destruct (is_nil a && is_nil b); [exact Hok|].
  destruct (negb (areComparable a b)); [exact Hok|].
  unfold deepValueEqual. destruct (deepEqual a b) eqn:He.
  { cbn [hashmap with_hashmap]. intros k node Hk.
    destruct (decide (digest b = k)) as [<-|Hne].
    - rewrite lookup_insert_eq in Hk. injection Hk as <-. cbn [node_ptr].
      exists q, a, b. unfold ptr_copy. auto.
    - rewrite lookup_insert_ne in Hk by exact Hne. eapply Hok; eauto. }
  destruct a as [| | | |xs|kvs]; try exact Hok; destruct b as [| | | |ys|kvs']; try exact Hok.
  - apply (foldl_invariant (fun d' => index_ok (hashmap d'))); [exact Hok|].
    intros d' i Hin Hd'. apply in_seq in Hin. rewrite min_is_min in Hin.
    assert (xs !! i = Some (nth i xs VNull)) as Hx by (apply nth_lookup_lt; lia).
    assert (ys !! i = Some (nth i ys VNull)) as Hy by (apply nth_lookup_lt; lia).
    apply (IH _ _ (q ++ [itoa i])); auto.
    + cbn [appendIndex buf]. rewrite Hb, render_snoc, escapeKey_itoa. reflexivity.
    + rewrite get_app, Ha. cbn [get child]. rewrite parse_index_itoa, Hx. reflexivity.
    + rewrite get_app, HB. cbn [get child]. rewrite parse_index_itoa, Hy. reflexivity.
    + eapply wf_arr_member; eauto.
  - apply (foldl_invariant (fun d' => index_ok (hashmap d'))); [exact Hok|].
    intros d' [k v1] Hin Hd'. cbn [fst snd].
    destruct (obj_lookup k kvs') as [v2|] eqn:E2; [|exact Hd'].
    assert (obj_lookup k kvs = Some v1) as E1.
    { apply obj_lookup_In; [apply wf_obj in Hwf; tauto | exact Hin]. }
    apply (IH _ _ (q ++ [k])); auto.
    + cbn [appendKey buf]. rewrite Hb, render_snoc. reflexivity.
    + rewrite get_app, Ha. cbn [get child]. rewrite E1. reflexivity.
    + rewrite get_app, HB. cbn [get child]. rewrite E2. reflexivity.
    + eapply wf_obj_member; eauto.
Qed.

(** The state of the main pass: a sound index and a patch without
    descent. *)
Definition descent_free (d : Differ) : Prop :=
  index_ok (hashmap d) /\ no_self_descent (patch d).

(** A location that the main pass has found changed. *)
Definition changed_at (q : list string) : Prop :=
  exists a b, get A q = Some a /\ get B q = Some b /\ deepEqual a b = false.

Lemma unchanged_not_above q t path :
  changed_at q -> unchanged_at path ->
  ~ exists rest, render (q ++ [t]) = path +:+ "/" +:+ rest.
Proof.
  intros (a & b & Ha & Hb & Hne) (q' & a' & b' & -> & Ha' & Hb' & He) [rest Hrest].
  apply render_extends in Hrest as (r & Hr & Hnil).
  destruct (exists_last Hnil) as (r' & x & ->).
  rewrite app_assoc in Hr. apply app_inj_tail in Hr as [-> _].
  rewrite get_app, Ha' in Ha. rewrite get_app, Hb' in Hb.
  rewrite (deepEqual_get r' a' b' a b He Ha Hb) in Hne. discriminate.
Qed.

Lemma add_descent_free d q t v :
  changed_at q -> descent_free d -> descent_free (add digest d (render (q ++ [t])) v).
Proof.
  intros Hq [Hix Hp].
  split; [rewrite (proj2 (add_frame digest d _ v)); exact Hix|].
  unfold Engine.add.
  destruct (negb (factorize (opts d))).
  { apply no_self_descent_app; [exact Hp|]. apply no_self_descent_plain. repeat constructor. }
  destruct (findRemoved d v) as [idx|] eqn:Hr.
  - destruct (String.prefix (Path (nth idx (patch d) zeroOp)) (render (q ++ [t]))) eqn:Hpre;
      cbn [negb]; [exact Hp|].
    cbn [patch with_patch]. unfold Patch_append, Patch_remove.
    apply no_self_descent_app.
    + eapply no_self_descent_sub; [|exact Hp].
      intros op Hin. eapply elem_of_sublist; [exact Hin | apply sublist_delete].
    + intros op Hin _ [rest Hrest]. apply list_elem_of_singleton in Hin as ->.
      cbn [Path From] in Hrest. rewrite Hrest, prefix_sapp in Hpre. discriminate.
  - unfold findUnchanged.
    destruct (hashmap d !! digest v) as [node|] eqn:Hn.
    + destruct (negb (Nat.eqb (String.length (node_ptr node)) 0) && negb (invertible (opts d))).
      * apply no_self_descent_app; [exact Hp|].
        intros op Hin _ Hdesc. apply list_elem_of_singleton in Hin as ->.
        cbn [into_descendant Path From] in Hdesc. unfold into_descendant in Hdesc.
        cbn [Path From] in Hdesc.
        eapply unchanged_not_above; [exact Hq | eapply Hix; exact Hn | exact Hdesc].
      * apply no_self_descent_app; [exact Hp|]. apply no_self_descent_plain. repeat constructor.
    + cbn. apply no_self_descent_app; [exact Hp|]. apply no_self_descent_plain. repeat constructor.
Qed.

Lemma remove_descent_free d path v : descent_free d -> descent_free (remove d path v).
Proof.
  intros [Hix Hp]. split; [rewrite (proj2 (remove_frame d path v)); exact Hix|].
  rewrite remove_patch. apply no_self_descent_app; [exact Hp|].
  apply no_self_descent_plain. unfold remove_ops.
  destruct (invertible (opts d)); repeat constructor.
Qed.

Lemma replace_descent_free d path s t : descent_free d -> descent_free (replace d path s t).
Proof.
  intros [Hix Hp]. split; [rewrite (proj2 (replace_frame d path s t)); exact Hix|].
  rewrite replace_patch. apply no_self_descent_app; [exact Hp|].
  apply no_self_descent_plain. unfold replace_ops.
  destruct (invertible (opts d)); repeat constructor.
Qed.

Lemma finish_descent_free d0 d p s t : descent_free d -> descent_free (finish d0 d p s t).
Proof.
  intros [Hix Hp]. unfold Engine.finish. destruct (_ && _); [|split; assumption].
  unfold rationalizeLastOps. destruct (Z.ltb _ _); [|split; assumption].
  split; [exact Hix|]. cbn [patch with_patch].
  apply no_self_descent_app.
  - eapply no_self_descent_sub; [|exact Hp].
    intros op Hin. eapply elem_of_sublist; [exact Hin | apply sublist_take].
  - apply no_self_descent_plain. unfold Patch_append.
    destruct (invertible (opts d)); repeat constructor.
Qed.

(** What a call of [diff] at the location [q] preserves. *)
Definition diff_descent_free (rec : Differ -> pointer -> value -> value -> Differ) : Prop :=
  forall d p q a b,
    buf p = render q -> get A q = Some a -> get B q = Some b ->
    descent_free d -> descent_free (rec d p a b).

Lemma diff_is_descent_free fuel : diff_descent_free (diff fuel).
Proof.
  induction fuel as [|n IH]; intros d p q a b Hb Ha HB Hd; [exact Hd|].
  cbn [Engine.diff].
  destruct (is_nil a && is_nil b); [exact Hd|].
  destruct (ignored d (ptr_copy p)); [exact Hd|].
  destruct (negb (areComparable a b)).
  { destruct (isRoot p); [|apply replace_descent_free, Hd].
    destruct Hd as [Hix Hp]. split; [exact Hix|].
    cbn [patch with_patch]. apply no_self_descent_app; [exact Hp|].
    apply no_self_descent_plain. repeat constructor. }
  unfold deepValueEqual. destruct (deepEqual a b) eqn:He; [exact Hd|]. cbn [negb].
  assert (changed_at q) as Hq by (exists a, b; auto).
  destruct a as [| | | |xs|kvs]; try (apply replace_descent_free, Hd);
    destruct b as [| | | |ys|kvs']; try (apply replace_descent_free, Hd).
  - apply (finish_descent_free d _ p (VArr xs) (VArr ys)).
    rewrite compareArrays_with_fold. cbv zeta. rewrite Hb, min_is_min.
    set (size := Nat.min (List.length xs) (List.length ys)).
    set (d1 := if Nat.ltb size (List.length xs) then _ else d).
    assert (descent_free d1) as Hd1.
    { subst d1. destruct (Nat.ltb _ _); [|exact Hd].
      apply (foldl_invariant descent_free); [exact Hd|].
      intros d' i _ Hd'. unfold arr_remove_step.
      destruct (ignored d' _); [exact Hd' | apply remove_descent_free, Hd']. }
    set (d2 := if _ && _ then d1 else _).
    assert (descent_free d2) as Hd2.
    { subst d2. destruct (_ && _); [exact Hd1|].
      apply (foldl_invariant descent_free); [exact Hd1|].
      intros d' i Hin Hd'. apply in_seq in Hin. unfold arr_diff_step.
      assert (xs !! i = Some (nth i xs VNull)) as Hx by (apply nth_lookup_lt; lia).
      assert (ys !! i = Some (nth i ys VNull)) as Hy by (apply nth_lookup_lt; lia).
      apply (IH _ _ (q ++ [itoa i])); auto.
      - cbn [buf]. rewrite render_snoc, escapeKey_itoa. reflexivity.
      - rewrite get_app, Ha. cbn [get child]. rewrite parse_index_itoa, Hx. reflexivity.
      - rewrite get_app, HB. cbn [get child]. rewrite parse_index_itoa, Hy. reflexivity. }
    apply (foldl_invariant (fun st : Differ * string => descent_free (fst st))); [exact Hd2|].
    intros [d' b'] i _ Hd'. unfold arr_add_step. cbn [fst snd] in *.
    destruct (ignored d' _); [exact Hd'|]. cbn [fst].
    change (render q +:+ "/-") with (render q +:+ "/" +:+ escapeKey "-").
    rewrite <- render_snoc. apply add_descent_free; assumption.
  - apply (finish_descent_free d _ p (VObj kvs) (VObj kvs')).
    rewrite compareObjects_with_fold, Hb.
    apply (foldl_invariant descent_free); [exact Hd|].
    intros d' k _ Hd'. unfold obj_step. rewrite <- render_snoc.
    destruct (obj_lookup k kvs) as [s|] eqn:Es; destruct (obj_lookup k kvs') as [t|] eqn:Et.
    + apply (IH _ _ (q ++ [k])); auto.
      * rewrite get_app, Ha. cbn [get child]. rewrite Es. reflexivity.
      * rewrite get_app, HB. cbn [get child]. rewrite Et. reflexivity.
    + destruct (ignored d' _); [exact Hd' | apply remove_descent_free, Hd'].
    + destruct (ignored d' _); [exact Hd' | apply add_descent_free; assumption].
    + exact Hd'.
Qed.

Lemma Compare_descent_free (d : Differ) :
  hashmap d = ∅ -> buf (ptr d) = "" -> wf A = true ->
  no_self_descent (patch d) -> no_self_descent (patch (Compare d A B)).
Proof.
  intros Hh Hroot HA Hp. unfold Engine.Compare.
  set (d1 := if factorize (opts d) then _ else d).
  assert (patch d1 = patch d /\ same_frame d d1) as [Hp1 (_ & Hptr & _)].
  { subst d1. destruct (factorize _); [apply prepare_patch | split; [reflexivity | apply same_frame_refl]]. }
  assert (index_ok (hashmap d1)) as Hix.
  { subst d1. destruct (factorize _).
    - apply (prepare_index_ok _ _ _ []); auto.
      rewrite Hh. intros k node Hk. rewrite lookup_empty in Hk. discriminate.
    - rewrite Hh. intros k node Hk. rewrite lookup_empty in Hk. discriminate. }
  apply (diff_is_descent_free _ d1 (ptr d1) [] A B); auto.
  - rewrite Hptr. exact Hroot.
  - split; [exact Hix | rewrite Hp1; exact Hp].
Qed.

End Descent.

(** C5. In the patch of [Compare], run on a differ whose hash index is
    empty (a new or reset differ), the from path of every move and of
    every copy is not a strict prefix of its path: the path never
    continues the from path below a [/].  Operations already in the patch
    are assumed to be so. *)
Theorem Compare_no_self_descent digest opLength patchLength (d : Differ) (A B : value) :
  hashmap d = ∅ -> buf (ptr d) = "" -> wf A = true ->
  (forall op, op ∈ patch d ->
     Type_ op = OperationMove \/ Type_ op = OperationCopy ->
     ~ exists rest, Path op = From op +:+ "/" +:+ rest) ->
  forall op,
    op ∈ patch (Compare digest opLength patchLength d A B) ->
    Type_ op = OperationMove \/ Type_ op = OperationCopy ->
    ~ exists rest, Path op = From op +:+ "/" +:+ rest.
Proof.
  intros Hh Hroot HA Hp op Hin Hty.
  apply (Compare_descent_free digest opLength patchLength A B d); auto.
  - intros op' Hin' Hr. apply Hp; [exact Hin'|].
    unfold relocates in Hr. destruct (Type_ op'); try discriminate; auto.
  - unfold relocates. destruct Hty as [-> | ->]; reflexivity.
Qed.

Lemma Compare_no_self_descent_witness :
  ~ exists rest,
      Path (op_move "/a" "/b/c" (VNum 5)) = From (op_move "/a" "/b/c" (VNum 5)) +:+ "/" +:+ rest.
Proof.
  apply (Compare_no_self_descent digest_model opLength_model patchLength_model
           (newDiffer opts_factorize)
           (VObj [("a", VNum 5); ("b", VObj [])]) (VObj [("b", VObj [("c", VNum 5)])])).
  - reflexivity.
  - reflexivity.
  - reflexivity.
  - intros op Hin. inversion Hin.
  - vm_compute. apply list_elem_of_here.
  - left. reflexivity.
Defined.

(** A copy may start at a path whose text is a prefix of the text of its
    target without being above it. *)
Lemma Compare_copy_to_sibling :
  patch (Compare_model (newDiffer opts_factorize)
           (VObj [("a", VNum 1)]) (VObj [("a", VNum 1); ("ab", VNum 1)]))
  = [op_copy "/a" "/ab" (VNum 1)].
Proof. vm_compute. reflexivity. Qed.

(** On a differ that was not reset, an entry left in the hash index by an
    earlier comparison can be the source of a copy into its own
    descendant. *)
Lemma Compare_stale_index_descends :
  let d1 := Compare_model (newDiffer opts_factorize)
              (VObj [("a", VNum 1); ("c", VNum 2)]) (VObj [("a", VNum 1); ("c", VNum 3)]) in
  let d2 := Compare_model d1 (VObj [("a", VObj [])]) (VObj [("a", VObj [("b", VNum 1)])]) in
  drop (List.length (patch d1)) (patch d2) = [op_copy "/a" "/a/b" (VNum 1)].
Proof. vm_compute. reflexivity. Qed.

(** Without the empty hash index the property fails, even on a differ
    whose patch is empty: a comparison with factorize and equivalent of
    [{"a":1,"c":[1,2]}] with [{"a":1,"c":[2,1]}] leaves the patch empty
    and the entry of [/a] in the index; with no [Reset], the comparison
    of [{"a":{}}] with [{"a":{"b":1}}] then gives a copy from [/a] to
    [/a/b]. *)
Lemma Compare_no_self_descent_counterexample :
  let d1 := Compare_model (newDiffer (mkOptions true false false true ∅))
              (VObj [("a", VNum 1); ("c", VArr [VNum 1; VNum 2])])
              (VObj [("a", VNum 1); ("c", VArr [VNum 2; VNum 1])]) in
  let op := op_copy "/a" "/a/b" (VNum 1) in
  patch d1 = [] /\ buf (ptr d1) = "" /\
  patch (Compare_model d1 (VObj [("a", VObj [])]) (VObj [("a", VObj [("b", VNum 1)])]))
  = [op] /\
  Type_ op = OperationCopy /\
  exists rest, Path op = From op +:+ "/" +:+ rest.
Proof.
  cbv zeta. split; [vm_compute; reflexivity|]. split; [vm_compute; reflexivity|].
  split; [vm_compute; reflexivity|]. split; [reflexivity|].
  exists "b". reflexivity.
Qed.

(** * Further properties of the code *)

From stdpp Require sorting.

(** ** [insertionSort] and the keys of [compareObjects] *)

(** [a] is not after [b] in Go's order on strings: [b < a] is false. *)
Definition string_le (a b : string) : Prop := String.ltb b a = false.

Lemma ascii_compare_N (x y : ascii) :
  Ascii.compare x y = N.compare (N_of_ascii x) (N_of_ascii y).
Proof. reflexivity. Qed.

Lemma string_compare_trans (a : string) : forall b c,
  String.compare a b <> Gt -> String.compare b c <> Gt -> String.compare a c <> Gt.
Proof.
  induction a as [|x a IH]; intros [|y b] [|z c]; cbn [String.compare];
    try congruence.
  rewrite !ascii_compare_N.
  destruct (N.compare_spec (N_of_ascii x) (N_of_ascii y)) as [Exy|Lxy|Gxy];
    destruct (N.compare_spec (N_of_ascii y) (N_of_ascii z)) as [Eyz|Lyz|Gyz];
    destruct (N.compare_spec (N_of_ascii x) (N_of_ascii z)) as [Exz|Lxz|Gxz];
    try congruence; try lia.
  apply IH.
Qed.

Lemma string_le_compare a b : string_le a b <-> String.compare a b <> Gt.
Proof.
  unfold string_le, String.ltb. rewrite (String.compare_antisym a b).
  destruct (String.compare b a); cbn; split; intros H; try reflexivity;
    try discriminate; try (exfalso; apply H; reflexivity).
Qed.

Lemma string_le_trans a b c : string_le a b -> string_le b c -> string_le a c.
Proof. rewrite !string_le_compare. apply string_compare_trans. Qed.

Lemma string_lt_le a b : String.ltb a b = true -> string_le a b.
Proof.
  unfold string_le, String.ltb. rewrite (String.compare_antisym a b).
  destruct (String.compare b a); cbn; congruence.
Qed.

Lemma string_le_antisym a b : string_le a b -> string_le b a -> a = b.
Proof.
  unfold string_le, String.ltb. intros H1 H2.
  apply String.compare_eq_iff. rewrite (String.compare_antisym a b) in H2 |- *.
  destruct (String.compare b a); cbn in *; congruence.
Qed.

#[local] Instance string_le_antisymm : AntiSymm eq string_le.
Proof. intros a b. apply string_le_antisym. Qed.

Lemma StronglySorted_reverse {A} (R : relation A) (l : list A) :
  Sorted.StronglySorted R l -> Sorted.StronglySorted (flip R) (rev l).
Proof.
  induction 1 as [|x l Hl IH Hx]; [constructor|].
  cbn [rev]. apply sorting.StronglySorted_app_2; [|exact IH | repeat constructor].
  intros x1 x2 H1 H2. apply list_elem_of_singleton in H2 as ->.
  unfold flip. rewrite Forall_forall in Hx. apply Hx.
  apply list_elem_of_In, in_rev, list_elem_of_In. exact H1.
Qed.

(** The reversed prefix that [shift] works on stays in decreasing
    order. *)
Lemma shift_decreasing rl key :
  Sorted.StronglySorted (flip string_le) rl -> Sorted.StronglySorted (flip string_le) (shift rl key).
Proof.
  induction 1 as [|x r Hr IH Hx]; cbn [shift]; [repeat constructor|].
  destruct (String.ltb key x) eqn:E.
  - constructor; [exact IH|].
    rewrite shift_perm. constructor; [|exact Hx].
    unfold flip. apply string_lt_le, E.
  - constructor; [constructor; assumption|].
    constructor; [exact E|].
    eapply Forall_impl; [exact Hx|]. intros y Hy. unfold flip in *.
    eapply string_le_trans; [exact Hy | exact E].
Qed.

Lemma foldl_shift_decreasing v : forall acc,
  Sorted.StronglySorted (flip string_le) acc ->
  Sorted.StronglySorted (flip string_le) (foldl shift acc v).
Proof.
  induction v as [|x v IH]; intros acc H; [exact H|].
  cbn [foldl]. apply IH, shift_decreasing, H.
Qed.

(** X1. [insertionSort] returns its input rearranged in increasing
    order. *)
Theorem insertionSort_sorts (v : list string) :
  Sorted.StronglySorted string_le (insertionSort v) /\ insertionSort v ≡ₚ v.
Proof.
  split.
  - unfold insertionSort.
    apply (StronglySorted_reverse (flip string_le)).
    apply foldl_shift_decreasing. constructor.
  - unfold insertionSort.
    rewrite <- Permutation_rev, foldl_shift_perm, app_nil_r. reflexivity.
Qed.

Lemma sortStrings_sorted (v : list string) : Sorted.StronglySorted string_le (sortStrings v).
Proof.
  unfold sortStrings, sort_Strings.
  destruct (Nat.ltb _ _); unfold insertionSort;
    apply (StronglySorted_reverse (flip string_le));
    apply foldl_shift_decreasing; constructor.
Qed.

Lemma obj_lookup_perm k (m m' : list (string * value)) :
  NoDup (map fst m) -> m ≡ₚ m' -> obj_lookup k m = obj_lookup k m'.
Proof.
  intros Hnd Hp.
  assert (NoDup (map fst m')) as Hnd'.
  { assert (map fst m ≡ₚ map fst m') as Hm by (apply Permutation_map, Hp).
    rewrite <- Hm. exact Hnd. }
  destruct (obj_lookup k m) as [v|] eqn:E.
  - symmetry. apply obj_lookup_In; [exact Hnd'|].
    eapply Permutation_in; [exact Hp|]. apply obj_lookup_Some_In, E.
  - symmetry. apply obj_lookup_None. apply obj_lookup_None in E.
    intros Hin. apply E. eapply Permutation_in; [|exact Hin].
    symmetry. apply Permutation_map, Hp.
Qed.

Lemma object_keys_sorted src tgt : Sorted.StronglySorted string_le (object_keys src tgt).
Proof. apply sortStrings_sorted. Qed.

Lemma object_keys_order_free src src' tgt tgt' :
  (forall k, obj_lookup k src = obj_lookup k src') ->
  (forall k, obj_lookup k tgt = obj_lookup k tgt') ->
  object_keys src tgt = object_keys src' tgt'.
Proof.
  intros Hs Ht.
  apply (sorting.StronglySorted_unique string_le); try apply object_keys_sorted.
  apply NoDup_Permutation; try apply object_keys_NoDup.
  intros k. rewrite !object_keys_elem. unfold has_key. rewrite Hs, Ht. reflexivity.
Qed.

(** X2. [compareObjects] does not depend on the order in which [range]
    visits its two maps: the same maps listed in another order give the
    same state. *)
Theorem compareObjects_order_free digest rec (d : Differ) (p : pointer)
    (src src' tgt tgt' : list (string * value)) :
  NoDup (map fst src) -> NoDup (map fst tgt) ->
  src ≡ₚ src' -> tgt ≡ₚ tgt' ->
  compareObjects_with digest rec d p src tgt
  = compareObjects_with digest rec d p src' tgt'.
Proof.
  intros Hs Ht Ps Pt. rewrite !compareObjects_with_fold.
  rewrite (object_keys_order_free src src' tgt tgt')
    by (intros k; apply obj_lookup_perm; assumption).
  apply foldl_ext_in. intros a k _. unfold obj_step.
  rewrite (obj_lookup_perm k src src' Hs Ps), (obj_lookup_perm k tgt tgt' Ht Pt).
  reflexivity.
Qed.

Lemma compareObjects_order_free_witness :
  compareObjects_with digest_model (diff digest_model opLength_model patchLength_model 1)
    (newDiffer opts_factorize) root
    [("a", VNum 1); ("b", VNum 2)] [("c", VNum 3); ("b", VNum 4)]
  = compareObjects_with digest_model (diff digest_model opLength_model patchLength_model 1)
      (newDiffer opts_factorize) root
      [("b", VNum 2); ("a", VNum 1)] [("b", VNum 4); ("c", VNum 3)].
Proof.
  apply compareObjects_order_free.
  - apply (bool_decide_unpack _). vm_compute. exact I.
  - apply (bool_decide_unpack _). vm_compute. exact I.
  - apply perm_swap.
  - apply perm_swap.
Defined.

(** The keys that [compareObjects] visits are those of either map, each
    once, in increasing order. *)
Lemma object_keys_spec src tgt :
  Sorted.StronglySorted string_le (object_keys src tgt) /\
  NoDup (object_keys src tgt) /\
  forall k, k ∈ object_keys src tgt <-> In k (map fst src) \/ In k (map fst tgt).
Proof.
  split; [apply object_keys_sorted|]. split; [apply object_keys_NoDup|].
  intros k. rewrite object_keys_elem, orb_true_iff, !has_key_In. reflexivity.
Qed.

(** ** [unorderedDeepEqualSlice] compares multisets of digests *)

Section Multiset.

Variable digest : value -> Z.

Lemma entry_None c : entry c = None <-> c = 0%Z.
Proof. unfold entry. destruct (Z.eqb_spec c 0); split; congruence. Qed.

Lemma count_down_counts (l : list value) : forall (m m' : gmap Z Z) (f : Z -> Z),
  (forall k, (0 <= f k)%Z) ->
  (forall k, m !! k = entry (f k)) ->
  count_down digest m l = Some m' ->
  forall k, (occurrences digest k l <= f k)%Z /\
            m' !! k = entry (f k - occurrences digest k l).
Proof.
  induction l as [|v l IH]; intros m m' f Hf Hm Hc k.
  - cbn in Hc. injection Hc as <-. unfold occurrences. cbn.
    rewrite Z.sub_0_r. split; [apply Hf | apply Hm].
  - cbn [count_down] in Hc.
    destruct (m !! digest v) as [c|] eqn:Ec; [|discriminate].
    assert (f (digest v) = c /\ c <> 0%Z) as [Hfc Hc0].
    { rewrite Hm in Ec. unfold entry in Ec.
      destruct (Z.eqb_spec (f (digest v)) 0); [discriminate|].
      injection Ec as <-. auto. }
    pose proof (Hf (digest v)) as Hnn.
    set (f' := fun k => (f k - (if Z.eq_dec (digest v) k then 1 else 0))%Z).
    assert (forall k, (0 <= f' k)%Z) as Hf'.
    { intros k'. subst f'. cbn. specialize (Hf k').
      destruct (Z.eq_dec (digest v) k') as [<-|]; lia. }
    match type of Hc with count_down _ ?m1 _ = _ =>
      assert (forall k, m1 !! k = entry (f' k)) as Hm1 end.
    { intros k'. subst f'. cbn. rewrite lookup_insert_eq. cbn [default from_option id].
      destruct (Z.eq_dec (digest v) k') as [<-|Hne].
      - rewrite Hfc. unfold entry. destruct (Z.eqb_spec (c - 1) 0).
        + apply lookup_delete_eq.
        + apply lookup_insert_eq.
      - rewrite Z.sub_0_r.
        destruct (Z.eqb (c - 1) 0).
        + rewrite lookup_delete_ne, lookup_insert_ne by exact Hne. apply Hm.
        + rewrite lookup_insert_ne by exact Hne. apply Hm. }
    destruct (IH _ _ _ Hf' Hm1 Hc k) as [H1 H2].
    rewrite occurrences_cons. subst f'. cbn in H1, H2.
    split; [lia|]. rewrite H2. f_equal. lia.
Qed.

(** Arrays that pass the multiset test have the same digests up to
    their order. *)
Lemma unorderedDeepEqualSlice_digests (d : Differ) (src tgt : list value) :
  unorderedDeepEqualSlice digest d src tgt = true ->
  map digest src ≡ₚ map digest tgt.
Proof.
  unfold unorderedDeepEqualSlice.
  destruct (negb _); [discriminate|].
  destruct (count_down digest _ tgt) as [m|] eqn:Ec; [|discriminate].
  intros Hsize. apply Nat.eqb_eq in Hsize. apply map_size_empty_iff in Hsize. subst m.
  apply (Permutation_count_occ Z.eq_dec). intros k.
  destruct (count_down_counts tgt _ ∅ (fun k => occurrences digest k src)
              ltac:(intros; apply occurrences_nonneg)
              ltac:(intros k'; rewrite (count_up_entries digest src ∅ (fun _ => 0%Z));
                    [reflexivity | intros; lia | intros; rewrite lookup_empty; reflexivity])
              Ec k) as [_ H].
  rewrite lookup_empty in H. symmetry in H. apply entry_None in H.
  unfold occurrences in H. lia.
Qed.

(** X3. [unorderedDeepEqualSlice] answers true exactly when the digests
    of the two arrays are the same up to their order. *)
Theorem unorderedDeepEqualSlice_iff (d : Differ) (src tgt : list value) :
  unorderedDeepEqualSlice digest d src tgt = true <->
  map digest src ≡ₚ map digest tgt.
Proof.
  split; [apply unorderedDeepEqualSlice_digests | apply unorderedDeepEqualSlice_perm].
Qed.

End Multiset.

(** ** [findRemoved] finds the first remove of an equal value *)

Definition removes_value (v : value) (op : Operation) : bool :=
  OpType_eqb (Type_ op) OperationRemove && deepEqual (OldValue op) v.

Lemma findRemoved_from_first i p v :
  match findRemoved_from i p v with
  | Some idx =>
      i <= idx /\
      (exists op, p !! (idx - i) = Some op /\ removes_value v op = true) /\
      (forall j op, j < idx - i -> p !! j = Some op -> removes_value v op = false)
  | None => forall op, op ∈ p -> removes_value v op = false
  end.
Proof.
  revert i. induction p as [|o p IH]; intros i; cbn [findRemoved_from].
  - intros op Hin. inversion Hin.
  - fold (removes_value v o). destruct (removes_value v o) eqn:E.
    + split; [lia|]. rewrite Nat.sub_diag. split; [exists o; auto|].
      intros j op Hj. lia.
    + specialize (IH (S i)). destruct (findRemoved_from (S i) p v) as [idx|].
      * destruct IH as (Hle & (op & Hop & Hm) & Hfirst).
        split; [lia|]. replace (idx - i) with (S (idx - S i)) by lia.
        split; [exists op; auto|].
        intros [|j] op' Hj Hl; cbn in Hl.
        -- injection Hl as <-. exact E.
        -- eapply Hfirst; [|exact Hl]. lia.
      * intros op Hin. apply elem_of_cons in Hin as [->|Hin]; auto.
Qed.

(** X4. [findRemoved] returns the index of the first remove operation of
    the patch whose old value is deeply equal to the value, and [-1]
    when the patch holds none. *)
Theorem findRemoved_first (d : Differ) (v : value) :
  match findRemoved d v with
  | Some idx =>
      (exists op, patch d !! idx = Some op /\ removes_value v op = true) /\
      (forall j op, j < idx -> patch d !! j = Some op -> removes_value v op = false)
  | None => forall op, op ∈ patch d -> removes_value v op = false
  end.
Proof.
  unfold findRemoved. pose proof (findRemoved_from_first 0 (patch d) v) as H.
  destruct (findRemoved_from 0 (patch d) v) as [idx|]; [|exact H].
  rewrite Nat.sub_0_r in H. tauto.
Qed.

(** ** The preparatory pass *)

Section Prepare.

Variable digest : value -> Z.

Local Abbreviation prepare := (prepare digest).

(** X5. [prepare] changes nothing but the hash index, and never removes a
    key from it. *)
Theorem prepare_only_extends_index fuel (d : Differ) (p : pointer) (src tgt : value) :
  patch (prepare fuel d p src tgt) = patch d /\
  opts (prepare fuel d p src tgt) = opts d /\
  ptr (prepare fuel d p src tgt) = ptr d /\
  targetBytes (prepare fuel d p src tgt) = targetBytes d /\
  forall k, is_Some (hashmap d !! k) -> is_Some (hashmap (prepare fuel d p src tgt) !! k).
Proof.
  destruct (prepare_patch digest fuel d p src tgt) as (H1 & H2 & H3 & H4).
  repeat split; auto. intros k. apply prepare_hashmap.
Qed.

Variable A B : value.

(** An entry written for a location where the source and the target are
    deeply equal: it is filed under the digest of the target's value,
    and holds that value and the pointer of the location. *)
Definition records_unchanged (k : Z) (node : jsonNode) : Prop :=
  exists q a,
    node_ptr node = render q /\ get A q = Some a /\ get B q = Some (node_val node) /\
    deepEqual a (node_val node) = true /\ k = digest (node_val node).

Lemma prepare_entries fuel : forall d p q a b,
  buf p = render q -> get A q = Some a -> get B q = Some b -> wf a = true ->
  forall k node,
    hashmap (prepare fuel d p a b) !! k = Some node ->
    hashmap d !! k = Some node \/ records_unchanged k node.
Proof.
  induction fuel as [|n IH]; intros d p q a b Hb Ha HB Hwf k node Hk; [auto|].
  cbn [Engine.prepare] in Hk.
  destruct (is_nil a && is_nil b); [auto|].
  destruct (negb (areComparable a b)); [auto|].
  unfold deepValueEqual in Hk. destruct (deepEqual a b) eqn:He.
  { cbn [hashmap with_hashmap] in Hk.
    destruct (decide (digest b = k)) as [<-|Hne].
    - rewrite lookup_insert_eq in Hk. injection Hk as <-. right.
      exists q, a. cbn [node_ptr node_val]. unfold ptr_copy. auto.
    - rewrite lookup_insert_ne in Hk by exact Hne. auto. }
  set (P := fun d' : Differ => forall k node,
              hashmap d' !! k = Some node ->
              hashmap d !! k = Some node \/ records_unchanged k node).
  destruct a as [| | | |xs|kvs]; auto; destruct b as [| | | |ys|kvs']; auto.
  - revert k node Hk. change (P (foldl (fun d0 i => prepare n d0 (appendIndex p i)
                                           (nth i xs VNull) (nth i ys VNull)) d
                                       (seq 0 (min (List.length xs) (List.length ys))))).
    apply foldl_invariant; [subst P; cbn; auto|].
    intros d' i Hin Hd' k node Hk. apply in_seq in Hin. rewrite min_is_min in Hin.
    assert (xs !! i = Some (nth i xs VNull)) as Hx by (apply nth_lookup_lt; lia).
    assert (ys !! i = Some (nth i ys VNull)) as Hy by (apply nth_lookup_lt; lia).
    destruct (IH d' (appendIndex p i) (q ++ [itoa i]) (nth i xs VNull) (nth i ys VNull))
      with (k := k) (node := node) as [H|H]; auto.
    + cbn [appendIndex buf]. rewrite Hb, render_snoc, escapeKey_itoa. reflexivity.
    + rewrite get_app, Ha. cbn [get child]. rewrite parse_index_itoa, Hx. reflexivity.
    + rewrite get_app, HB. cbn [get child]. rewrite parse_index_itoa, Hy. reflexivity.
    + eapply wf_arr_member; eauto.
  - revert k node Hk. change (P (foldl (fun d0 (kv : string * value) =>
                                           match obj_lookup kv.1 kvs' with
                                           | Some v2 => prepare n d0 (appendKey p kv.1) kv.2 v2
                                           | None => d0
                                           end) d kvs)).
    apply foldl_invariant; [subst P; cbn; auto|].
    intros d' [key v1] Hin Hd' k node Hk. cbn [fst snd] in Hk.
    destruct (obj_lookup key kvs') as [v2|] eqn:E2; [|auto].
    assert (obj_lookup key kvs = Some v1) as E1.
    { apply obj_lookup_In; [apply wf_obj in Hwf; tauto | exact Hin]. }
    destruct (IH d' (appendKey p key) (q ++ [key]) v1 v2)
      with (k := k) (node := node) as [H|H]; auto.
    + cbn [appendKey buf]. rewrite Hb, render_snoc. reflexivity.
    + rewrite get_app, Ha. cbn [get child]. rewrite E1. reflexivity.
    + rewrite get_app, HB. cbn [get child]. rewrite E2. reflexivity.
    + eapply wf_obj_member; eauto.
Qed.

(** X6. Every entry that [prepare], run from the root, leaves in the hash
    index was there before or names a location at which the source and
    the target hold deeply equal values; it is filed under the digest of
    the target's value there. *)
Theorem prepare_records_unchanged fuel (d : Differ) (p : pointer) :
  buf p = "" -> wf A = true ->
  forall k node,
    hashmap (prepare fuel d p A B) !! k = Some node ->
    hashmap d !! k = Some node \/ records_unchanged k node.
Proof.
  intros Hp HA. apply (prepare_entries fuel d p [] A B); auto.
Qed.

End Prepare.

Lemma prepare_records_unchanged_witness :
  let A := VObj [("a", VNum 1); ("b", VArr [VNum 2; VNum 3])] in
  let B := VObj [("a", VNum 1); ("b", VArr [VNum 2; VNum 4])] in
  hashmap (newDiffer opts_factorize) !! digest_model (VNum 2) = Some (mkNode "/b/0" (VNum 2)) \/
  records_unchanged digest_model A B (digest_model (VNum 2)) (mkNode "/b/0" (VNum 2)).
Proof.
  cbv zeta.
  apply (prepare_records_unchanged digest_model _ _ 3 (newDiffer opts_factorize) root);
    [reflexivity | reflexivity | vm_compute; reflexivity].
Defined.

(** ** What a comparison leaves alone, and what it may emit *)

Section Kinds.

Variable digest : value -> Z.
Variable opLength : Operation -> string -> Z.
Variable patchLength : Patch -> string -> Z.

Local Abbreviation diff := (diff digest opLength patchLength).
Local Abbreviation prepare := (prepare digest).
Local Abbreviation Compare := (Compare digest opLength patchLength).
Local Abbreviation add := (add digest).
Local Abbreviation finish := (finish opLength patchLength).

(** X7. The main pass writes to the patch only: the options, the cost
    bytes and the hash index are the same after [diff], in every
    configuration. *)
Theorem diff_writes_patch_only fuel (d : Differ) (p : pointer) (s t : value) :
  opts (diff fuel d p s t) = opts d /\
  targetBytes (diff fuel d p s t) = targetBytes d /\
  hashmap (diff fuel d p s t) = hashmap d.
Proof.
  destruct (diff_frame digest opLength patchLength fuel d p s t) as [(Ho & _ & Ht) Hh].
  auto.
Qed.

(** The kinds of operation a configuration allows: a move needs
    factorize, a copy needs factorize without invertible, a test needs
    invertible. *)
Definition kind_allowed (o : options) (op : Operation) : bool :=
  match Type_ op with
  | OperationMove => factorize o
  | OperationCopy => factorize o && negb (invertible o)
  | OperationTest => invertible o
  | _ => true
  end.

Definition emits_allowed (d d' : Differ) : Prop :=
  same_frame d d' /\
  forall op, op ∈ patch d' -> op ∈ patch d \/ kind_allowed (opts d) op = true.

Lemma emits_allowed_refl d : emits_allowed d d.
Proof. split; [apply same_frame_refl | auto]. Qed.

Lemma emits_allowed_trans d1 d2 d3 :
  emits_allowed d1 d2 -> emits_allowed d2 d3 -> emits_allowed d1 d3.
Proof.
  intros [F1 H1] [F2 H2]. split; [eapply same_frame_trans; eauto|].
  intros op Hop. destruct (H2 op Hop) as [H|H]; [auto|].
  right. destruct F1 as (<- & _). exact H.
Qed.

Lemma emits_allowed_append d typ from path s t :
  kind_allowed (opts d) (mkOp typ from path s t) = true ->
  emits_allowed d (with_patch d (Patch_append (patch d) typ from path s t)).
Proof.
  intros Hk. split; [repeat split|].
  intros op Hop. cbn [patch with_patch] in Hop. unfold Patch_append in Hop.
  apply elem_of_app in Hop as [H|H]; [auto|].
  apply list_elem_of_singleton in H as ->. auto.
Qed.

Lemma emits_allowed_add d p v : emits_allowed d (add d p v).
Proof.
  unfold Engine.add. destruct (factorize (opts d)) eqn:Hf; cbn [negb].
  2:{ apply emits_allowed_append. reflexivity. }
  destruct (findRemoved d v) as [idx|].
  - destruct (negb _); [|apply emits_allowed_refl].
    split; [repeat split|].
    intros op Hop. cbn [patch with_patch] in Hop. unfold Patch_append, Patch_remove in Hop.
    apply elem_of_app in Hop as [H|H].
    + left. eapply elem_of_sublist; [exact H | apply sublist_delete].
    + apply list_elem_of_singleton in H as ->. right.
      unfold kind_allowed. cbn. exact Hf.
  - destruct (negb (Nat.eqb _ _) && negb (invertible (opts d))) eqn:E.
    + apply emits_allowed_append. unfold kind_allowed. cbn. rewrite Hf.
      apply andb_true_iff in E as [_ ->]. reflexivity.
    + apply emits_allowed_append. reflexivity.
Qed.

Lemma emits_allowed_remove d p v : emits_allowed d (remove d p v).
Proof.
  unfold remove. destruct (invertible (opts d)) eqn:Hi.
  - eapply emits_allowed_trans.
    + apply (emits_allowed_append d OperationTest). unfold kind_allowed. cbn. exact Hi.
    + apply emits_allowed_append. reflexivity.
  - apply emits_allowed_append. reflexivity.
Qed.

Lemma emits_allowed_replace d p s t : emits_allowed d (replace d p s t).
Proof.
  unfold replace. destruct (invertible (opts d)) eqn:Hi.
  - eapply emits_allowed_trans.
    + apply (emits_allowed_append d OperationTest). unfold kind_allowed. cbn. exact Hi.
    + apply emits_allowed_append. reflexivity.
  - apply emits_allowed_append. reflexivity.
Qed.

Lemma emits_allowed_finish d0 d p s t :
  emits_allowed d0 d -> emits_allowed d0 (finish d0 d p s t).
Proof.
  intros [F H]. unfold Engine.finish.
  destruct (_ && _); [|split; assumption].
  unfold rationalizeLastOps. destruct (Z.ltb _ _); [|split; assumption].
  split; [exact F|].
  intros op Hop. cbn [patch with_patch] in Hop.
  apply elem_of_app in Hop as [Hop|Hop].
  - apply H. eapply elem_of_sublist; [exact Hop | apply sublist_take].
  - right. destruct F as (Ho & _). rewrite Ho in Hop.
    unfold Patch_append in Hop. destruct (invertible (opts d0)) eqn:Hi; cbn in Hop.
    + apply elem_of_cons in Hop as [->|Hop]; [unfold kind_allowed; cbn; exact Hi|].
      apply list_elem_of_singleton in Hop as ->. reflexivity.
    + apply list_elem_of_singleton in Hop as ->. reflexivity.
Qed.

Lemma diff_emits_allowed fuel d p s t : emits_allowed d (diff fuel d p s t).
Proof.
  apply diff_closed.
  - apply emits_allowed_refl.
  - apply emits_allowed_trans.
  - apply emits_allowed_add.
  - apply emits_allowed_remove.
  - apply emits_allowed_replace.
  - intros. apply emits_allowed_append. reflexivity.
  - apply emits_allowed_finish.
Qed.

(** X8. Every operation that [Compare] leaves in the patch was there
    before or is of a kind its configuration allows: a move only with
    factorize, a copy only with factorize and without invertible, a test
    only with invertible. *)
Theorem Compare_operation_kinds (d : Differ) (A B : value) (op : Operation) :
  op ∈ patch (Compare d A B) ->
  op ∈ patch d \/ kind_allowed (opts d) op = true.
Proof.
  unfold Engine.Compare. intros Hop.
  set (d1 := if factorize (opts d) then _ else d) in Hop.
  assert (patch d1 = patch d /\ same_frame d d1) as [Hp (Ho & _)].
  { subst d1. destruct (factorize (opts d)); [apply prepare_patch|].
    split; [reflexivity | apply same_frame_refl]. }
  destruct (diff_emits_allowed (S (height A)) d1 (ptr d1) A B) as [_ H].
  rewrite <- Hp, <- Ho. apply H, Hop.
Qed.

(** Neither pass ever makes the patch shorter. *)
Definition not_shorter (d d' : Differ) : Prop :=
  List.length (patch d) <= List.length (patch d').

Lemma not_shorter_append d typ from path s t :
  not_shorter d (with_patch d (Patch_append (patch d) typ from path s t)).
Proof.
  unfold not_shorter, Patch_append. cbn [patch with_patch]. rewrite length_app. lia.
Qed.

Lemma not_shorter_trans d1 d2 d3 : not_shorter d1 d2 -> not_shorter d2 d3 -> not_shorter d1 d3.
Proof. unfold not_shorter. lia. Qed.

Lemma length_delete_ge {A} (l : list A) i : List.length l - 1 <= List.length (delete i l).
Proof.
  destruct (l !! i) as [x|] eqn:E.
  - rewrite length_delete by (rewrite E; eauto). lia.
  - pose proof (sublist_length _ _ (sublist_delete l i)) as H1.
    assert (l `sublist_of` delete i l) as H2.
    { clear H1. revert i E. induction l as [|y l IH]; intros [|i] E; cbn in *;
        try discriminate; try constructor. apply IH, E. }
    apply sublist_length in H2. lia.
Qed.

Lemma diff_not_shorter fuel d p s t : not_shorter d (diff fuel d p s t).
Proof.
  apply diff_closed.
  - intros d0. unfold not_shorter. lia.
  - apply not_shorter_trans.
  - intros d0 p0 v. unfold Engine.add.
    destruct (negb (factorize (opts d0))); [apply not_shorter_append|].
    destruct (findRemoved d0 v) as [idx|].
    + destruct (negb _); [|unfold not_shorter; lia].
      unfold not_shorter, Patch_append, Patch_remove. cbn [patch with_patch].
      rewrite length_app. cbn [List.length].
      pose proof (length_delete_ge (patch d0) idx). unfold Patch in *. lia.
    + destruct (_ && _); apply not_shorter_append.
  - intros d0 p0 v. unfold remove. destruct (invertible (opts d0)).
    + eapply not_shorter_trans; [|apply not_shorter_append]. apply not_shorter_append.
    + apply not_shorter_append.
  - intros d0 p0 s0 t0. unfold replace. destruct (invertible (opts d0)).
    + eapply not_shorter_trans; [|apply not_shorter_append]. apply not_shorter_append.
    + apply not_shorter_append.
  - intros. apply not_shorter_append.
  - intros d0 d1 p0 s0 t0 H. unfold Engine.finish.
    destruct (rationalize (opts d1)); cbn [andb]; [|exact H].
    destruct (Nat.ltb_spec (List.length (patch d0)) (List.length (patch d1))) as [Hlt|]; [|exact H].
    unfold rationalizeLastOps. destruct (Z.ltb _ _); [|exact H].
    unfold not_shorter. cbn [patch with_patch].
    rewrite !length_app, length_take. lia.
Qed.

(** X9. A comparison never makes the patch shorter, in any configuration:
    a move takes the place of the remove it absorbs, and rationalization
    cuts back to the length at which [diff] was entered before it
    appends. *)
Theorem Compare_never_shortens (d : Differ) (A B : value) :
  List.length (patch d) <= List.length (patch (Compare d A B)).
Proof.
  unfold Engine.Compare.
  set (d1 := if factorize (opts d) then _ else d).
  assert (patch d1 = patch d) as Hp.
  { subst d1. destruct (factorize (opts d)); [apply prepare_patch | reflexivity]. }
  rewrite <- Hp. apply diff_not_shorter.
Qed.

(** X10. In equivalence mode two arrays whose digests agree up to their
    order give no operation, wherever they are compared; this includes
    arrays that differ but whose digests collide. *)
Theorem diff_equivalent_permuted fuel (d : Differ) (p : pointer) (xs ys : list value) :
  equivalent (opts d) = true ->
  map digest xs ≡ₚ map digest ys ->
  diff fuel d p (VArr xs) (VArr ys) = d /\
  patch (Compare d (VArr xs) (VArr ys)) = patch d.
Proof.
  intros He Hp. split.
  - apply diff_equivalent_arrays; [exact He|].
    apply unorderedDeepEqualSlice_perm, Hp.
  - unfold Engine.Compare.
    set (d1 := if factorize (opts d) then _ else d).
    assert (patch d1 = patch d /\ same_frame d d1) as [Hp1 (Ho & _)].
    { subst d1. destruct (factorize (opts d)); [apply prepare_patch|].
      split; [reflexivity | apply same_frame_refl]. }
    rewrite diff_equivalent_arrays; [exact Hp1 | rewrite Ho; exact He|].
    apply unorderedDeepEqualSlice_perm, Hp.
Qed.

Lemma nil_comparable a b : is_nil a && is_nil b = true -> areComparable a b = true.
Proof. destruct a, b; cbn; intros H; try discriminate; reflexivity. Qed.

Lemma length_zero_empty (s : string) : String.length s = 0 -> s = "".
Proof. destruct s; [reflexivity | discriminate]. Qed.

(** X11. When the source and the target have different shapes, a
    comparison at the root emits one add of the whole target at the
    empty path and nothing else, in every configuration: no test comes
    before it, and it is neither factorized nor rationalized. *)
Theorem Compare_incomparable_root (d : Differ) (A B : value) :
  areComparable A B = false ->
  isRoot (ptr d) = true ->
  ignored d "" = false ->
  patch (Compare d A B) = patch d ++ [mkOp OperationAdd "" "" A B].
Proof.
  intros Hc Hr Hi. unfold Engine.Compare.
  assert (is_nil A && is_nil B = false) as Hn.
  { destruct (is_nil A && is_nil B) eqn:E; [|reflexivity].
    apply nil_comparable in E. congruence. }
  assert (buf (ptr d) = "") as Hb.
  { unfold isRoot in Hr. apply Nat.eqb_eq in Hr. apply length_zero_empty, Hr. }
  assert ((if factorize (opts d) then prepare (S (height A)) d (ptr d) A B else d) = d) as ->.
  { destruct (factorize (opts d)); [|reflexivity].
    cbn [Engine.prepare]. rewrite Hn, Hc. reflexivity. }
  cbn [Engine.diff]. rewrite Hn. unfold ptr_copy. rewrite Hb, Hi, Hc, Hr.
  reflexivity.
Qed.

(** X12. After [prepare] has run from the root on an empty index, what
    [findUnchanged] returns for a value is empty or the pointer of a
    location at which the source and the target are deeply equal and the
    target's value has the digest of the value asked for. *)
Theorem findUnchanged_after_prepare fuel (d : Differ) (p : pointer) (A B v : value) :
  buf p = "" -> wf A = true -> hashmap d = ∅ ->
  findUnchanged digest (prepare fuel d p A B) v <> "" ->
  exists q a b,
    findUnchanged digest (prepare fuel d p A B) v = render q /\
    get A q = Some a /\ get B q = Some b /\
    deepEqual a b = true /\ digest b = digest v.
Proof.
  intros Hp HA Hh. unfold findUnchanged.
  destruct (hashmap (prepare fuel d p A B) !! digest v) as [node|] eqn:E;
    [|intros H; exfalso; apply H; reflexivity].
  intros _.
  destruct (prepare_entries digest A B fuel d p [] A B Hp eq_refl eq_refl HA _ _ E)
    as [H|(q & a & Hq & Ha & Hb & He & Hk)].
  - rewrite Hh, lookup_empty in H. discriminate.
  - exists q, a, (node_val node). auto.
Qed.

End Kinds.

Lemma Compare_operation_kinds_witness :
  let d := newDiffer (mkOptions false false true false ∅) in
  let op := mkOp OperationTest "" "/a" VNull (VNum 1) in
  op ∈ patch d \/ kind_allowed (opts d) op = true.
Proof.
  cbv zeta.
  apply (Compare_operation_kinds digest_model opLength_model patchLength_model _
           (VObj [("a", VNum 1)]) (VObj [("a", VNum 2)])).
  vm_compute. constructor.
Defined.

Lemma diff_equivalent_permuted_witness :
  let d := newDiffer (mkOptions false false false true ∅) in
  diff digest_model opLength_model patchLength_model 2 d root (VArr arr_123) (VArr arr_321) = d /\
  patch (Compare_model d (VArr arr_123) (VArr arr_321)) = patch d.
Proof.
  cbv zeta. apply diff_equivalent_permuted; [reflexivity|].
  change arr_321 with (rev arr_123). rewrite map_rev. apply Permutation_rev.
Defined.

Lemma Compare_incomparable_root_witness :
  let d := newDiffer (mkOptions true true true true ∅) in
  patch (Compare_model d (VArr [VNum 1]) (VObj [("a", VNum 1)]))
  = patch d ++ [mkOp OperationAdd "" "" (VArr [VNum 1]) (VObj [("a", VNum 1)])].
Proof.
  cbv zeta. apply Compare_incomparable_root; reflexivity.
Defined.

Lemma findUnchanged_after_prepare_witness :
  let A := VObj [("a", VNum 7); ("b", VNum 2)] in
  let B := VObj [("a", VNum 7); ("b", VNum 3)] in
  let d := newDiffer opts_factorize in
  exists q a b,
    findUnchanged digest_model (prepare digest_model 2 d root A B) (VNum 7) = render q /\
    get A q = Some a /\ get B q = Some b /\
    deepEqual a b = true /\ digest_model b = digest_model (VNum 7).
Proof.
  cbv zeta. apply findUnchanged_after_prepare; try reflexivity.
  vm_compute. discriminate.
Defined.

(** ** The order of the operations of [compareArrays] and [compareObjects] *)

Section Layout.

Variable digest : value -> Z.
Variable opLength : Operation -> string -> Z.
Variable patchLength : Patch -> string -> Z.

Local Abbreviation diff := (diff digest opLength patchLength).
Local Abbreviation compareArrays := (compareArrays digest opLength patchLength).
Local Abbreviation compareObjects := (compareObjects digest opLength patchLength).
Local Abbreviation add := (add digest).

Lemma remove_ops_frame d d' path v :
  same_frame d d' -> remove_ops d' path v = remove_ops d path v.
Proof. intros (Ho & _). unfold remove_ops. rewrite Ho. reflexivity. Qed.

Lemma nth_seq_drop {A} (dflt : A) (l pre : list A) :
  map (fun i => nth i (pre ++ l) dflt) (seq (List.length pre) (List.length l)) = l.
Proof.
  revert pre. induction l as [|x l IH]; intros pre; [reflexivity|].
  cbn [List.length seq map]. f_equal.
  - rewrite app_nth2 by lia. rewrite Nat.sub_diag. reflexivity.
  - specialize (IH (pre ++ [x])). rewrite <- app_assoc, length_app in IH.
    cbn [List.length app] in IH. rewrite Nat.add_1_r in IH. exact IH.
Qed.

Lemma nth_seq_tail {A} (dflt : A) (l : list A) (k : nat) :
  map (fun i => nth i l dflt) (seq k (List.length l - k)) = drop k l.
Proof.
  destruct (Nat.le_gt_cases k (List.length l)) as [Hle|Hgt].
  - pose proof (nth_seq_drop dflt (drop k l) (take k l)) as H.
    rewrite take_drop, length_take, length_drop in H.
    rewrite Nat.min_l in H by exact Hle. exact H.
  - replace (List.length l - k) with 0 by lia. rewrite drop_ge by lia. reflexivity.
Qed.

(** The first loop of [compareArrays]. *)
Lemma arr_remove_loop_patch base size src (l : list nat) : forall d,
  plain d ->
  same_frame d (foldl (arr_remove_step base size src) d l) /\
  patch (foldl (arr_remove_step base size src) d l)
  = patch d ++ flat_map (remove_ops d (base +:+ "/" +:+ itoa size))
                        (map (fun i => nth i src VNull) l).
Proof.
  induction l as [|i l IH]; intros d Hd.
  - cbn. rewrite app_nil_r. split; [apply same_frame_refl | reflexivity].
  - cbn [foldl map flat_map]. unfold arr_remove_step at 2 4.
    rewrite (plain_not_ignored _ _ Hd).
    pose proof (proj1 (remove_frame d (base +:+ "/" +:+ itoa size) (nth i src VNull))) as Hf.
    destruct (IH _ (plain_frame _ _ Hf Hd)) as [Hf' Hp].
    split; [eapply same_frame_trans; eauto|].
    rewrite Hp, remove_patch, <- app_assoc. f_equal. f_equal.
    apply flat_map_ext. intros v. apply remove_ops_frame, Hf.
Qed.

(** What the second loop of [compareArrays] emits for the index [i]:
    what [rec] emits there for the two elements. *)
Definition element_ops (rec : Differ -> pointer -> value -> value -> Differ)
    (d : Differ) (base : string) (src tgt : list value)
    (i : nat) (ops : Patch) : Prop :=
  exists d', same_frame d d' /\
    patch (rec d' (mkPointer (base +:+ "/" +:+ itoa i) (String.length base))
               (nth i src VNull) (nth i tgt VNull))
    = patch d' ++ ops.

(** The second loop. *)
Lemma arr_diff_loop_patch n d base src tgt (l : list nat) : forall d1,
  plain d1 -> same_frame d d1 ->
  same_frame d1 (foldl (arr_diff_step (diff n) base src tgt) d1 l) /\
  exists opss,
    Forall2 (element_ops (diff n) d base src tgt) l opss /\
    patch (foldl (arr_diff_step (diff n) base src tgt) d1 l) = patch d1 ++ concat opss.
Proof.
  induction l as [|i l IH]; intros d1 Hd1 Hf1.
  - cbn. split; [apply same_frame_refl|]. exists [].
    split; [constructor | cbn; rewrite app_nil_r; reflexivity].
  - cbn [foldl]. unfold arr_diff_step at 2 4.
    destruct (diff_appends digest opLength patchLength n d1
                (mkPointer (base +:+ "/" +:+ itoa i) (String.length base))
                (nth i src VNull) (nth i tgt VNull)) as [Hf Ha].
    destruct (Ha (proj1 Hd1)) as [o1 E1].
    destruct (IH _ (plain_frame _ _ Hf Hd1) (same_frame_trans _ _ _ Hf1 Hf))
      as [Hf' (opss & Hall & E2)].
    split; [eapply same_frame_trans; eauto|].
    exists (o1 :: opss). split.
    + constructor; [exists d1; auto | exact Hall].
    + rewrite E2, E1. cbn [concat]. rewrite app_assoc. reflexivity.
Qed.

(** The last loop. *)
Lemma arr_add_loop_patch base tgt (l : list nat) : forall d,
  plain d ->
  patch (fst (foldl (arr_add_step digest base tgt) (d, base) l))
  = patch d ++ map (fun i => op_add (base +:+ "/-") (nth i tgt VNull)) l.
Proof.
  induction l as [|i l IH]; intros d Hd.
  - cbn. rewrite app_nil_r. reflexivity.
  - cbn [foldl map]. unfold arr_add_step at 2. cbn [fst snd].
    rewrite (plain_not_ignored _ _ Hd).
    pose proof (proj1 (add_frame digest d (base +:+ "/-") (nth i tgt VNull))) as Hf.
    rewrite (IH _ (plain_frame _ _ Hf Hd)).
    rewrite (add_patch_plain digest) by apply Hd.
    rewrite <- app_assoc. reflexivity.
Qed.

(** X13. With factorize off and no ignored path, the operations that
    [compareArrays] appends come in three runs: first one remove (with
    its test when invertible is set) for each source element past the
    common length, in order and all at the index of the common length;
    then, index by index in increasing order, what [diff] emits for the
    two elements at each common index, or nothing at all when
    equivalent is set and the arrays pass the multiset test; last one
    add at the end-of-array path for each target element past the common
    length, in order. *)
Theorem compareArrays_layout n (d : Differ) (p : pointer) (src tgt : list value) :
  factorize (opts d) = false -> ignores (opts d) = ∅ ->
  let size := min (List.length src) (List.length tgt) in
  exists opss,
    (if equivalent (opts d) && unorderedDeepEqualSlice digest d src tgt
     then opss = []
     else Forall2 (element_ops (diff n) d (buf p) src tgt) (seq 0 size) opss) /\
    patch (compareArrays n d p src tgt)
    = patch d
      ++ flat_map (remove_ops d (buf p +:+ "/" +:+ itoa size)) (drop size src)
      ++ concat opss
      ++ map (op_add (buf p +:+ "/-")) (drop size tgt).
Proof.
  intros Hfz Hig size. assert (plain d) as Hd by (split; assumption).
  unfold Engine.compareArrays. rewrite compareArrays_with_fold. cbv zeta.
  fold size.
  set (d1 := if Nat.ltb size (List.length src) then _ else d).
  assert (same_frame d d1 /\
          patch d1 = patch d ++ flat_map (remove_ops d (buf p +:+ "/" +:+ itoa size))
                                         (drop size src)) as [Hf1 Hp1].
  { subst d1. destruct (Nat.ltb_spec size (List.length src)) as [Hlt|Hge].
    - rewrite <- (nth_seq_tail VNull src size). apply arr_remove_loop_patch, Hd.
    - rewrite drop_ge by lia. cbn. rewrite app_nil_r.
      split; [apply same_frame_refl | reflexivity]. }
  pose proof (plain_frame _ _ Hf1 Hd) as Hd1.
  replace (equivalent (opts d1)) with (equivalent (opts d))
    by (destruct Hf1 as (-> & _); reflexivity).
  change (unorderedDeepEqualSlice digest d1 src tgt)
    with (unorderedDeepEqualSlice digest d src tgt).
  set (d2 := if _ && _ then d1 else _).
  assert (same_frame d1 d2 /\
          exists opss,
            (if equivalent (opts d) && unorderedDeepEqualSlice digest d src tgt
             then opss = []
             else Forall2 (element_ops (diff n) d (buf p) src tgt) (seq 0 size) opss) /\
            patch d2 = patch d1 ++ concat opss) as [Hf2 (opss & Hall & Hp2)].
  { subst d2. destruct (equivalent (opts d) && unorderedDeepEqualSlice digest d src tgt).
    - split; [apply same_frame_refl|]. exists [].
      split; [reflexivity | cbn; rewrite app_nil_r; reflexivity].
    - apply arr_diff_loop_patch; assumption. }
  pose proof (plain_frame _ _ Hf2 Hd1) as Hd2.
  exists opss. split; [exact Hall|].
  rewrite arr_add_loop_patch by exact Hd2.
  rewrite Hp2, Hp1, <- !app_assoc. do 3 f_equal.
  rewrite <- (nth_seq_tail VNull tgt size), map_map. reflexivity.
Qed.

(** What [compareObjects] emits for the key [k]: a remove for a key of
    the source only, an add for a key of the target only, and for a key
    of both what [rec] emits there. *)
Definition member_ops (rec : Differ -> pointer -> value -> value -> Differ)
    (d : Differ) (base : string) (src tgt : list (string * value))
    (k : string) (ops : Patch) : Prop :=
  let path := base +:+ "/" +:+ escapeKey k in
  match obj_lookup k src, obj_lookup k tgt with
  | Some s, Some t =>
      exists d', same_frame d d' /\
        patch (rec d' (mkPointer path (String.length base)) s t) = patch d' ++ ops
  | Some s, None => ops = remove_ops d path s
  | None, Some t => ops = [op_add path t]
  | None, None => ops = []
  end.

Lemma obj_loop_patch n d base src tgt (keys : list string) : forall d1,
  plain d1 -> same_frame d d1 ->
  exists opss,
    Forall2 (member_ops (diff n) d base src tgt) keys opss /\
    patch (foldl (obj_step digest (diff n) base src tgt) d1 keys) = patch d1 ++ concat opss.
Proof.
  induction keys as [|k keys IH]; intros d1 Hd1 Hf1.
  - exists []. split; [constructor | cbn; rewrite app_nil_r; reflexivity].
  - cbn [foldl].
    assert (exists ops,
              member_ops (diff n) d base src tgt k ops /\
              same_frame d1 (obj_step digest (diff n) base src tgt d1 k) /\
              patch (obj_step digest (diff n) base src tgt d1 k) = patch d1 ++ ops)
      as (ops & Hm & Hf & Hp).
    { unfold obj_step, member_ops. cbv zeta.
      destruct (obj_lookup k src) as [s|], (obj_lookup k tgt) as [t|].
      - destruct (diff_appends digest opLength patchLength n d1
                    (mkPointer (base +:+ "/" +:+ escapeKey k) (String.length base)) s t)
          as [Hf Ha].
        destruct (Ha (proj1 Hd1)) as [ops E].
        exists ops. split; [exists d1; auto | auto].
      - rewrite (plain_not_ignored _ _ Hd1).
        exists (remove_ops d (base +:+ "/" +:+ escapeKey k) s).
        split; [reflexivity|]. split; [apply remove_frame|].
        rewrite remove_patch, (remove_ops_frame d d1) by exact Hf1. reflexivity.
      - rewrite (plain_not_ignored _ _ Hd1).
        exists [op_add (base +:+ "/" +:+ escapeKey k) t].
        split; [reflexivity|]. split; [apply add_frame|].
        apply add_patch_plain, Hd1.
      - exists []. split; [reflexivity|]. split; [apply same_frame_refl|].
        rewrite app_nil_r. reflexivity. }
    destruct (IH _ (plain_frame _ _ Hf Hd1) (same_frame_trans _ _ _ Hf1 Hf))
      as (opss & Hall & Hps).
    exists (ops :: opss). split; [constructor; assumption|].
    rewrite Hps, Hp. cbn [concat]. rewrite app_assoc. reflexivity.
Qed.

(** X14. With factorize off and no ignored path, [compareObjects]
    appends the operations of one key after those of another in the
    increasing order of the keys, each key of either object once: a
    remove (with its test when invertible is set) for a key of the
    source only, an add for a key of the target only, and for a key of
    both what [diff] gives for the two members. *)
Theorem compareObjects_layout n (d : Differ) (p : pointer)
    (src tgt : list (string * value)) :
  factorize (opts d) = false -> ignores (opts d) = ∅ ->
  exists keys opss,
    Sorted.StronglySorted string_le keys /\ NoDup keys /\
    (forall k, k ∈ keys <-> In k (map fst src) \/ In k (map fst tgt)) /\
    Forall2 (member_ops (diff n) d (buf p) src tgt) keys opss /\
    patch (compareObjects n d p src tgt) = patch d ++ concat opss.
Proof.
  intros Hfz Hig. assert (plain d) as Hd by (split; assumption).
  unfold Engine.compareObjects. rewrite compareObjects_with_fold.
  destruct (obj_loop_patch n d (buf p) src tgt (object_keys src tgt) d Hd
              (same_frame_refl d)) as (opss & Hall & Hp).
  destruct (object_keys_spec src tgt) as (H1 & H2 & H3).
  exists (object_keys src tgt), opss. auto.
Qed.

End Layout.

Lemma compareArrays_layout_witness :
  let d := newDiffer (mkOptions false false true false ∅) in
  exists opss,
    (if equivalent (opts d) && unorderedDeepEqualSlice digest_model d arr_1234 [VNum 1; VNum 5]
     then opss = []
     else Forall2 (element_ops (diff digest_model opLength_model patchLength_model 1)
                     d (buf root) arr_1234 [VNum 1; VNum 5]) (seq 0 2) opss) /\
    patch (compareArrays digest_model opLength_model patchLength_model 1 d root
             arr_1234 [VNum 1; VNum 5])
    = patch d
      ++ flat_map (remove_ops d (buf root +:+ "/" +:+ itoa 2)) (drop 2 arr_1234)
      ++ concat opss
      ++ map (op_add (buf root +:+ "/-")) (drop 2 [VNum 1; VNum 5]).
Proof.
  cbv zeta.
  apply (compareArrays_layout digest_model opLength_model patchLength_model 1
           (newDiffer (mkOptions false false true false ∅)) root arr_1234 [VNum 1; VNum 5]);
    reflexivity.
Defined.

Lemma compareObjects_layout_witness :
  let d := newDiffer (mkOptions false false false false ∅) in
  let src := [("b", VNum 1); ("a", VNum 2)] in
  let tgt := [("c", VNum 3); ("a", VNum 4)] in
  exists keys opss,
    Sorted.StronglySorted string_le keys /\ NoDup keys /\
    (forall k, k ∈ keys <-> In k (map fst src) \/ In k (map fst tgt)) /\
    Forall2 (member_ops (diff digest_model opLength_model patchLength_model 1) d (buf root) src tgt)
            keys opss /\
    patch (compareObjects digest_model opLength_model patchLength_model 1 d root src tgt)
    = patch d ++ concat opss.
Proof.
  cbv zeta. apply compareObjects_layout; reflexivity.
Defined.

(** ** Round trip up to the order of arrays

    In equivalence mode the main pass leaves alone two arrays that pass
    the multiset test, so that the patched source is the target only up
    to the order of such arrays. *)

(** [similar digest a b]: [a] is [b] up to the order of the elements of
    arrays, where two arrays are taken to hold the same elements when
    their digests agree up to their order. *)
Inductive similar (digest : value -> Z) : value -> value -> Prop :=
| similar_equal a b : deepEqual a b = true -> similar digest a b
| similar_arr rs ys : Forall2 (similar digest) rs ys -> similar digest (VArr rs) (VArr ys)
| similar_digests xs ys :
    map digest xs ≡ₚ map digest ys -> similar digest (VArr xs) (VArr ys)
| similar_obj cur tgt :
    NoDup (map fst cur) -> NoDup (map fst tgt) ->
    (forall k v, obj_lookup k tgt = Some v ->
                 exists c, obj_lookup k cur = Some c /\ similar digest c v) ->
    (forall k, obj_lookup k tgt = None -> obj_lookup k cur = None) ->
    similar digest (VObj cur) (VObj tgt).

Section RoundTripUpToOrder.

Variable digest : value -> Z.
Variable opLength : Operation -> string -> Z.
Variable patchLength : Patch -> string -> Z.

Local Abbreviation diff := (diff digest opLength patchLength).
Local Abbreviation Compare := (Compare digest opLength patchLength).
Local Abbreviation finish := (finish opLength patchLength).
Local Abbreviation Q := (similar digest).

Lemma similar_refl v : wf v = true -> Q v v.
Proof. intros H. apply similar_equal, deepEqual_refl, H. Qed.

Lemma similar_agrees cur tgt :
  NoDup (map fst cur) -> NoDup (map fst tgt) ->
  (forall k, agrees Q tgt cur k) -> Q (VObj cur) (VObj tgt).
Proof.
  intros Hc Ht H. apply similar_obj; auto.
  - intros k v Hk. specialize (H k). unfold agrees in H. rewrite Hk in H. exact H.
  - intros k Hk. specialize (H k). unfold agrees in H. rewrite Hk in H. exact H.
Qed.

(** The relation that constrains nothing, for the loops that do not
    call [diff]. *)
Definition unconstrained (a b : value) : Prop := True.

Lemma plain_covered d : plain d -> covered unconstrained d.
Proof. intros H. split; [exact H | intros _ a b; exact I]. Qed.

(** What a call [rec d p src tgt] at the location [ts] achieves, in any
    setting of equivalent. *)
Definition sound_up_to_order (rec : Differ -> pointer -> value -> value -> Differ)
    (bound : nat) : Prop :=
  forall d p ts s t,
    plain d -> buf p = render ts -> height s < bound ->
    wf s = true -> wf t = true ->
    exists r, reaches d (rec d p s t) ts s r /\ Q r t.

Section Loops.

Variable rec : Differ -> pointer -> value -> value -> Differ.
Variable bound : nat.
Hypothesis rec_sound : sound_up_to_order rec bound.

Variable d0 : Differ.
Variable ts : list string.
Hypothesis d0_plain : plain d0.

Section Objects.

Variable src tgt : list (string * value).
Hypothesis src_wf : wf (VObj src) = true.
Hypothesis tgt_wf : wf (VObj tgt) = true.
Hypothesis src_height : height (VObj src) <= bound.

Lemma obj_step_similar done d cur k :
  k ∉ done ->
  reaches d0 d ts (VObj src) (VObj cur) ->
  visited Q src tgt done cur ->
  exists cur',
    reaches d0 (obj_step digest rec (render ts) src tgt d k) ts (VObj src) (VObj cur') /\
    visited Q src tgt (done ++ [k]) cur'.
Proof.
  intros Hk Hd Hv.
  pose proof (plain_frame _ _ (proj1 Hd) d0_plain) as Hplain.
  pose proof Hv as (Hnd & Hdone & Hrest).
  pose proof (Hrest k Hk) as Hcur.
  unfold obj_step. rewrite <- render_snoc.
  destruct (obj_lookup k src) as [s|] eqn:Es; destruct (obj_lookup k tgt) as [t|] eqn:Et.
  - destruct (rec_sound d (mkPointer (render (ts ++ [k])) (String.length (render ts)))
                (ts ++ [k]) s t) as (r & Hr & He).
    + exact Hplain.
    + reflexivity.
    + pose proof (height_obj_member _ _ _ Es). lia.
    + exact (wf_obj_member src k s src_wf Es).
    + exact (wf_obj_member tgt k t tgt_wf Et).
    + exists (obj_set k r cur). split.
      * eapply reaches_trans; [exact Hd|].
        apply (reaches_child d _ ts k (VObj cur) s r); [exact Hcur | exact Hr].
      * apply (visited_next Q src tgt done cur); auto.
        -- rewrite obj_set_keys_present; [exact Hnd|]. unfold has_key. rewrite Hcur. reflexivity.
        -- unfold agrees. rewrite Et. exists r. rewrite obj_lookup_set_same. auto.
        -- intros k' Hne. apply obj_lookup_set_other. exact Hne.
  - rewrite (plain_not_ignored _ _ Hplain).
    exists (obj_del k cur). split.
    + eapply reaches_trans; [exact Hd|].
      apply reaches_remove.
      * exact Hcur.
      * apply deepEqual_refl. exact (wf_obj_member src k s src_wf Es).
      * cbn [remove_member]. rewrite Hcur. reflexivity.
    + apply (visited_next Q src tgt done cur); auto.
      * rewrite obj_del_keys. apply NoDup_filter. exact Hnd.
      * unfold agrees. rewrite Et. apply obj_lookup_del_same.
      * intros k' Hne. apply obj_lookup_del_other. exact Hne.
  - rewrite (plain_not_ignored _ _ Hplain).
    exists (obj_set k t cur). split.
    + eapply reaches_trans; [exact Hd|].
      apply reaches_add; [apply Hplain | reflexivity].
    + apply (visited_next Q src tgt done cur); auto.
      * rewrite obj_set_keys_absent by exact Hcur.
        apply NoDup_app. split; [exact Hnd|]. split; [|apply NoDup_singleton].
        intros x Hx Hx'. apply list_elem_of_singleton in Hx' as ->.
        apply list_elem_of_In in Hx. apply obj_lookup_is_key in Hx as [v Hv'].
        rewrite Hcur in Hv'. discriminate.
      * unfold agrees. rewrite Et. exists t. rewrite obj_lookup_set_same.
        split; [reflexivity|]. apply similar_refl. exact (wf_obj_member tgt k t tgt_wf Et).
      * intros k' Hne. apply obj_lookup_set_other. exact Hne.
  - exists cur. split; [exact Hd|].
    apply (visited_next Q src tgt done cur); auto.
    unfold agrees. rewrite Et. exact Hcur.
Qed.

Lemma obj_loop_similar todo : forall done d cur,
  NoDup (done ++ todo) ->
  reaches d0 d ts (VObj src) (VObj cur) ->
  visited Q src tgt done cur ->
  exists cur',
    reaches d0 (foldl (obj_step digest rec (render ts) src tgt) d todo) ts
      (VObj src) (VObj cur') /\
    visited Q src tgt (done ++ todo) cur'.
Proof.
  induction todo as [|k todo IH]; intros done d cur Hnd Hd Hv.
  - exists cur. rewrite app_nil_r. auto.
  - cbn [foldl].
    assert (k ∉ done) as Hk.
    { apply NoDup_app in Hnd as (_ & Hdis & _). intros Hin.
      apply (Hdis k Hin). left. }
    destruct (obj_step_similar done d cur k Hk Hd Hv) as (cur1 & Hd1 & Hv1).
    destruct (IH (done ++ [k]) (obj_step digest rec (render ts) src tgt d k) cur1)
      as (cur2 & Hd2 & Hv2); auto.
    + rewrite <- app_assoc. exact Hnd.
    + exists cur2. rewrite <- app_assoc in Hv2. auto.
Qed.

Lemma compareObjects_similar d p :
  same_frame d0 d -> patch d = patch d0 -> buf p = render ts ->
  exists r,
    reaches d0 (compareObjects_with digest rec d p src tgt) ts (VObj src) r /\
    Q r (VObj tgt).
Proof.
  intros Hf Hp Hb. rewrite compareObjects_with_fold, Hb.
  destruct (obj_loop_similar (object_keys src tgt) [] d src) as (cur & Hd & Hv).
  - apply object_keys_NoDup.
  - split; [exact Hf|]. exists []. split; [rewrite app_nil_r; exact Hp | apply acts_on_nil].
  - split; [apply wf_obj in src_wf; tauto|]. split; [|reflexivity].
    intros k Hin. inversion Hin.
  - exists (VObj cur). split; [exact Hd|].
    destruct Hv as (Hnd & Hdone & Hrest). cbn [app] in *.
    apply similar_agrees; [exact Hnd | apply wf_obj in tgt_wf; tauto|].
    intros k. destruct (decide (k ∈ object_keys src tgt)) as [Hin|Hin]; [apply Hdone, Hin|].
    pose proof (Hrest k Hin) as Hcur.
    rewrite object_keys_elem in Hin. apply not_true_is_false in Hin.
    apply orb_false_iff in Hin as [H1 H2]. unfold has_key in H1, H2. unfold agrees.
    destruct (obj_lookup k tgt); [discriminate|].
    destruct (obj_lookup k src); [discriminate|]. exact Hcur.
Qed.

End Objects.

Section Arrays.

Variable xs ys : list value.
Hypothesis xs_wf : wf (VArr xs) = true.
Hypothesis ys_wf : wf (VArr ys) = true.
Hypothesis xs_height : height (VArr xs) <= bound.

Let size : nat := Nat.min (List.length xs) (List.length ys).

Lemma arr_diff_loop_similar count : forall j d rs,
  j + count = size -> List.length rs = j ->
  Forall2 Q rs (take j ys) ->
  reaches d0 d ts (VArr xs) (VArr (rs ++ drop j (take size xs))) ->
  exists rs',
    Forall2 Q rs' (take size ys) /\
    reaches d0 (foldl (arr_diff_step rec (render ts) xs ys) d (seq j count)) ts
      (VArr xs) (VArr rs').
Proof.
  induction count as [|count IH]; intros j d rs Hlen Hrs Hall Hd.
  - cbn [seq foldl]. exists rs. replace j with size in * by lia.
    rewrite drop_ge, app_nil_r in Hd by (rewrite length_take; lia). auto.
  - cbn [seq foldl].
    pose proof (plain_frame _ _ (proj1 Hd) d0_plain) as Hplain.
    assert (xs !! j = Some (nth j xs VNull)) as Hx by (apply nth_lookup_lt; lia).
    assert (ys !! j = Some (nth j ys VNull)) as Hy by (apply nth_lookup_lt; lia).
    assert (take size xs !! j = Some (nth j xs VNull)) as Hx'.
    { rewrite lookup_take. destruct (decide (j < size)); [exact Hx | lia]. }
    rewrite (drop_S _ _ _ Hx') in Hd.
    destruct (rec_sound d (mkPointer (render ts +:+ "/" +:+ itoa j) (String.length (render ts)))
                (ts ++ [itoa j]) (nth j xs VNull) (nth j ys VNull)) as (r & Hr & He).
    + exact Hplain.
    + apply index_path.
    + pose proof (height_arr_member _ _ _ Hx). lia.
    + exact (wf_arr_member xs j _ xs_wf Hx).
    + exact (wf_arr_member ys j _ ys_wf Hy).
    + apply (IH (S j) _ (rs ++ [r])).
      * lia.
      * rewrite length_app. cbn. lia.
      * rewrite (take_S_r _ _ _ Hy). apply Forall2_app; [exact Hall|].
        constructor; [exact He | constructor].
      * eapply reaches_trans; [exact Hd|]. unfold arr_diff_step.
        rewrite <- app_assoc. cbn [app].
        replace (VArr (rs ++ r :: drop (S j) (take size xs)))
          with (set_child (itoa j) r (VArr (rs ++ nth j xs VNull :: drop (S j) (take size xs)))).
        -- apply (reaches_child _ _ ts (itoa j) _ (nth j xs VNull) r); [|exact Hr].
           rewrite child_index. apply list_lookup_middle. symmetry. exact Hrs.
        -- cbn [set_child]. rewrite parse_index_itoa.
           rewrite insert_app_r_alt by lia. rewrite Hrs, Nat.sub_diag. reflexivity.
Qed.

Lemma compareArrays_similar d p :
  same_frame d0 d -> patch d = patch d0 -> buf p = render ts ->
  exists r,
    reaches d0 (compareArrays_with digest rec d p xs ys) ts (VArr xs) r /\
    Q r (VArr ys).
Proof.
  intros Hf Hp Hb. rewrite compareArrays_with_fold, Hb. cbv zeta.
  rewrite min_is_min. fold size.
  pose proof (plain_covered d0 d0_plain) as Hcov.
  assert (reaches d0 d ts (VArr xs) (VArr xs)) as Hd.
  { split; [exact Hf|]. exists []. split; [rewrite app_nil_r; exact Hp | apply acts_on_nil]. }
  set (d1 := if Nat.ltb size (List.length xs) then _ else d).
  assert (reaches d0 d1 ts (VArr xs) (VArr (take size xs))) as Hd1.
  { subst d1. destruct (Nat.ltb_spec size (List.length xs)) as [Hlt|Hge].
    - pose proof (arr_remove_loop_sound unconstrained bound d0 ts Hcov xs ys xs_wf xs_height
                    (List.length xs - size) 0 d
                    ltac:(fold size; lia)
                    ltac:(fold size; rewrite Nat.add_0_r, take_drop; exact Hd)) as H1.
      fold size in H1. rewrite Nat.add_0_r in H1. exact H1.
    - rewrite take_ge by lia. exact Hd. }
  destruct (equivalent (opts d1) && unorderedDeepEqualSlice digest d1 xs ys) eqn:Hskip.
  { apply andb_true_iff in Hskip as [He Hu].
    pose proof (unorderedDeepEqualSlice_length _ _ _ _ Hu) as Hlen.
    exists (VArr xs). split.
    - replace (List.length ys - size) with 0 by (subst size; lia).
      cbn [seq foldl fst]. rewrite take_ge in Hd1 by (subst size; lia). exact Hd1.
    - apply similar_digests. eapply unorderedDeepEqualSlice_digests, Hu. }
  destruct (arr_diff_loop_similar size 0 d1 []) as (rs & Hall & Hd2).
  - lia.
  - reflexivity.
  - rewrite take_0. constructor.
  - rewrite drop_0. exact Hd1.
  - exists (VArr (rs ++ drop size ys)). split.
    + pose proof (arr_add_loop_sound digest unconstrained bound d0 ts Hcov xs ys xs_height
                    (List.length ys - size) 0 _ rs
                    ltac:(fold size; subst size; lia)
                    ltac:(fold size; rewrite take_0, app_nil_r; exact Hd2)) as H3.
      fold size in H3. rewrite Nat.add_0_r in H3. exact H3.
    + apply similar_arr. rewrite <- (take_drop size ys) at 2.
      apply Forall2_app; [exact Hall|].
      apply wf_arr in ys_wf. apply (Forall_drop _ size) in ys_wf.
      induction ys_wf as [|y l Hy _ IH]; constructor; [apply similar_refl, Hy | exact IH].
Qed.

End Arrays.

End Loops.

Lemma diff_similar n : sound_up_to_order (diff n) n.
Proof.
  induction n as [|n IH]; intros d p ts s t Hplain Hb Hh Hs Ht; [lia|].
  cbn [Engine.diff].
  destruct (is_nil s && is_nil t) eqn:Hnil.
  { exists s. split; [apply reaches_refl|].
    destruct s; try discriminate. destruct t; try discriminate.
    apply similar_equal. reflexivity. }
  unfold ptr_copy. rewrite (plain_not_ignored _ _ Hplain).
  destruct (negb (areComparable s t)).
  { exists t. split; [|apply similar_refl, Ht].
    destruct (isRoot p) eqn:Hroot.
    - unfold isRoot in Hroot. apply Nat.eqb_eq in Hroot. rewrite Hb in Hroot.
      apply render_nil_iff in Hroot. subst ts. rewrite Hb.
      split; [repeat split|]. eexists. split; [reflexivity|].
      intros D HD. reflexivity.
    - rewrite Hb. apply reaches_replace, deepEqual_refl, Hs. }
  unfold deepValueEqual.
  destruct (deepEqual s t) eqn:He.
  { exists s. split; [apply reaches_refl | apply similar_equal, He]. }
  cbn [negb].
  assert (exists r, reaches d (replace d (buf p) s t) ts s r /\ Q r t) as Hrep.
  { exists t. split; [|apply similar_refl, Ht].
    rewrite Hb. apply reaches_replace, deepEqual_refl, Hs. }
  destruct s; try exact Hrep; destruct t; try exact Hrep.
  - destruct (compareArrays_similar (diff n) n IH d ts Hplain xs xs0 Hs Ht ltac:(lia) d p)
      as (r & Hr & Hre); [apply same_frame_refl | reflexivity | exact Hb|].
    apply (finish_sound opLength patchLength Q (similar_equal digest)
             d _ p ts (VArr xs) (VArr xs0) r); auto.
  - destruct (compareObjects_similar (diff n) n IH d ts Hplain kvs kvs0 Hs Ht ltac:(lia) d p)
      as (r & Hr & Hre); [apply same_frame_refl | reflexivity | exact Hb|].
    apply (finish_sound opLength patchLength Q (similar_equal digest)
             d _ p ts (VObj kvs) (VObj kvs0) r); auto.
Qed.

(** X15. With factorize off and no ignored path, in every setting of
    the other three flags, equivalence mode included, a comparison
    appends to the patch, and what it appends applies to the source and
    gives the target up to the order of the arrays whose digests agree
    up to their order. *)
Theorem Compare_round_trip_up_to_order (d : Differ) (A B : value) :
  factorize (opts d) = false -> ignores (opts d) = ∅ ->
  buf (ptr d) = "" -> wf A = true -> wf B = true ->
  exists ops A',
    patch (Compare d A B) = patch d ++ ops /\
    apply_patch ops A = Some A' /\ similar digest A' B.
Proof.
  intros Hfz Hig Hroot HA HB. unfold Engine.Compare. rewrite Hfz.
  destruct (diff_similar (S (height A)) d (ptr d) [] A B)
    as (r & [_ (E & HE & Hact)] & Hr); auto.
  { split; assumption. }
  exists E, r. split; [exact HE|]. split; [|exact Hr].
  rewrite (Hact A); reflexivity.
Qed.

End RoundTripUpToOrder.

Lemma Compare_round_trip_up_to_order_witness :
  let d := newDiffer (mkOptions false true true true ∅) in
  let A := VObj [("a", VArr arr_123); ("b", VArr arr_1234)] in
  let B := VObj [("a", VArr arr_321); ("b", VArr arr_321)] in
  exists ops A',
    patch (Compare_model d A B) = patch d ++ ops /\
    apply_patch ops A = Some A' /\ similar digest_model A' B.
Proof.
  cbv zeta. apply Compare_round_trip_up_to_order; reflexivity.
Defined.

(** [similar] relates values of the same shape only. *)
Lemma similar_comparable digest a b : similar digest a b -> areComparable a b = true.
Proof.
  intros H. destruct H as [a b H| | |]; [apply deepEqual_comparable, H | reflexivity ..].
Qed.

(** X16. With factorize and equivalent off and no ignored path, the
    patch of a comparison on a new differ is empty exactly when the
    source and the target are deeply equal. *)
Theorem Compare_empty_iff_equal digest opLength patchLength (o : options) (A B : value) :
  factorize o = false -> equivalent o = false -> ignores o = ∅ ->
  wf A = true -> wf B = true ->
  patch (Compare digest opLength patchLength (newDiffer o) A B) = [] <->
  deepEqual A B = true.
Proof.
  intros Hf He Hi HA HB. split.
  - intros Hnil.
    destruct (Compare_sound digest opLength patchLength (newDiffer o) A B)
      as (ops & A' & Hp & Happ & Heq); auto.
    { split; assumption. }
    rewrite Hnil in Hp. cbn in Hp. subst ops. cbn in Happ. injection Happ as <-.
    exact Heq.
  - intros Heq. unfold Engine.Compare. cbn [opts newDiffer]. rewrite Hf.
    rewrite diff_deepEqual by exact Heq. reflexivity.
Qed.

Lemma Compare_empty_iff_equal_witness :
  patch (Compare_model (newDiffer (mkOptions false true true false ∅))
           (VObj [("a", VNum 1); ("b", VNum 2)]) (VObj [("b", VNum 2); ("a", VNum 1)])) = [] <->
  deepEqual (VObj [("a", VNum 1); ("b", VNum 2)]) (VObj [("b", VNum 2); ("a", VNum 1)]) = true.
Proof.
  apply Compare_empty_iff_equal; reflexivity.
Defined.
